(** * Skia GPU draw-state assembly: GrClip, GrPipelineBuilder, SkCachingPixelRef

    A shallow embedding of
      - include/gpu/GrClip.h              (the clip descriptor),
      - src/gpu/GrPipelineBuilder.h       (the pipeline builder and its guards),
      - src/lazy/SkCachingPixelRef.cpp    (the lazily decoded pixel ref),
      - src/svg/SkSVGDevice.cpp           (the SVG backend's helpers for
                                           colours, ids, text and paints),
    with the properties their specification states about them and further
    properties read off the code.

    Conventions.
      - A C++ pointer is an [option]: [None] is NULL.  Objects that the code
        only holds by pointer and never inspects (render targets, clip stacks,
        image generators, bitmaps) are named by an address.
      - A member function takes the receiver ([this]) explicitly and returns
        the updated receiver.
      - Calls that leave the embedded classes (ref-counting, object creation
        and deletion, the bitmap cache, the image generator) are recorded, in
        program order, in a trace of events.
      - A failed SkASSERT / SkFAIL, a NULL dereference and a read of the
        inactive member of a union are a [Fault]. *)

From Stdlib Require Import ZArith Bool List Lia Ascii.
From stdpp Require Import base option list gmap strings pretty.
Import ListNotations.
Local Open Scope Z_scope.

(** ** Results of calls that may assert *)

Inductive Res (A : Type) : Type :=
| Ok (a : A)
| Fault.
Arguments Ok {A} a.
Arguments Fault {A}.

#[export] Instance Res_ret : MRet Res := fun A (a : A) => Ok a.

#[export] Instance Res_bind : MBind Res := fun A B (k : A -> Res B) (r : Res A) =>
  match r with
  | Ok a => k a
  | Fault => Fault
  end.

Definition SkASSERT (cond : bool) : Res unit :=
  if cond then Ok tt else Fault.

Abbreviation Addr := N (only parsing).

(** A pointer in a boolean context: true unless NULL. *)
Definition SkToBool {T} (p : option T) : bool :=
  match p with
  | Some _ => true
  | None => false
  end.

(** ** Integer geometry (SkIPoint, SkIRect)

    Both are plain structs of 32-bit signed integers declared in
    include/core; comparison is member by member. *)

Record SkIPoint := { fX : Z; fY : Z }.

Definition SkIPoint_zero : SkIPoint := {| fX := 0; fY := 0 |}.

Definition SkIPoint_eq (a b : SkIPoint) : bool :=
  (fX a =? fX b) && (fY a =? fY b).

Record SkIRect := { fLeft : Z; fTop : Z; fRight : Z; fBottom : Z }.

Definition SkIRect_eq (a b : SkIRect) : bool :=
  (fLeft a =? fLeft b) && (fTop a =? fTop b) &&
  (fRight a =? fRight b) && (fBottom a =? fBottom b).

(** ** Reference-counted objects and the trace of external calls *)

(** SkXfermode::Mode (include/core/SkXfermode.h), the Porter-Duff part of
    the enumeration in declaration order. *)
Inductive SkXfermode_Mode :=
| kClear_Mode | kSrc_Mode | kDst_Mode | kSrcOver_Mode | kDstOver_Mode
| kSrcIn_Mode | kDstIn_Mode | kSrcOut_Mode | kDstOut_Mode
| kSrcATop_Mode | kDstATop_Mode | kXor_Mode | kPlus_Mode | kModulate_Mode
| kScreen_Mode.

(** SkRegion::Op (include/core/SkRegion.h). *)
Inductive SkRegion_Op :=
| kDifference_Op | kIntersect_Op | kUnion_Op | kXOR_Op
| kReverseDifference_Op | kReplace_Op.

(** A transfer-processor factory is known to the builder only through the
    call that produced it; [GrXPFactory] names a factory by that call.  A
    factory made elsewhere and handed to [setXPFactory] is named by its
    address. *)
Inductive GrXPFactory :=
| GrPorterDuffXPFactory_Create (mode : SkXfermode_Mode)
| GrCoverageSetOpXPFactory_Create (regionOp : SkRegion_Op) (invertCoverage : bool)
| GrDisableColorXPFactory_Create
| ExternalXPFactory (a : Addr).

(** Likewise for fragment processors: the texture overloads build a
    GrSimpleTextureEffect from a texture, a matrix and optional sampling
    parameters (the latter two are opaque values, named by a token). *)
Inductive GrFragmentProcessor :=
| GrSimpleTextureEffect_Create (texture : option Addr) (matrix : N)
                               (params : option N)
| ExternalProcessor (a : Addr).

(** SkImageInfo (include/core/SkImageInfo.h): dimensions and the two format
    tags; [bounds] is the rectangle (0, 0, width, height). *)
Record SkImageInfo := {
  fWidth : Z; fHeight : Z; fColorType : N; fAlphaType : N
}.

Definition SkImageInfo_bounds (info : SkImageInfo) : SkIRect :=
  {| fLeft := 0; fTop := 0; fRight := fWidth info; fBottom := fHeight info |}.

(** A pixel ref made by [SkNEW_ARGS(SkCachingPixelRef, (info, generator,
    rowBytes))], named by the constructor's arguments. *)
Inductive SkPixelRef :=
| SkCachingPixelRef_new (info : SkImageInfo) (generator : Addr) (rowBytes : Z).

Inductive Obj :=
| ORenderTarget (a : Addr)
| OClipStack (a : Addr)
| OProcessor (p : GrFragmentProcessor)
| OXPFactory (f : GrXPFactory)
| OImageGenerator (a : Addr)
| OPixelRef (r : SkPixelRef).

(** Calls on objects of other classes whose answer comes from outside. *)
Inductive Call :=
| Call_getInfo (generator : Addr)                  (* generator->getInfo(&info) *)
| Call_setInfo (dst : Addr) (info : SkImageInfo)   (* dst->setInfo(info) *)
| Call_setPixelRef (dst : Addr) (r : SkPixelRef)   (* dst->setPixelRef(ref) *)
| Call_BitmapCache_Find (genID : N) (bounds : SkIRect)
| Call_tryAllocPixels (info : SkImageInfo) (rowBytes : Z)
| Call_getPixels (generator : Addr) (info : SkImageInfo)
                 (pixels : option Addr) (rowBytes : Z)
| Call_BitmapCache_Add (genID : N) (bounds : SkIRect)
    (* the bitmap handed over: getPixels(), rowBytes(), isImmutable() *)
    (pixels : option Addr) (rowBytes : Z) (immutable : bool).

Inductive Event :=
| EvCreate (o : Obj)      (* a Create() call or a new-expression made [o] *)
| EvRef (o : Obj)         (* o->ref()   *)
| EvUnref (o : Obj)       (* o->unref() *)
| EvDelete (o : Obj)      (* SkDELETE(o) *)
| EvCall (c : Call).

Abbreviation Trace := (list Event) (only parsing).

(** Computations that append to the trace and may fault. *)
Definition M (A : Type) : Type := list Event -> Res (A * list Event).

#[export] Instance M_ret : MRet M := fun A (a : A) t => Ok (a, t).

#[export] Instance M_bind : MBind M := fun A B (k : A -> M B) (m : M A) t =>
  match m t with
  | Ok (a, t') => k a t'
  | Fault => Fault
  end.

Definition emit (e : Event) : M unit := fun t => Ok (tt, t ++ [e]).

Definition fault {A} : M A := fun _ => Fault.

Definition lift {A} (r : Res A) : M A :=
  fun t => match r with Ok a => Ok (a, t) | Fault => Fault end.

(** The ref-counting helpers of include/core/SkRefCnt.h.

    SkRef(obj): asserts [obj] and takes a reference. *)
Definition SkRef {T} (mk : T -> Obj) (p : option T) : M (option T) :=
  match p with
  | Some a => emit (EvRef (mk a));; mret (Some a)
  | None => fault
  end.

(** SkSafeRef(obj): takes a reference unless [obj] is NULL. *)
Definition SkSafeRef {T} (mk : T -> Obj) (p : option T) : M (option T) :=
  match p with
  | Some a => emit (EvRef (mk a));; mret (Some a)
  | None => mret None
  end.

(** SkSafeUnref(obj). *)
Definition SkSafeUnref {T} (mk : T -> Obj) (p : option T) : M unit :=
  match p with
  | Some a => emit (EvUnref (mk a))
  | None => mret tt
  end.

(** The events of SkSafeRef / SkSafeUnref on a pointer. *)
Definition refOf {T} (mk : T -> Obj) (p : option T) : list Event :=
  match p with
  | Some a => [EvRef (mk a)]
  | None => []
  end.

Definition unrefOf {T} (mk : T -> Obj) (p : option T) : list Event :=
  match p with
  | Some a => [EvUnref (mk a)]
  | None => []
  end.

(** * GrClip (include/gpu/GrClip.h) *)

Module GrClip.

(** What the clip needs from classes declared outside the file: the two
    queries on a (const) SkClipStack, addressed through the pointer the clip
    holds, and the two overloads of SkIRect::contains. *)
Class Env := {
  SkClipStack_isWideOpen : Addr -> bool;        (* clipStack->isWideOpen() *)
  SkClipStack_equal : Addr -> Addr -> bool;     (* *a == *b                *)
  SkRect : Type;                                (* scalar rectangle        *)
  SkIRect_contains_SkRect : SkIRect -> SkRect -> bool;
  SkIRect_contains_SkIRect : SkIRect -> SkIRect -> bool
}.

(** SkClipStack::operator== is an equivalence on stack contents. *)
Class StackEquivalence `{Env} : Prop := {
  equal_refl : forall a, SkClipStack_equal a a = true;
  equal_sym : forall a b, SkClipStack_equal a b = SkClipStack_equal b a;
  equal_trans : forall a b c,
      SkClipStack_equal a b = true -> SkClipStack_equal b c = true ->
      SkClipStack_equal a c = true
}.

Inductive ClipType :=
| kClipStack_ClipType
| kWideOpen_ClipType
| kIRect_ClipType.

Definition ClipType_eqb (a b : ClipType) : bool :=
  match a, b with
  | kClipStack_ClipType, kClipStack_ClipType
  | kWideOpen_ClipType, kWideOpen_ClipType
  | kIRect_ClipType, kIRect_ClipType => true
  | _, _ => false
  end.

(** union Clip { const SkClipStack* fStack; SkIRect fIRect; }: the member
    written last, or nothing yet. *)
Inductive Clip :=
| Clip_unset
| Clip_fStack (s : option Addr)
| Clip_fIRect (r : SkIRect).

Record t := { fClip : Clip; fOrigin : SkIPoint; fClipType : ClipType }.

Definition set_fClip (v : Clip) (c : t) : t :=
  {| fClip := v; fOrigin := fOrigin c; fClipType := fClipType c |}.
Definition set_fOrigin (v : SkIPoint) (c : t) : t :=
  {| fClip := fClip c; fOrigin := v; fClipType := fClipType c |}.
Definition set_fClipType (v : ClipType) (c : t) : t :=
  {| fClip := fClip c; fOrigin := fOrigin c; fClipType := v |}.

(** pointer comparison *)
Definition ptr_eqb (p q : option Addr) : bool :=
  match p, q with
  | Some a, Some b => N.eqb a b
  | None, None => true
  | _, _ => false
  end.

Section Operations.
Context `{Env}.

(** GrClip() *)
Definition GrClip : t :=
  {| fClip := Clip_unset; fOrigin := SkIPoint_zero;
     fClipType := kWideOpen_ClipType |}.

(** GrClip(const SkIRect& rect) *)
Definition GrClip_SkIRect (rect : SkIRect) : t :=
  {| fClip := Clip_fIRect rect; fOrigin := SkIPoint_zero;
     fClipType := kIRect_ClipType |}.

Definition clipType (this : t) : ClipType := fClipType this.

Definition clipStack (this : t) : Res (option Addr) :=
  SkASSERT (ClipType_eqb kClipStack_ClipType (fClipType this));;
  match fClip this with
  | Clip_fStack s => Ok s
  | _ => Fault
  end.

Definition irect (this : t) : Res SkIRect :=
  SkASSERT (ClipType_eqb kIRect_ClipType (fClipType this));;
  match fClip this with
  | Clip_fIRect r => Ok r
  | _ => Fault
  end.

Definition origin (this : t) : Res SkIPoint :=
  SkASSERT (ClipType_eqb (fClipType this) kClipStack_ClipType
            || ((fX (fOrigin this) =? 0) && (fY (fOrigin this) =? 0)));;
  Ok (fOrigin this).

Definition reset (this : t) : M t :=
  this ← (if ClipType_eqb kClipStack_ClipType (fClipType this) then
            match fClip this with
            | Clip_fStack (Some a) =>
                emit (EvUnref (OClipStack a));;
                mret (set_fClip (Clip_fStack None) this)
            | _ => fault
            end
          else mret this);
  let this := set_fClipType kWideOpen_ClipType this in
  mret (set_fOrigin SkIPoint_zero this).

(** const GrClip& operator=(const GrClip& other) *)
Definition operator_assign (other : t) (this : t) : M t :=
  this ← reset this;
  let this := set_fClipType (fClipType other) this in
  match fClipType other with
  | kWideOpen_ClipType =>
      mret (set_fOrigin SkIPoint_zero this)
  | kClipStack_ClipType =>
      s ← lift (clipStack other);
      s ← SkRef OClipStack s;
      let this := set_fClip (Clip_fStack s) this in
      o ← lift (origin other);
      mret (set_fOrigin o this)
  | kIRect_ClipType =>
      r ← lift (irect other);
      let this := set_fClip (Clip_fIRect r) this in
      mret (set_fOrigin SkIPoint_zero this)
  end.

(** bool operator==(const GrClip& other) const *)
Definition operator_eq (this other : t) : Res bool :=
  if negb (ClipType_eqb (clipType this) (clipType other)) then Ok false
  else
    match fClipType this with
    | kWideOpen_ClipType => Ok true
    | kClipStack_ClipType =>
        o1 ← origin this;
        o2 ← origin other;
        if negb (SkIPoint_eq o1 o2) then Ok false
        else
          s1 ← clipStack this;
          both ← match s1 with
                 | None => Ok false
                 | Some _ => s2 ← clipStack other; Ok (SkToBool s2)
                 end;
          s1 ← clipStack this;
          s2 ← clipStack other;
          if (both : bool) then
            match s1, s2 with
            | Some a, Some b => Ok (SkClipStack_equal a b)
            | _, _ => Fault
            end
          else Ok (ptr_eqb s1 s2)
    | kIRect_ClipType =>
        r1 ← irect this;
        r2 ← irect other;
        Ok (SkIRect_eq r1 r2)
    end.

Definition operator_ne (this other : t) : Res bool :=
  b ← operator_eq this other; Ok (negb b).

(** void setClipStack(const SkClipStack* clipStack,
                      const SkIPoint* origin = NULL) *)
Definition setClipStack (clipStack : option Addr) (origin : option SkIPoint)
    (this : t) : M t :=
  this ← reset this;
  match clipStack with
  | None => fault
  | Some a =>
      if SkClipStack_isWideOpen a then
        let this := set_fClipType kWideOpen_ClipType this in
        mret (set_fOrigin SkIPoint_zero this)
      else
        let this := set_fClipType kClipStack_ClipType this in
        s ← SkRef OClipStack (Some a);
        let this := set_fClip (Clip_fStack s) this in
        match origin with
        | Some o => mret (set_fOrigin o this)
        | None => mret (set_fOrigin SkIPoint_zero this)
        end
  end.

(** [this->clipStack()->isWideOpen()] *)
Definition clipStack_isWideOpen (this : t) : Res bool :=
  s ← clipStack this;
  match s with
  | Some a => Ok (SkClipStack_isWideOpen a)
  | None => Fault
  end.

(** bool isWideOpen(const SkRect& rect) const *)
Definition isWideOpen_SkRect (rect : SkRect) (this : t) : Res bool :=
  if ClipType_eqb kWideOpen_ClipType (fClipType this) then Ok true
  else
    b ← (if ClipType_eqb kClipStack_ClipType (fClipType this)
         then clipStack_isWideOpen this else Ok false);
    if (b : bool) then Ok true
    else if ClipType_eqb kIRect_ClipType (fClipType this)
         then r ← irect this; Ok (SkIRect_contains_SkRect r rect)
         else Ok false.

(** bool isWideOpen(const SkIRect& rect) const *)
Definition isWideOpen_SkIRect (rect : SkIRect) (this : t) : Res bool :=
  if ClipType_eqb kWideOpen_ClipType (fClipType this) then Ok true
  else
    b ← (if ClipType_eqb kClipStack_ClipType (fClipType this)
         then clipStack_isWideOpen this else Ok false);
    if (b : bool) then Ok true
    else if ClipType_eqb kIRect_ClipType (fClipType this)
         then r ← irect this; Ok (SkIRect_contains_SkIRect r rect)
         else Ok false.

(** bool isWideOpen() const *)
Definition isWideOpen (this : t) : Res bool :=
  if ClipType_eqb kWideOpen_ClipType (fClipType this) then Ok true
  else if ClipType_eqb kClipStack_ClipType (fClipType this)
       then clipStack_isWideOpen this
       else Ok false.

(** *** The class invariant

    [consistent]: the tag selects the member of the union that was written,
    and only a stack clip has a non-zero origin.  [invariant] adds what the
    mutators maintain about the pointer: it is non-NULL exactly in a stack
    clip ([reset] clears it, [setClipStack] and [operator=] store a pointer
    they have dereferenced). *)
Definition consistent (c : t) : bool :=
  match fClipType c with
  | kWideOpen_ClipType => SkIPoint_eq (fOrigin c) SkIPoint_zero
  | kIRect_ClipType =>
      match fClip c with
      | Clip_fIRect _ => SkIPoint_eq (fOrigin c) SkIPoint_zero
      | _ => false
      end
  | kClipStack_ClipType =>
      match fClip c with
      | Clip_fStack _ => true
      | _ => false
      end
  end.

Definition invariant (c : t) : bool :=
  consistent c &&
  match fClipType c, fClip c with
  | kClipStack_ClipType, Clip_fStack (Some _) => true
  | kClipStack_ClipType, _ => false
  | _, Clip_fStack (Some _) => false
  | _, _ => true
  end.

(** The unref that giving up the current contents costs. *)
Definition released (c : t) : list Event :=
  match fClipType c, fClip c with
  | kClipStack_ClipType, Clip_fStack (Some a) => [EvUnref (OClipStack a)]
  | _, _ => []
  end.

(** The ref that sharing the contents of [c] costs. *)
Definition acquired (c : t) : list Event :=
  match fClipType c, fClip c with
  | kClipStack_ClipType, Clip_fStack (Some a) => [EvRef (OClipStack a)]
  | _, _ => []
  end.

(** *** The clip as the specification describes it

    A closed three-variant value, with structural equality: "variant tags
    must match; WideOpen pairs are always equal; Rect pairs equal iff bounds
    equal; Stack pairs equal iff origins equal and (both regions null, or
    both non-null and contents compare equal)". *)
Inductive Variant :=
| WideOpen
| Rect (bounds : SkIRect)
| Stack (region : option Addr) (origin : SkIPoint).

Definition variant (c : t) : option Variant :=
  match fClipType c, fClip c with
  | kWideOpen_ClipType, _ => Some WideOpen
  | kIRect_ClipType, Clip_fIRect r => Some (Rect r)
  | kClipStack_ClipType, Clip_fStack s => Some (Stack s (fOrigin c))
  | _, _ => None
  end.

Definition Variant_eq (v w : Variant) : bool :=
  match v, w with
  | WideOpen, WideOpen => true
  | Rect a, Rect b => SkIRect_eq a b
  | Stack s o, Stack s' o' =>
      SkIPoint_eq o o' &&
      match s, s' with
      | Some a, Some b => SkClipStack_equal a b
      | None, None => true
      | _, _ => false
      end
  | _, _ => false
  end.

(** "the variant is Stack and the held region reports wide-open" *)
Definition stackReportsWideOpen (c : t) : Prop :=
  clipType c = kClipStack_ClipType /\
  exists s, clipStack c = Ok (Some s) /\ SkClipStack_isWideOpen s = true.

(** "the variant is Rect and the stored rectangle contains the candidate" *)
Definition rectContains {R} (contains : SkIRect -> R -> bool) (c : t) (r : R)
    : Prop :=
  clipType c = kIRect_ClipType /\
  exists bounds, irect c = Ok bounds /\ contains bounds r = true.

End Operations.

(** *** A small world of clip stacks, for worked examples

    The stack at address [a] has [a / 2] elements, so the addresses 2k and
    2k+1 hold equal stacks, and a stack without elements is wide open.
    Scalar rectangles are taken with integer corners; a rectangle contains
    another when neither is empty and the sides enclose it. *)
Definition SkIRect_isEmpty (r : SkIRect) : bool :=
  (fRight r <=? fLeft r) || (fBottom r <=? fTop r).

Definition SkIRect_contains (r c : SkIRect) : bool :=
  negb (SkIRect_isEmpty c) && negb (SkIRect_isEmpty r) &&
  (fLeft r <=? fLeft c) && (fTop r <=? fTop c) &&
  (fRight c <=? fRight r) && (fBottom c <=? fBottom r).

Definition exampleEnv : Env :=
  {| SkClipStack_isWideOpen a := N.eqb (a / 2) 0;
     SkClipStack_equal a b := N.eqb (a / 2) (b / 2);
     SkRect := SkIRect;
     SkIRect_contains_SkRect := SkIRect_contains;
     SkIRect_contains_SkIRect := SkIRect_contains |}.

Definition exampleRect (l t r b : Z) : SkIRect :=
  {| fLeft := l; fTop := t; fRight := r; fBottom := b |}.

(** A stack clip on the stack at address [a], translated by (x, y). *)
Definition exampleStack (a : Addr) (x y : Z) : t :=
  {| fClip := Clip_fStack (Some a); fOrigin := {| fX := x; fY := y |};
     fClipType := kClipStack_ClipType |}.

(** *** The destructor, assignment through pointers, sequences of mutations *)

Section Mutations.
Context `{Env}.

(** ~GrClip() { this->reset(); } *)
Definition dtor (this : t) : M t := reset this.

(** The statements of operator= after [this->reset()]. *)
Definition assign_after_reset (other : t) (this : t) : M t :=
  let this := set_fClipType (fClipType other) this in
  match fClipType other with
  | kWideOpen_ClipType =>
      mret (set_fOrigin SkIPoint_zero this)
  | kClipStack_ClipType =>
      s ← lift (clipStack other);
      s ← SkRef OClipStack s;
      let this := set_fClip (Clip_fStack s) this in
      o ← lift (origin other);
      mret (set_fOrigin o this)
  | kIRect_ClipType =>
      r ← lift (irect other);
      let this := set_fClip (Clip_fIRect r) this in
      mret (set_fOrigin SkIPoint_zero this)
  end.

(** [*pthis = *pother] on clips that live in a store.  [other] is a
    reference: it is read after [this->reset()] has taken effect, so when
    the two pointers are equal the reads see the reset clip. *)
Definition operator_assign_at (pthis pother : Addr) (clips : gmap N t)
    : M (gmap N t) :=
  match clips !! pthis with
  | None => fault
  | Some this =>
      this ← reset this;
      let clips := <[pthis := this]> clips in
      match clips !! pother with
      | None => fault
      | Some other =>
          this ← assign_after_reset other this;
          mret (<[pthis := this]> clips)
      end
  end.

(** The mutators of a clip, as a client may call them in any order. *)
Inductive Mutation :=
| MSetClipStack (clipStack : Addr) (origin : option SkIPoint)
| MAssign (other : t)
| MReset.

Definition mutate (m : Mutation) (this : t) : M t :=
  match m with
  | MSetClipStack s o => setClipStack (Some s) o this
  | MAssign other => operator_assign other this
  | MReset => reset this
  end.

Fixpoint mutateAll (ms : list Mutation) (this : t) : M t :=
  match ms with
  | [] => mret this
  | m :: ms => this ← mutate m this; mutateAll ms this
  end.

(** The clips a sequence of mutations assigns from. *)
Definition assignedFrom (ms : list Mutation) : list t :=
  flat_map (fun m => match m with MAssign other => [other] | _ => [] end) ms.

(** References on the stack at [a]: what an event adds, what a trace adds
    up to, and how many the clip [c] holds (one or none). *)
Definition refDelta (a : Addr) (e : Event) : Z :=
  match e with
  | EvRef (OClipStack b) => if N.eqb a b then 1 else 0
  | EvUnref (OClipStack b) => if N.eqb a b then -1 else 0
  | _ => 0
  end.

Definition refBalance (a : Addr) (tr : list Event) : Z :=
  fold_right (fun e acc => refDelta a e + acc) 0 tr.

Definition holds (c : t) (a : Addr) : Z :=
  match fClipType c, fClip c with
  | kClipStack_ClipType, Clip_fStack (Some b) => if N.eqb a b then 1 else 0
  | _, _ => 0
  end.

(** No stack clip over a region that reports wide open. *)
Definition collapsed (c : t) : bool :=
  match fClipType c, fClip c with
  | kClipStack_ClipType, Clip_fStack (Some a) => negb (SkClipStack_isWideOpen a)
  | _, _ => true
  end.

End Mutations.

End GrClip.

(** * GrPipelineBuilder (src/gpu/GrPipelineBuilder.h) *)

Module GrPipelineBuilder.

Abbreviation GrColor := Z (only parsing).

(** Value types, analyses and containers the builder composes without
    looking inside them.  [initialOutput] is the descriptor an
    invariant-output walk starts from for a given seed colour, [stageOutput]
    the declared transform of one processor, [primProcSeed] / [batchSeed]
    the seed a primitive processor or a batch supplies.  The chains are SkTArrays (include/core/SkTArray.h):
    how many slots such an array allocates when it makes room is its own
    policy, [SkTArray_checkRealloc]. *)
Class Env := {
  GrStencilSettings : Type;
  GrStencilSettings_ctor : GrStencilSettings;
  GrStencilSettings_setDisabled : GrStencilSettings -> GrStencilSettings;
  GrProcOptInfo : Type;
  GrProcOptInfo_ctor : GrProcOptInfo;
  initialOutput : GrColor -> GrProcOptInfo;
  stageOutput : GrFragmentProcessor -> GrProcOptInfo -> GrProcOptInfo;
  primProcSeed : option Addr -> GrColor;
  batchSeed : option Addr -> GrColor;
  (* SkTArray::checkRealloc: the number of slots the array goes on with,
     from the number it has and the number of items it is about to hold *)
  SkTArray_checkRealloc : Z -> Z -> Z
}.

(** enum StateBits *)
Definition kDither_StateBit : Z := 0x01.
Definition kHWAntialias_StateBit : Z := 0x02.
Definition kLast_StateBit : Z := kHWAntialias_StateBit.

(** enum DrawFace *)
Inductive DrawFace :=
| kInvalid_DrawFace
| kBoth_DrawFace
| kCCW_DrawFace
| kCW_DrawFace.

Definition DrawFace_value (f : DrawFace) : Z :=
  match f with
  | kInvalid_DrawFace => -1
  | kBoth_DrawFace => 0
  | kCCW_DrawFace => 1
  | kCW_DrawFace => 2
  end.

(** ~x on a uint32_t *)
Definition not32 (x : Z) : Z := Z.lnot x mod 2 ^ 32.

(** GrFragmentStage (declared in GrFragmentStage.h): the processor it wraps. *)
Record GrFragmentStage := { fProc : GrFragmentProcessor }.

(** Modelled from the spec: the constructor of GrFragmentStage is outside
    src/; a stage shares ownership of the wrapped processor, so building one
    takes a reference and dropping one gives it back. *)
Definition GrFragmentStage_ctor (effect : GrFragmentProcessor)
    : M GrFragmentStage :=
  emit (EvRef (OProcessor effect));;
  mret {| fProc := effect |}.

Definition GrFragmentStage_dtor (st : GrFragmentStage) : M unit :=
  emit (EvUnref (OProcessor (fProc st))).


Definition stageUnrefs (stages : list GrFragmentStage) : list Event :=
  map (fun st => EvUnref (OProcessor (fProc st))) stages.

(** What an SkTArray does with the items it holds when it changes its
    allocation: each in turn is copy-constructed in the new block and
    destroyed in the old one.  For a stage that is one more reference on its
    processor, then one fewer. *)
Definition copyAndDelete (stages : list GrFragmentStage) : M unit :=
  foldr (fun st k => _ ← GrFragmentStage_ctor (fProc st);
                     GrFragmentStage_dtor st;; k)
        (mret tt) stages.

Definition moveEvents (stages : list GrFragmentStage) : list Event :=
  flat_map (fun st => [EvRef (OProcessor (fProc st));
                       EvUnref (OProcessor (fProc st))]) stages.

(** Two processors are the same object. *)
Definition GrFragmentProcessor_eqb (p q : GrFragmentProcessor) : bool :=
  match p, q with
  | GrSimpleTextureEffect_Create t m s, GrSimpleTextureEffect_Create t' m' s' =>
      GrClip.ptr_eqb t t' && N.eqb m m' && GrClip.ptr_eqb s s'
  | ExternalProcessor a, ExternalProcessor b => N.eqb a b
  | _, _ => false
  end.

Section Builder.
Context `{Env}.

Record t := {
  fBlockEffectRemovalCnt : Z;               (* SkDEBUGCODE *)
  fRenderTarget : option Addr;              (* SkAutoTUnref<GrRenderTarget> *)
  fFlagBits : Z;                            (* uint32_t *)
  fStencilSettings : GrStencilSettings;
  fDrawFace : DrawFace;
  fXPFactory : option GrXPFactory;          (* mutable SkAutoTUnref *)
  fColorStages : list GrFragmentStage;
  fCoverageStages : list GrFragmentStage;
  fClip : GrClip.t;
  fColorProcInfo : GrProcOptInfo;           (* mutable *)
  fCoverageProcInfo : GrProcOptInfo;        (* mutable *)
  fColorProcInfoValid : bool;               (* mutable *)
  fCoverageProcInfoValid : bool;            (* mutable *)
  fColorCache : GrColor;                    (* mutable *)
  fCoverageCache : GrColor;                 (* mutable *)
  fColorStages_fAllocCount : Z;             (* slots of fColorStages *)
  fCoverageStages_fAllocCount : Z           (* slots of fCoverageStages *)
}.

Definition set_fBlockEffectRemovalCnt (v : Z) (b : t) : t :=
  {| fBlockEffectRemovalCnt := v; fRenderTarget := fRenderTarget b;
     fFlagBits := fFlagBits b; fStencilSettings := fStencilSettings b;
     fDrawFace := fDrawFace b; fXPFactory := fXPFactory b;
     fColorStages := fColorStages b; fCoverageStages := fCoverageStages b;
     fClip := fClip b; fColorProcInfo := fColorProcInfo b;
     fCoverageProcInfo := fCoverageProcInfo b;
     fColorProcInfoValid := fColorProcInfoValid b;
     fCoverageProcInfoValid := fCoverageProcInfoValid b;
     fColorCache := fColorCache b; fCoverageCache := fCoverageCache b;
     fColorStages_fAllocCount := fColorStages_fAllocCount b;
     fCoverageStages_fAllocCount := fCoverageStages_fAllocCount b |}.
Definition set_fRenderTarget (v : option Addr) (b : t) : t :=
  {| fBlockEffectRemovalCnt := fBlockEffectRemovalCnt b; fRenderTarget := v;
     fFlagBits := fFlagBits b; fStencilSettings := fStencilSettings b;
     fDrawFace := fDrawFace b; fXPFactory := fXPFactory b;
     fColorStages := fColorStages b; fCoverageStages := fCoverageStages b;
     fClip := fClip b; fColorProcInfo := fColorProcInfo b;
     fCoverageProcInfo := fCoverageProcInfo b;
     fColorProcInfoValid := fColorProcInfoValid b;
     fCoverageProcInfoValid := fCoverageProcInfoValid b;
     fColorCache := fColorCache b; fCoverageCache := fCoverageCache b;
     fColorStages_fAllocCount := fColorStages_fAllocCount b;
     fCoverageStages_fAllocCount := fCoverageStages_fAllocCount b |}.
Definition set_fFlagBits (v : Z) (b : t) : t :=
  {| fBlockEffectRemovalCnt := fBlockEffectRemovalCnt b;
     fRenderTarget := fRenderTarget b;
     fFlagBits := v; fStencilSettings := fStencilSettings b;
     fDrawFace := fDrawFace b; fXPFactory := fXPFactory b;
     fColorStages := fColorStages b; fCoverageStages := fCoverageStages b;
     fClip := fClip b; fColorProcInfo := fColorProcInfo b;
     fCoverageProcInfo := fCoverageProcInfo b;
     fColorProcInfoValid := fColorProcInfoValid b;
     fCoverageProcInfoValid := fCoverageProcInfoValid b;
     fColorCache := fColorCache b; fCoverageCache := fCoverageCache b;
     fColorStages_fAllocCount := fColorStages_fAllocCount b;
     fCoverageStages_fAllocCount := fCoverageStages_fAllocCount b |}.
Definition set_fStencilSettings (v : GrStencilSettings) (b : t) : t :=
  {| fBlockEffectRemovalCnt := fBlockEffectRemovalCnt b;
     fRenderTarget := fRenderTarget b;
     fFlagBits := fFlagBits b; fStencilSettings := v;
     fDrawFace := fDrawFace b; fXPFactory := fXPFactory b;
     fColorStages := fColorStages b; fCoverageStages := fCoverageStages b;
     fClip := fClip b; fColorProcInfo := fColorProcInfo b;
     fCoverageProcInfo := fCoverageProcInfo b;
     fColorProcInfoValid := fColorProcInfoValid b;
     fCoverageProcInfoValid := fCoverageProcInfoValid b;
     fColorCache := fColorCache b; fCoverageCache := fCoverageCache b;
     fColorStages_fAllocCount := fColorStages_fAllocCount b;
     fCoverageStages_fAllocCount := fCoverageStages_fAllocCount b |}.
Definition set_fDrawFace (v : DrawFace) (b : t) : t :=
  {| fBlockEffectRemovalCnt := fBlockEffectRemovalCnt b;
     fRenderTarget := fRenderTarget b;
     fFlagBits := fFlagBits b; fStencilSettings := fStencilSettings b;
     fDrawFace := v; fXPFactory := fXPFactory b;
     fColorStages := fColorStages b; fCoverageStages := fCoverageStages b;
     fClip := fClip b; fColorProcInfo := fColorProcInfo b;
     fCoverageProcInfo := fCoverageProcInfo b;
     fColorProcInfoValid := fColorProcInfoValid b;
     fCoverageProcInfoValid := fCoverageProcInfoValid b;
     fColorCache := fColorCache b; fCoverageCache := fCoverageCache b;
     fColorStages_fAllocCount := fColorStages_fAllocCount b;
     fCoverageStages_fAllocCount := fCoverageStages_fAllocCount b |}.
Definition set_fXPFactory (v : option GrXPFactory) (b : t) : t :=
  {| fBlockEffectRemovalCnt := fBlockEffectRemovalCnt b;
     fRenderTarget := fRenderTarget b;
     fFlagBits := fFlagBits b; fStencilSettings := fStencilSettings b;
     fDrawFace := fDrawFace b; fXPFactory := v;
     fColorStages := fColorStages b; fCoverageStages := fCoverageStages b;
     fClip := fClip b; fColorProcInfo := fColorProcInfo b;
     fCoverageProcInfo := fCoverageProcInfo b;
     fColorProcInfoValid := fColorProcInfoValid b;
     fCoverageProcInfoValid := fCoverageProcInfoValid b;
     fColorCache := fColorCache b; fCoverageCache := fCoverageCache b;
     fColorStages_fAllocCount := fColorStages_fAllocCount b;
     fCoverageStages_fAllocCount := fCoverageStages_fAllocCount b |}.
Definition set_fColorStages (v : list GrFragmentStage) (b : t) : t :=
  {| fBlockEffectRemovalCnt := fBlockEffectRemovalCnt b;
     fRenderTarget := fRenderTarget b;
     fFlagBits := fFlagBits b; fStencilSettings := fStencilSettings b;
     fDrawFace := fDrawFace b; fXPFactory := fXPFactory b;
     fColorStages := v; fCoverageStages := fCoverageStages b;
     fClip := fClip b; fColorProcInfo := fColorProcInfo b;
     fCoverageProcInfo := fCoverageProcInfo b;
     fColorProcInfoValid := fColorProcInfoValid b;
     fCoverageProcInfoValid := fCoverageProcInfoValid b;
     fColorCache := fColorCache b; fCoverageCache := fCoverageCache b;
     fColorStages_fAllocCount := fColorStages_fAllocCount b;
     fCoverageStages_fAllocCount := fCoverageStages_fAllocCount b |}.
Definition set_fCoverageStages (v : list GrFragmentStage) (b : t) : t :=
  {| fBlockEffectRemovalCnt := fBlockEffectRemovalCnt b;
     fRenderTarget := fRenderTarget b;
     fFlagBits := fFlagBits b; fStencilSettings := fStencilSettings b;
     fDrawFace := fDrawFace b; fXPFactory := fXPFactory b;
     fColorStages := fColorStages b; fCoverageStages := v;
     fClip := fClip b; fColorProcInfo := fColorProcInfo b;
     fCoverageProcInfo := fCoverageProcInfo b;
     fColorProcInfoValid := fColorProcInfoValid b;
     fCoverageProcInfoValid := fCoverageProcInfoValid b;
     fColorCache := fColorCache b; fCoverageCache := fCoverageCache b;
     fColorStages_fAllocCount := fColorStages_fAllocCount b;
     fCoverageStages_fAllocCount := fCoverageStages_fAllocCount b |}.
Definition set_fClip (v : GrClip.t) (b : t) : t :=
  {| fBlockEffectRemovalCnt := fBlockEffectRemovalCnt b;
     fRenderTarget := fRenderTarget b;
     fFlagBits := fFlagBits b; fStencilSettings := fStencilSettings b;
     fDrawFace := fDrawFace b; fXPFactory := fXPFactory b;
     fColorStages := fColorStages b; fCoverageStages := fCoverageStages b;
     fClip := v; fColorProcInfo := fColorProcInfo b;
     fCoverageProcInfo := fCoverageProcInfo b;
     fColorProcInfoValid := fColorProcInfoValid b;
     fCoverageProcInfoValid := fCoverageProcInfoValid b;
     fColorCache := fColorCache b; fCoverageCache := fCoverageCache b;
     fColorStages_fAllocCount := fColorStages_fAllocCount b;
     fCoverageStages_fAllocCount := fCoverageStages_fAllocCount b |}.
(** the three members of the colour slot, and of the coverage slot *)
Definition set_colorSlot (valid : bool) (seed : GrColor) (info : GrProcOptInfo)
    (b : t) : t :=
  {| fBlockEffectRemovalCnt := fBlockEffectRemovalCnt b;
     fRenderTarget := fRenderTarget b;
     fFlagBits := fFlagBits b; fStencilSettings := fStencilSettings b;
     fDrawFace := fDrawFace b; fXPFactory := fXPFactory b;
     fColorStages := fColorStages b; fCoverageStages := fCoverageStages b;
     fClip := fClip b; fColorProcInfo := info;
     fCoverageProcInfo := fCoverageProcInfo b;
     fColorProcInfoValid := valid;
     fCoverageProcInfoValid := fCoverageProcInfoValid b;
     fColorCache := seed; fCoverageCache := fCoverageCache b;
     fColorStages_fAllocCount := fColorStages_fAllocCount b;
     fCoverageStages_fAllocCount := fCoverageStages_fAllocCount b |}.
Definition set_coverageSlot (valid : bool) (seed : GrColor)
    (info : GrProcOptInfo) (b : t) : t :=
  {| fBlockEffectRemovalCnt := fBlockEffectRemovalCnt b;
     fRenderTarget := fRenderTarget b;
     fFlagBits := fFlagBits b; fStencilSettings := fStencilSettings b;
     fDrawFace := fDrawFace b; fXPFactory := fXPFactory b;
     fColorStages := fColorStages b; fCoverageStages := fCoverageStages b;
     fClip := fClip b; fColorProcInfo := fColorProcInfo b;
     fCoverageProcInfo := info;
     fColorProcInfoValid := fColorProcInfoValid b;
     fCoverageProcInfoValid := valid;
     fColorCache := fColorCache b; fCoverageCache := seed;
     fColorStages_fAllocCount := fColorStages_fAllocCount b;
     fCoverageStages_fAllocCount := fCoverageStages_fAllocCount b |}.
Definition set_fColorProcInfoValid (v : bool) (b : t) : t :=
  set_colorSlot v (fColorCache b) (fColorProcInfo b) b.
Definition set_fCoverageProcInfoValid (v : bool) (b : t) : t :=
  set_coverageSlot v (fCoverageCache b) (fCoverageProcInfo b) b.

Definition set_fColorStages_fAllocCount (v : Z) (b : t) : t :=
  {| fBlockEffectRemovalCnt := fBlockEffectRemovalCnt b;
     fRenderTarget := fRenderTarget b;
     fFlagBits := fFlagBits b; fStencilSettings := fStencilSettings b;
     fDrawFace := fDrawFace b; fXPFactory := fXPFactory b;
     fColorStages := fColorStages b; fCoverageStages := fCoverageStages b;
     fClip := fClip b; fColorProcInfo := fColorProcInfo b;
     fCoverageProcInfo := fCoverageProcInfo b;
     fColorProcInfoValid := fColorProcInfoValid b;
     fCoverageProcInfoValid := fCoverageProcInfoValid b;
     fColorCache := fColorCache b; fCoverageCache := fCoverageCache b;
     fColorStages_fAllocCount := v;
     fCoverageStages_fAllocCount := fCoverageStages_fAllocCount b |}.
Definition set_fCoverageStages_fAllocCount (v : Z) (b : t) : t :=
  {| fBlockEffectRemovalCnt := fBlockEffectRemovalCnt b;
     fRenderTarget := fRenderTarget b;
     fFlagBits := fFlagBits b; fStencilSettings := fStencilSettings b;
     fDrawFace := fDrawFace b; fXPFactory := fXPFactory b;
     fColorStages := fColorStages b; fCoverageStages := fCoverageStages b;
     fClip := fClip b; fColorProcInfo := fColorProcInfo b;
     fCoverageProcInfo := fCoverageProcInfo b;
     fColorProcInfoValid := fColorProcInfoValid b;
     fCoverageProcInfoValid := fCoverageProcInfoValid b;
     fColorCache := fColorCache b; fCoverageCache := fCoverageCache b;
     fColorStages_fAllocCount := fColorStages_fAllocCount b;
     fCoverageStages_fAllocCount := v |}.

(** Modelled from the spec: the default constructor is defined in
    GrPipelineBuilder.cpp, outside src/.  "Constructed with documented
    defaults (no stages, stencil disabled, draw-face = both, flags clear,
    clip = wide-open)"; the smart pointers start out NULL and nothing has
    been analysed yet, so both cache slots are invalid.  The chains are
    declared as SkSTArray<4, GrFragmentStage> (line 430): each starts out
    with room for four stages. *)
Definition GrPipelineBuilder : t :=
  {| fBlockEffectRemovalCnt := 0;
     fRenderTarget := None;
     fFlagBits := 0;
     fStencilSettings := GrStencilSettings_setDisabled GrStencilSettings_ctor;
     fDrawFace := kBoth_DrawFace;
     fXPFactory := None;
     fColorStages := [];
     fCoverageStages := [];
     fClip := GrClip.GrClip;
     fColorProcInfo := GrProcOptInfo_ctor;
     fCoverageProcInfo := GrProcOptInfo_ctor;
     fColorProcInfoValid := false;
     fCoverageProcInfoValid := false;
     fColorCache := 0;
     fCoverageCache := 0;
     fColorStages_fAllocCount := 4;
     fCoverageStages_fAllocCount := 4 |}.

Definition numColorStages (this : t) : Z :=
  Z.of_nat (length (fColorStages this)).
Definition numCoverageStages (this : t) : Z :=
  Z.of_nat (length (fCoverageStages this)).
Definition numFragmentStages (this : t) : Z :=
  numColorStages this + numCoverageStages this.

(** Modelled from the spec: the factories' static Create functions are
    defined under effects/, outside src/.  A call hands back a factory
    object (never NULL: the default "materializes" on first read); the trace
    records that the call was made. *)
Definition XPFactory_Create (f : GrXPFactory) : M (option GrXPFactory) :=
  emit (EvCreate (OXPFactory f));;
  mret (Some f).

(** fXPFactory.reset(obj): SkSafeUnref(fObj); fObj = obj. *)
Definition fXPFactory_reset (obj : option GrXPFactory) (this : t) : M t :=
  SkSafeUnref OXPFactory (fXPFactory this);;
  mret (set_fXPFactory obj this).

(** fRenderTarget.reset(obj) *)
Definition fRenderTarget_reset (obj : option Addr) (this : t) : M t :=
  SkSafeUnref ORenderTarget (fRenderTarget this);;
  mret (set_fRenderTarget obj this).

(** const GrXPFactory* getXPFactory() const *)
Definition getXPFactory (this : t) : M (option GrXPFactory * t) :=
  this ← (if negb (SkToBool (fXPFactory this)) then
            f ← XPFactory_Create (GrPorterDuffXPFactory_Create kSrc_Mode);
            fXPFactory_reset f this
          else mret this);
  mret (fXPFactory this, this).

Definition getColorStage (idx : Z) (this : t) : Res GrFragmentStage :=
  SkASSERT ((0 <=? idx) && (idx <? numColorStages this));;
  match fColorStages this !! Z.to_nat idx with
  | Some st => Ok st
  | None => Fault
  end.

Definition getCoverageStage (idx : Z) (this : t) : Res GrFragmentStage :=
  SkASSERT ((0 <=? idx) && (idx <? numCoverageStages this));;
  match fCoverageStages this !! Z.to_nat idx with
  | Some st => Ok st
  | None => Fault
  end.

(** const GrXPFactory* setXPFactory(const GrXPFactory* xpFactory) *)
Definition setXPFactory (xpFactory : option GrXPFactory) (this : t)
    : M (option GrXPFactory * t) :=
  f ← SkRef OXPFactory xpFactory;
  this ← fXPFactory_reset f this;
  mret (xpFactory, this).

Definition setCoverageSetOpXPFactory (regionOp : SkRegion_Op)
    (invertCoverage : bool) (this : t) : M t :=
  f ← XPFactory_Create (GrCoverageSetOpXPFactory_Create regionOp invertCoverage);
  fXPFactory_reset f this.

Definition setDisableColorXPFactory (this : t) : M t :=
  f ← XPFactory_Create GrDisableColorXPFactory_Create;
  fXPFactory_reset f this.

(** An append to a chain of [count] stages in [alloc] slots moves the
    stages to another block iff the array changes its allocation to make
    room for one more. *)
Definition reallocates (alloc count : Z) : bool :=
  negb (SkTArray_checkRealloc alloc (count + 1) =? alloc).

(** What an append leaves on the trace before the new stage takes its
    reference: the move of the stages held, if there is one. *)
Definition appendMoves (alloc : Z) (stages : list GrFragmentStage)
    : list Event :=
  if reallocates alloc (Z.of_nat (length stages)) then moveEvents stages
  else [].

(** push_back_raw(1), the first half of SkNEW_APPEND_TO_TARRAY: make room
    for one more item, moving the ones held if the allocation changes; the
    new allocation is returned. *)
Definition push_back_raw (alloc : Z) (stages : list GrFragmentStage) : M Z :=
  (if reallocates alloc (Z.of_nat (length stages))
   then copyAndDelete stages else mret tt);;
  mret (SkTArray_checkRealloc alloc (Z.of_nat (length stages) + 1)).

(** const GrFragmentProcessor* addColorProcessor(const GrFragmentProcessor* effect) *)
Definition addColorProcessor (effect : option GrFragmentProcessor) (this : t)
    : M (option GrFragmentProcessor * t) :=
  lift (SkASSERT (SkToBool effect));;
  match effect with
  | None => fault
  | Some e =>
      alloc ← push_back_raw (fColorStages_fAllocCount this) (fColorStages this);
      let this := set_fColorStages_fAllocCount alloc this in
      st ← GrFragmentStage_ctor e;
      let this := set_fColorStages (fColorStages this ++ [st]) this in
      let this := set_fColorProcInfoValid false this in
      mret (effect, this)
  end.

Definition addCoverageProcessor (effect : option GrFragmentProcessor)
    (this : t) : M (option GrFragmentProcessor * t) :=
  lift (SkASSERT (SkToBool effect));;
  match effect with
  | None => fault
  | Some e =>
      alloc ← push_back_raw (fCoverageStages_fAllocCount this)
                            (fCoverageStages this);
      let this := set_fCoverageStages_fAllocCount alloc this in
      st ← GrFragmentStage_ctor e;
      let this := set_fCoverageStages (fCoverageStages this ++ [st]) this in
      let this := set_fCoverageProcInfoValid false this in
      mret (effect, this)
  end.

(** GrSimpleTextureEffect::Create(texture, matrix [, params]), defined
    under effects/, outside src/: a new-expression, so the effect it hands
    back is not NULL; the trace records the call. *)
Definition SimpleTextureEffect_Create (texture : option Addr) (matrix : N)
    (params : option N) : M (option GrFragmentProcessor) :=
  let e := GrSimpleTextureEffect_Create texture matrix params in
  emit (EvCreate (OProcessor e));;
  mret (Some e).

(** void addColorTextureProcessor(texture, matrix) and
    void addColorTextureProcessor(texture, matrix, params):
    [params] is [None] for the first overload. *)
Definition addColorTextureProcessor (texture : option Addr) (matrix : N)
    (params : option N) (this : t) : M t :=
  e ← SimpleTextureEffect_Create texture matrix params;
  '(r, this) ← addColorProcessor e this;
  match r with
  | Some e => emit (EvUnref (OProcessor e));; mret this
  | None => fault
  end.

Definition addCoverageTextureProcessor (texture : option Addr) (matrix : N)
    (params : option N) (this : t) : M t :=
  e ← SimpleTextureEffect_Create texture matrix params;
  '(r, this) ← addCoverageProcessor e this;
  match r with
  | Some e => emit (EvUnref (OProcessor e));; mret this
  | None => fault
  end.

(** *** Render target, stencil, state flags, face culling *)

Definition getRenderTarget (this : t) : option Addr := fRenderTarget this.

Definition setRenderTarget (target : option Addr) (this : t) : M t :=
  p ← SkSafeRef ORenderTarget target;
  fRenderTarget_reset p this.

Definition getStencil (this : t) : GrStencilSettings := fStencilSettings this.

Definition setStencil (settings : GrStencilSettings) (this : t) : t :=
  set_fStencilSettings settings this.

Definition disableStencil (this : t) : t :=
  set_fStencilSettings (GrStencilSettings_setDisabled (fStencilSettings this))
                       this.

Definition isDither (this : t) : bool :=
  negb (0 =? Z.land (fFlagBits this) kDither_StateBit).
Definition isHWAntialias (this : t) : bool :=
  negb (0 =? Z.land (fFlagBits this) kHWAntialias_StateBit).

(** void enableState(uint32_t stateBits) { fFlagBits |= stateBits; } *)
Definition enableState (stateBits : Z) (this : t) : t :=
  set_fFlagBits (Z.lor (fFlagBits this) stateBits) this.

(** void disableState(uint32_t stateBits) { fFlagBits &= ~(stateBits); } *)
Definition disableState (stateBits : Z) (this : t) : t :=
  set_fFlagBits (Z.land (fFlagBits this) (not32 stateBits)) this.

Definition setState (stateBits : Z) (enable : bool) (this : t) : t :=
  if enable then enableState stateBits this
  else disableState stateBits this.

Definition getDrawFace (this : t) : DrawFace := fDrawFace this.

Definition setDrawFace (face : DrawFace) (this : t) : Res t :=
  SkASSERT (negb (DrawFace_value kInvalid_DrawFace =? DrawFace_value face));;
  Ok (set_fDrawFace face this).

(** void setClip(const GrClip& clip) { fClip = clip; } *)
Definition setClip (clip : GrClip.t) (this : t) : M t :=
  c ← GrClip.operator_assign clip (fClip this);
  mret (set_fClip c this).

Definition clip (this : t) : GrClip.t := fClip this.

(** *** The invariant-analysis cache *)

(** The walk over a chain, front to back, from the descriptor of the seed. *)
Definition invariantOutput (stages : list GrFragmentStage) (seed : GrColor)
    : GrProcOptInfo :=
  fold_left (fun info st => stageOutput (fProc st) info) stages
            (initialOutput seed).

(** Modelled from the spec: the calc functions are defined in
    GrPipelineBuilder.cpp, outside src/.  "If the corresponding cache slot is
    valid and its stored seed equals seed, return the cached result unchanged
    (no recomputation).  Otherwise, walk the stage chain in chain order ...
    Store the final descriptor, mark the slot valid, remember the seed
    used." *)
Definition calcColorInvariantOutput (seed : GrColor) (this : t) : t :=
  if fColorProcInfoValid this && (fColorCache this =? seed) then this
  else set_colorSlot true seed (invariantOutput (fColorStages this) seed) this.

Definition calcCoverageInvariantOutput (seed : GrColor) (this : t) : t :=
  if fCoverageProcInfoValid this && (fCoverageCache this =? seed) then this
  else set_coverageSlot true seed
         (invariantOutput (fCoverageStages this) seed) this.

(** Modelled from the spec: the overloads taking a primitive processor or a
    batch are "seeded by an opaque batch/primitive-processor descriptor". *)
Definition calcColorInvariantOutput_pp (pp : option Addr) (this : t) : t :=
  calcColorInvariantOutput (primProcSeed pp) this.
Definition calcCoverageInvariantOutput_pp (pp : option Addr) (this : t) : t :=
  calcCoverageInvariantOutput (primProcSeed pp) this.
Definition calcColorInvariantOutput_batch (batch : option Addr) (this : t) : t :=
  calcColorInvariantOutput (batchSeed batch) this.
Definition calcCoverageInvariantOutput_batch (batch : option Addr) (this : t)
    : t :=
  calcCoverageInvariantOutput (batchSeed batch) this.

(** const GrProcOptInfo& colorProcInfo(const GrPrimitiveProcessor* pp) const *)
Definition colorProcInfo (pp : option Addr) (this : t) : GrProcOptInfo * t :=
  let this := calcColorInvariantOutput_pp pp this in
  (fColorProcInfo this, this).

Definition coverageProcInfo (pp : option Addr) (this : t)
    : GrProcOptInfo * t :=
  let this := calcCoverageInvariantOutput_pp pp this in
  (fCoverageProcInfo this, this).

(** const GrProcOptInfo& colorProcInfo(const GrBatch* batch) const *)
Definition colorProcInfo_batch (batch : option Addr) (this : t)
    : GrProcOptInfo * t :=
  let this := calcColorInvariantOutput_batch batch this in
  (fColorProcInfo this, this).

Definition coverageProcInfo_batch (batch : option Addr) (this : t)
    : GrProcOptInfo * t :=
  let this := calcCoverageInvariantOutput_batch batch this in
  (fCoverageProcInfo this, this).

(** *** Copy *)

Definition release_stages (stages : list GrFragmentStage) : M unit :=
  foldr (fun st k => GrFragmentStage_dtor st;; k) (mret tt) stages.

Definition copy_stages (stages : list GrFragmentStage)
    : M (list GrFragmentStage) :=
  foldr (fun st k => st' ← GrFragmentStage_ctor (fProc st);
                     rest ← k;
                     mret (st' :: rest))
        (mret []) stages.

(** Modelled from the spec: operator= is defined in GrPipelineBuilder.cpp,
    outside src/.  "Release any owned resources first, then value-copy
    stencil/flags/draw-face/clip, value-copy both stage chains, and share
    (ref-count) the render target and transfer-factory references.  Cache
    slots are ... treated as invalidated, not copied."  A chain that has
    released its stages has none to move when it makes room for the other
    chain's. *)
Definition operator_assign (that : t) (this : t) : M t :=
  SkSafeUnref ORenderTarget (fRenderTarget this);;
  SkSafeUnref OXPFactory (fXPFactory this);;
  release_stages (fColorStages this);;
  release_stages (fCoverageStages this);;
  let this := set_fStencilSettings (fStencilSettings that) this in
  let this := set_fFlagBits (fFlagBits that) this in
  let this := set_fDrawFace (fDrawFace that) this in
  c ← GrClip.operator_assign (fClip that) (fClip this);
  let this := set_fClip c this in
  let this := set_fColorStages_fAllocCount
                (SkTArray_checkRealloc (fColorStages_fAllocCount this)
                                       (numColorStages that)) this in
  color ← copy_stages (fColorStages that);
  let this := set_fColorStages color this in
  let this := set_fCoverageStages_fAllocCount
                (SkTArray_checkRealloc (fCoverageStages_fAllocCount this)
                                       (numCoverageStages that)) this in
  coverage ← copy_stages (fCoverageStages that);
  let this := set_fCoverageStages coverage this in
  rt ← SkSafeRef ORenderTarget (fRenderTarget that);
  let this := set_fRenderTarget rt this in
  xp ← SkSafeRef OXPFactory (fXPFactory that);
  let this := set_fXPFactory xp this in
  let this := set_fColorProcInfoValid false this in
  let this := set_fCoverageProcInfoValid false this in
  mret this.


(** *** Sequences of calls

    The calls a client makes between two points of interest, other than the
    setters of the transfer-processor factory, whole-state assignment and the
    guards: stage additions (with a non-NULL processor), state flags, and the
    reads that fill the caches. *)
Inductive Op :=
| OpAddColorProcessor (effect : GrFragmentProcessor)
| OpAddCoverageProcessor (effect : GrFragmentProcessor)
| OpAddColorTextureProcessor (texture : option Addr) (matrix : N)
                             (params : option N)
| OpAddCoverageTextureProcessor (texture : option Addr) (matrix : N)
                                (params : option N)
| OpEnableState (stateBits : Z)
| OpDisableState (stateBits : Z)
| OpColorProcInfo (pp : option Addr)
| OpCoverageProcInfo (pp : option Addr)
| OpColorProcInfo_batch (batch : option Addr)
| OpCoverageProcInfo_batch (batch : option Addr)
| OpGetXPFactory.

Definition step (op : Op) (this : t) : M t :=
  match op with
  | OpAddColorProcessor e =>
      '(_, this) ← addColorProcessor (Some e) this; mret this
  | OpAddCoverageProcessor e =>
      '(_, this) ← addCoverageProcessor (Some e) this; mret this
  | OpAddColorTextureProcessor texture matrix params =>
      addColorTextureProcessor texture matrix params this
  | OpAddCoverageTextureProcessor texture matrix params =>
      addCoverageTextureProcessor texture matrix params this
  | OpEnableState bits => mret (enableState bits this)
  | OpDisableState bits => mret (disableState bits this)
  | OpColorProcInfo pp => mret (snd (colorProcInfo pp this))
  | OpCoverageProcInfo pp => mret (snd (coverageProcInfo pp this))
  | OpColorProcInfo_batch batch => mret (snd (colorProcInfo_batch batch this))
  | OpCoverageProcInfo_batch batch =>
      mret (snd (coverageProcInfo_batch batch this))
  | OpGetXPFactory => '(_, this) ← getXPFactory this; mret this
  end.

Fixpoint run (ops : list Op) (this : t) : M t :=
  match ops with
  | [] => mret this
  | op :: ops => this ← step op this; run ops this
  end.

(** The same calls made through a pointer into a store of builders. *)
Definition runAt (p : Addr) (ops : list Op) (store : gmap N t)
    : M (gmap N t) :=
  match store !! p with
  | None => fault
  | Some b => b ← run ops b; mret (<[p := b]> store)
  end.

(** A valid slot holds the analysis of the chain as it is now, for the seed
    it remembers. *)
Definition cacheCoherent (this : t) : Prop :=
  (fColorProcInfoValid this = true ->
   fColorProcInfo this
   = invariantOutput (fColorStages this) (fColorCache this)) /\
  (fCoverageProcInfoValid this = true ->
   fCoverageProcInfo this
   = invariantOutput (fCoverageStages this) (fCoverageCache this)).

(** Events that bring a transfer-processor factory into being. *)
Definition createsXPFactory (e : Event) : bool :=
  match e with
  | EvCreate (OXPFactory _) => true
  | _ => false
  end.

Definition uint32 (x : Z) : Prop := 0 <= x < 2 ^ 32.



(** *** Chains, render targets and what they own *)

(** What the calls of a sequence append to the colour chain and to the
    coverage chain, in call order. *)
Definition colorStagesOf (op : Op) : list GrFragmentStage :=
  match op with
  | OpAddColorProcessor e => [{| fProc := e |}]
  | OpAddColorTextureProcessor texture matrix params =>
      [{| fProc := GrSimpleTextureEffect_Create texture matrix params |}]
  | _ => []
  end.

Definition coverageStagesOf (op : Op) : list GrFragmentStage :=
  match op with
  | OpAddCoverageProcessor e => [{| fProc := e |}]
  | OpAddCoverageTextureProcessor texture matrix params =>
      [{| fProc := GrSimpleTextureEffect_Create texture matrix params |}]
  | _ => []
  end.

(** What an event adds to the reference count of the processor [p] (an
    object starts its life with one reference), and a trace in total. *)
Definition procDelta (p : GrFragmentProcessor) (e : Event) : Z :=
  match e with
  | EvCreate (OProcessor q) | EvRef (OProcessor q) =>
      if GrFragmentProcessor_eqb p q then 1 else 0
  | EvUnref (OProcessor q) => if GrFragmentProcessor_eqb p q then -1 else 0
  | _ => 0
  end.

Definition procBalance (p : GrFragmentProcessor) (tr : list Event) : Z :=
  fold_right (fun e acc => procDelta p e + acc) 0 tr.

(** The stages of a chain that wrap [p]. *)
Definition stagesOn (p : GrFragmentProcessor) (stages : list GrFragmentStage)
    : Z :=
  fold_right (fun st acc =>
                (if GrFragmentProcessor_eqb p (fProc st) then 1 else 0) + acc)
             0 stages.

(** The same for the render target at [a]. *)
Definition targetDelta (a : Addr) (e : Event) : Z :=
  match e with
  | EvRef (ORenderTarget b) => if N.eqb a b then 1 else 0
  | EvUnref (ORenderTarget b) => if N.eqb a b then -1 else 0
  | _ => 0
  end.

Definition targetBalance (a : Addr) (tr : list Event) : Z :=
  fold_right (fun e acc => targetDelta a e + acc) 0 tr.

Definition holdsTarget (this : t) (a : Addr) : Z :=
  match fRenderTarget this with
  | Some b => if N.eqb a b then 1 else 0
  | None => 0
  end.

(** setRenderTarget called with each of [targets] in turn. *)
Fixpoint setRenderTargets (targets : list (option Addr)) (this : t) : M t :=
  match targets with
  | [] => mret this
  | target :: targets =>
      this ← setRenderTarget target this; setRenderTargets targets this
  end.


End Builder.

(** *** A small analysis, for worked examples

    Stencil settings are reduced to "enabled?".  An invariant output is the
    constant colour a chain is known to produce, if any: a processor made
    elsewhere passes a constant through when it sits at an even address and
    makes the output vary otherwise; a texture effect always makes it vary.
    A primitive processor or batch seeds the walk with its address.  An
    array that is too small, or more than two thirds empty, goes on with
    half as many slots again as it has items, and never fewer than the four
    it starts with. *)
Definition exampleEnv : Env :=
  {| GrStencilSettings := bool;
     GrStencilSettings_ctor := false;
     GrStencilSettings_setDisabled := fun _ => false;
     GrProcOptInfo := option Z;
     GrProcOptInfo_ctor := None;
     initialOutput := fun c => Some c;
     stageOutput := fun p info =>
       match p with
       | ExternalProcessor a => if N.even a then info else None
       | GrSimpleTextureEffect_Create _ _ _ => None
       end;
     primProcSeed := fun pp => match pp with Some a => Z.of_N a | None => 0 end;
     batchSeed := fun b => match b with Some a => Z.of_N a | None => 0 end;
     SkTArray_checkRealloc := fun alloc newCount =>
       if (alloc <? newCount) || (newCount <? alloc / 3)
       then Z.max (newCount + (newCount + 1) / 2) 4
       else alloc |}.

(** A fresh builder after [addColorProcessor] on each of [effects] (at most
    four, which the four slots a chain starts with hold), with no guard
    bound to it, and with one guard bound to it. *)
Definition exampleUnguarded (effects : list GrFragmentProcessor)
    : t (H := exampleEnv) :=
  set_fColorStages (map (fun e => {| fProc := e |}) effects) GrPipelineBuilder.

Definition exampleGuarded (effects : list GrFragmentProcessor)
    : t (H := exampleEnv) :=
  set_fBlockEffectRemovalCnt 1 (exampleUnguarded effects).

(** *** class AutoRestoreEffects

    The guard holds a pointer to a builder that its creator keeps mutating,
    so builders live in a store, addressed by pointer. *)
Module AutoRestoreEffects.
Section Guard.
Context `{Env}.

Record t := {
  fPipelineBuilder : option Addr;
  fColorEffectCnt : Z;
  fCoverageEffectCnt : Z
}.

(** AutoRestoreEffects() *)
Definition AutoRestoreEffects : t :=
  {| fPipelineBuilder := None; fColorEffectCnt := 0; fCoverageEffectCnt := 0 |}.

(** Truncate a chain back to [cnt] stages, destroying the stages beyond it
    (last first).  Finding fewer than [cnt] stages means stages were removed
    while the guard was live: a contract violation.  The chain is an
    SkTArray: once the stages are gone it reconsiders its allocation for the
    stages it keeps, and moves them if the allocation changes.  The kept
    stages and the allocation are returned. *)
Definition truncate (cnt : Z) (alloc : Z) (stages : list GrFragmentStage)
    : M (list GrFragmentStage * Z) :=
  lift (SkASSERT ((0 <=? cnt) && (cnt <=? Z.of_nat (length stages))));;
  release_stages (rev (drop (Z.to_nat cnt) stages));;
  let kept := take (Z.to_nat cnt) stages in
  let alloc' := SkTArray_checkRealloc alloc (Z.of_nat (length kept)) in
  (if alloc' =? alloc then mret tt else copyAndDelete kept);;
  mret (kept, alloc').

(** Put a truncated chain back.  Dropping stages mutates the chain, and
    "any chain-mutating operation ... must invalidate the corresponding cache
    slot's validity flag"; a release that drops nothing leaves the slot
    alone. *)
Definition restoreColorStages (kept : list GrFragmentStage)
    (b : GrPipelineBuilder.t) : GrPipelineBuilder.t :=
  if (length kept =? length (fColorStages b))%nat then b
  else set_fColorProcInfoValid false (set_fColorStages kept b).

Definition restoreCoverageStages (kept : list GrFragmentStage)
    (b : GrPipelineBuilder.t) : GrPipelineBuilder.t :=
  if (length kept =? length (fCoverageStages b))%nat then b
  else set_fCoverageProcInfoValid false (set_fCoverageStages kept b).

(** Modelled from the spec: set is declared in the header and defined in
    GrPipelineBuilder.cpp, outside src/.  The guard "captures (colorCount,
    coverageCount) at acquisition; on release, truncates both chains back to
    those counts, dropping any stages added during the scope's lifetime";
    binding "first releases against the previous one ..., then captures fresh
    state from builder (or, if builder is null, simply releases and becomes
    unbound)".  The debug-only per-builder counter is "incremented on bind
    and decremented on release, fatal if it would go negative".  The shape is
    that of AutoRestoreStencil::set below, which the header defines. *)
Definition release (this : t) (store : gmap N GrPipelineBuilder.t)
    : M (gmap N GrPipelineBuilder.t) :=
  match fPipelineBuilder this with
  | Some p =>
      match store !! p with
      | None => fault
      | Some b =>
          '(color, alloc) ← truncate (fColorEffectCnt this)
                               (fColorStages_fAllocCount b) (fColorStages b);
          let b := set_fColorStages_fAllocCount alloc
                     (restoreColorStages color b) in
          '(coverage, alloc) ← truncate (fCoverageEffectCnt this)
                                  (fCoverageStages_fAllocCount b)
                                  (fCoverageStages b);
          let b := set_fCoverageStages_fAllocCount alloc
                     (restoreCoverageStages coverage b) in
          lift (SkASSERT (0 <=? fBlockEffectRemovalCnt b - 1));;
          let b := set_fBlockEffectRemovalCnt (fBlockEffectRemovalCnt b - 1) b in
          mret (<[p := b]> store)
      end
  | None => mret store
  end.

Definition capture (ds : option Addr) (this : t)
    (store : gmap N GrPipelineBuilder.t) : M (t * gmap N GrPipelineBuilder.t) :=
  match ds with
  | Some p =>
      match store !! p with
      | None => fault
      | Some b =>
          let this := {| fPipelineBuilder := ds;
                         fColorEffectCnt := numColorStages b;
                         fCoverageEffectCnt := numCoverageStages b |} in
          let b := set_fBlockEffectRemovalCnt (fBlockEffectRemovalCnt b + 1) b in
          mret (this, <[p := b]> store)
      end
  | None =>
      mret ({| fPipelineBuilder := None;
               fColorEffectCnt := fColorEffectCnt this;
               fCoverageEffectCnt := fCoverageEffectCnt this |}, store)
  end.

(** void set(GrPipelineBuilder* ds) *)
Definition set (ds : option Addr) (this : t)
    (store : gmap N GrPipelineBuilder.t) : M (t * gmap N GrPipelineBuilder.t) :=
  store ← release this store;
  capture ds this store.

(** AutoRestoreEffects(GrPipelineBuilder* ds) *)
Definition AutoRestoreEffects_ds (ds : option Addr)
    (store : gmap N GrPipelineBuilder.t) : M (t * gmap N GrPipelineBuilder.t) :=
  set ds AutoRestoreEffects store.

(** ~AutoRestoreEffects() { this->set(NULL); } *)
Definition dtor (this : t) (store : gmap N GrPipelineBuilder.t)
    : M (gmap N GrPipelineBuilder.t) :=
  '(_, store) ← set None this store;
  mret store.

Definition isSet (this : t) : bool := SkToBool (fPipelineBuilder this).

End Guard.
End AutoRestoreEffects.

(** *** class AutoRestoreStencil *)
Module AutoRestoreStencil.
Section Guard.
Context `{Env}.

Record t := {
  fPipelineBuilder : option Addr;
  fStencilSettings : GrStencilSettings
}.

Definition AutoRestoreStencil : t :=
  {| fPipelineBuilder := None; fStencilSettings := GrStencilSettings_ctor |}.

Definition set (ds : option Addr) (this : t)
    (store : gmap N GrPipelineBuilder.t)
    : Res (t * gmap N GrPipelineBuilder.t) :=
  store ← match fPipelineBuilder this with
          | Some p =>
              match store !! p with
              | None => Fault
              | Some b => Ok (<[p := setStencil (fStencilSettings this) b]> store)
              end
          | None => Ok store
          end;
  let this := {| fPipelineBuilder := ds;
                 fStencilSettings := fStencilSettings this |} in
  match ds with
  | Some p =>
      match store !! p with
      | None => Fault
      | Some b => Ok ({| fPipelineBuilder := ds;
                         fStencilSettings := getStencil b |}, store)
      end
  | None => Ok (this, store)
  end.

Definition dtor (this : t) (store : gmap N GrPipelineBuilder.t)
    : Res (gmap N GrPipelineBuilder.t) :=
  '(_, store) ← set None this store;
  Ok store.

Definition isSet (this : t) : bool := SkToBool (fPipelineBuilder this).

(** AutoRestoreStencil(GrPipelineBuilder* ds) *)
Definition AutoRestoreStencil_ds (ds : option Addr)
    (store : gmap N GrPipelineBuilder.t)
    : Res (t * gmap N GrPipelineBuilder.t) :=
  set ds AutoRestoreStencil store.

(** Code working on the builder at a pointer: stencil and flag setters, one
    after the other, and blocks that declare an AutoRestoreStencil on the
    builder at their start, so that its destructor runs at their end. *)
Inductive Stmt :=
| SSkip
| SSetStencil (settings : GrStencilSettings)
| SDisableStencil
| SEnableState (stateBits : Z)
| SDisableState (stateBits : Z)
| SSeq (first second : Stmt)
| SScope (body : Stmt).

Definition update (p : Addr) (f : GrPipelineBuilder.t -> GrPipelineBuilder.t)
    (store : gmap N GrPipelineBuilder.t) : Res (gmap N GrPipelineBuilder.t) :=
  match store !! p with
  | None => Fault
  | Some b => Ok (<[p := f b]> store)
  end.

Fixpoint exec (p : Addr) (s : Stmt) (store : gmap N GrPipelineBuilder.t)
    : Res (gmap N GrPipelineBuilder.t) :=
  match s with
  | SSkip => Ok store
  | SSetStencil settings => update p (setStencil settings) store
  | SDisableStencil => update p disableStencil store
  | SEnableState bits => update p (enableState bits) store
  | SDisableState bits => update p (disableState bits) store
  | SSeq first second => store ← exec p first store; exec p second store
  | SScope body =>
      '(ars, store) ← AutoRestoreStencil_ds (Some p) store;
      store ← exec p body store;
      dtor ars store
  end.

End Guard.
End AutoRestoreStencil.

End GrPipelineBuilder.

(** * SkCachingPixelRef (src/lazy/SkCachingPixelRef.cpp) *)

Module SkCachingPixelRef.

(** SkImageGenerator::Result (include/core/SkImageGenerator.h). *)
Inductive Result :=
| kSuccess
| kIncompleteInput
| kInvalidConversion
| kInvalidScale
| kInvalidParameters
| kInvalidInput
| kCouldNotRewind
| kUnimplemented.

(** What the code reads of an SkBitmap it owns. *)
Record SkBitmap := {
  bm_pixels : option Addr;      (* getPixels() *)
  bm_rowBytes : Z;              (* rowBytes()  *)
  bm_immutable : bool
}.

Definition SkBitmap_ctor : SkBitmap :=
  {| bm_pixels := None; bm_rowBytes := 0; bm_immutable := false |}.

Definition setImmutable (bm : SkBitmap) : SkBitmap :=
  {| bm_pixels := bm_pixels bm; bm_rowBytes := bm_rowBytes bm;
     bm_immutable := true |}.

Record LockRec := {
  fPixels : option Addr;
  fColorTable : option Addr;
  fRowBytes_rec : Z
}.

Record t := {
  info : SkImageInfo;               (* SkPixelRef::info() *)
  fImageGenerator : option Addr;
  fErrorInDecoding : bool;
  fRowBytes : Z;                    (* size_t *)
  fLockedBitmap : SkBitmap
}.

Definition set_fErrorInDecoding (v : bool) (r : t) : t :=
  {| info := info r; fImageGenerator := fImageGenerator r;
     fErrorInDecoding := v; fRowBytes := fRowBytes r;
     fLockedBitmap := fLockedBitmap r |}.
Definition set_fLockedBitmap (v : SkBitmap) (r : t) : t :=
  {| info := info r; fImageGenerator := fImageGenerator r;
     fErrorInDecoding := fErrorInDecoding r; fRowBytes := fRowBytes r;
     fLockedBitmap := v |}.

(** The answers of the outside world to the calls of one Install. *)
Record InstallAnswers := {
  ans_getInfo : option SkImageInfo;   (* the info written, None for false *)
  ans_setInfo : bool;
  ans_rowBytes : Z                    (* dst->rowBytes() after setInfo *)
}.

(** The answers of the outside world to the calls of one onNewLockPixels. *)
Record LockAnswers := {
  ans_getGenerationID : N;
  ans_Find : option SkBitmap;         (* the cached bitmap, None on a miss *)
  ans_tryAllocPixels : bool;
  ans_allocated : SkBitmap;           (* fLockedBitmap after tryAllocPixels *)
  ans_getPixels : Result
}.

(** SkDELETE(generator): deleting NULL does nothing. *)
Definition SkDELETE (generator : option Addr) : M unit :=
  match generator with
  | Some g => emit (EvDelete (OImageGenerator g))
  | None => mret tt
  end.

(** SkCachingPixelRef(info, generator, rowBytes) *)
Definition SkCachingPixelRef (info : SkImageInfo) (generator : option Addr)
    (rowBytes : Z) : Res t :=
  let this := {| info := info; fImageGenerator := generator;
                 fErrorInDecoding := false; fRowBytes := rowBytes;
                 fLockedBitmap := SkBitmap_ctor |} in
  SkASSERT (SkToBool (fImageGenerator this));;
  Ok this.

(** ~SkCachingPixelRef() *)
Definition dtor (this : t) : M unit := SkDELETE (fImageGenerator this).

(** static bool Install(SkImageGenerator* generator, SkBitmap* dst)

    [checked] follows the short-circuit order of the condition: getInfo is
    called only on a non-NULL generator, setInfo only after getInfo
    succeeded; it yields the generator and the info when all three tests
    pass. *)
Definition Install (ans : InstallAnswers) (generator : option Addr)
    (dst : option Addr) : M bool :=
  lift (SkASSERT (SkToBool dst));;
  match dst with
  | None => fault
  | Some d =>
      checked ← match generator with
                | None => mret None
                | Some g =>
                    emit (EvCall (Call_getInfo g));;
                    match ans_getInfo ans with
                    | None => mret None
                    | Some info =>
                        emit (EvCall (Call_setInfo d info));;
                        if negb (ans_setInfo ans) then mret None
                        else mret (Some (g, info))
                    end
                end;
      match checked with
      | None =>
          SkDELETE generator;;
          mret false
      | Some (g, info) =>
          _ ← lift (SkCachingPixelRef info generator (ans_rowBytes ans));
          let ref := SkCachingPixelRef_new info g (ans_rowBytes ans) in
          emit (EvCreate (OPixelRef ref));;
          emit (EvCall (Call_setPixelRef d ref));;
          emit (EvUnref (OPixelRef ref));;
          mret true
      end
  end.

(** bool onNewLockPixels(LockRec* rec): the result, what was written to
    [rec] if anything, and the updated receiver.  [decode] is the block under
    the cache miss; it answers false where the source returns false from
    inside it. *)
Definition decode (ans : LockAnswers) (this : t) : M (bool * t) :=
  let info := info this in
  emit (EvCall (Call_tryAllocPixels info (fRowBytes this)));;
  let this := set_fLockedBitmap (ans_allocated ans) this in
  if negb (ans_tryAllocPixels ans) then
    let this := set_fErrorInDecoding true this in
    mret (false, this)
  else
    match fImageGenerator this with
    | None => fault
    | Some g =>
        emit (EvCall (Call_getPixels g info (bm_pixels (fLockedBitmap this))
                                     (fRowBytes this)));;
        match ans_getPixels ans with
        | kIncompleteInput
        | kSuccess =>
            let this := set_fLockedBitmap (setImmutable (fLockedBitmap this))
                                          this in
            emit (EvCall (Call_BitmapCache_Add
                            (ans_getGenerationID ans)
                            (SkImageInfo_bounds info)
                            (bm_pixels (fLockedBitmap this))
                            (bm_rowBytes (fLockedBitmap this))
                            (bm_immutable (fLockedBitmap this))));;
            mret (true, this)
        | _ =>
            let this := set_fErrorInDecoding true this in
            mret (false, this)
        end
    end.

Definition onNewLockPixels (ans : LockAnswers) (this : t)
    : M (bool * option LockRec * t) :=
  if fErrorInDecoding this then mret (false, None, this)
  else
    let info := info this in
    emit (EvCall (Call_BitmapCache_Find (ans_getGenerationID ans)
                                        (SkImageInfo_bounds info)));;
    '(ok, this) ← match ans_Find ans with
                  | Some cached => mret (true, set_fLockedBitmap cached this)
                  | None => decode ans this
                  end;
    if negb ok then mret (false, None, this)
    else
      let pixels := bm_pixels (fLockedBitmap this) in
      lift (SkASSERT (SkToBool pixels));;
      mret (true,
            Some {| fPixels := pixels; fColorTable := None;
                    fRowBytes_rec := bm_rowBytes (fLockedBitmap this) |},
            this).

(** void onUnlockPixels() { fLockedBitmap.reset(); } *)
Definition onUnlockPixels (this : t) : t :=
  set_fLockedBitmap SkBitmap_ctor this.

(** *** Sequences of lock and unlock calls *)

Inductive PixelRefCall :=
| Lock (ans : LockAnswers)
| Unlock.

(** The results of the lock calls of a sequence, in order. *)
Fixpoint calls (cs : list PixelRefCall) (this : t) : M (list bool * t) :=
  match cs with
  | [] => mret ([], this)
  | Lock ans :: cs =>
      '(ok, _, this) ← onNewLockPixels ans this;
      '(oks, this) ← calls cs this;
      mret (ok :: oks, this)
  | Unlock :: cs => calls cs (onUnlockPixels this)
  end.

Definition isLock (c : PixelRefCall) : bool :=
  match c with
  | Lock _ => true
  | Unlock => false
  end.

(** The generator's results that let a decode go on. *)
Definition accepted (r : Result) : bool :=
  match r with
  | kIncompleteInput | kSuccess => true
  | _ => false
  end.

(** A pixel ref over generator 9 and answers for a cache miss followed by a
    failed allocation, for worked examples. *)
Definition examplePixelRef : t :=
  {| info := {| fWidth := 4; fHeight := 4; fColorType := 1; fAlphaType := 1 |};
     fImageGenerator := Some 9%N;
     fErrorInDecoding := false;
     fRowBytes := 16;
     fLockedBitmap := SkBitmap_ctor |}.

Definition exampleAllocFailure : LockAnswers :=
  {| ans_getGenerationID := 1;
     ans_Find := None;
     ans_tryAllocPixels := false;
     ans_allocated := SkBitmap_ctor;
     ans_getPixels := kSuccess |}.

(** *** What a lock needs, and what a trace did to the generator *)

(** The bitmap a lock would end up with has pixels: the cached one on a hit,
    the freshly allocated one on a miss (line 72 asserts it). *)
Definition pixelsPresent (ans : LockAnswers) : bool :=
  match ans_Find ans with
  | Some cached => SkToBool (bm_pixels cached)
  | None => SkToBool (bm_pixels (ans_allocated ans))
  end.

(** A lock that is not stopped before line 70: a cache hit, or a miss
    followed by a successful allocation and an accepted decode. *)
Definition reachesPixels (ans : LockAnswers) : bool :=
  match ans_Find ans with
  | Some _ => true
  | None => ans_tryAllocPixels ans && accepted (ans_getPixels ans)
  end.

(** The answers given to the lock calls of a sequence. *)
Definition lockAnswers (cs : list PixelRefCall) : list LockAnswers :=
  flat_map (fun c => match c with Lock ans => [ans] | Unlock => [] end) cs.

Definition isDelete (e : Event) : bool :=
  match e with
  | EvDelete _ => true
  | _ => false
  end.

(** Calls on an image generator other than [g], or asking [g] to decode at
    another info or row bytes than [info] and [rowBytes]. *)
Definition foreignDecode (g : Addr) (info : SkImageInfo) (rowBytes : Z)
    (e : Event) : bool :=
  match e with
  | EvCall (Call_getPixels g' info' _ rowBytes') =>
      negb (N.eqb g g' && SkIRect_eq (SkImageInfo_bounds info)
                                     (SkImageInfo_bounds info')
            && N.eqb (fColorType info) (fColorType info')
            && N.eqb (fAlphaType info) (fAlphaType info')
            && (rowBytes =? rowBytes'))
  | _ => false
  end.

End SkCachingPixelRef.


(** * SkSVGDevice (src/svg/SkSVGDevice.cpp)

    The helpers of the SVG backend that turn paints, text and resource
    counters into attribute values.  Scalars (floats) are kept abstract; the
    calls made on the SkXMLWriter are listed in order. *)

Module SkSVGDevice.

(** SkColor (include/core/SkColor.h): a 32-bit word, alpha in the top byte,
    then red, green and blue. *)
Definition SkColorGetA (color : Z) : Z := Z.land (Z.shiftr color 24) 0xFF.
Definition SkColorGetR (color : Z) : Z := Z.land (Z.shiftr color 16) 0xFF.
Definition SkColorGetG (color : Z) : Z := Z.land (Z.shiftr color 8) 0xFF.
Definition SkColorGetB (color : Z) : Z := Z.land (Z.shiftr color 0) 0xFF.
Definition SK_AlphaOPAQUE : Z := 0xFF.

(** SkStringPrintf("rgb(%u,%u,%u)", r, g, b): the arguments in decimal. *)
Definition svg_color (color : Z) : string :=
  "rgb(" +:+ pretty (SkColorGetR color) +:+ "," +:+
  pretty (SkColorGetG color) +:+ "," +:+
  pretty (SkColorGetB color) +:+ ")".

(** The three tables indexed by an enumerator of SkPaint, NULL for the
    default value of the attribute. *)
Definition cap_map : list (option string) :=
  [None; Some "round"; Some "square"].
Definition join_map : list (option string) :=
  [None; Some "round"; Some "bevel"].
Definition text_align_map : list (option string) :=
  [None; Some "middle"; Some "end"].

(** SkASSERT(v < SK_ARRAY_COUNT(map)); return map[v]; the comparison is
    unsigned, so a negative enumerator fails it too. *)
Definition lookup_map (map : list (option string)) (v : Z)
    : Res (option string) :=
  SkASSERT ((0 <=? v) && (v <? Z.of_nat (length map)));;
  match map !! Z.to_nat v with
  | Some entry => Ok entry
  | None => Fault
  end.

Definition svg_cap (cap : Z) : Res (option string) := lookup_map cap_map cap.
Definition svg_join (join : Z) : Res (option string) :=
  lookup_map join_map join.
Definition svg_text_align (align : Z) : Res (option string) :=
  lookup_map text_align_map align.

(** SkPaint::Style, Cap and Join (include/core/SkPaint.h), by value. *)
Definition kFill_Style : Z := 0.
Definition kStroke_Style : Z := 1.
Definition kStrokeAndFill_Style : Z := 2.
Definition kButt_Cap : Z := 0.
Definition kRound_Cap : Z := 1.
Definition kSquare_Cap : Z := 2.
Definition kMiter_Join : Z := 0.
Definition kRound_Join : Z := 1.
Definition kBevel_Join : Z := 2.

(** ** class ResourceBucket *)

Record ResourceBucket := {
  fGradientCount : Z;       (* uint32_t *)
  fClipCount : Z;           (* uint32_t *)
  fPathCount : Z            (* uint32_t *)
}.

Definition ResourceBucket_ctor : ResourceBucket :=
  {| fGradientCount := 0; fClipCount := 0; fPathCount := 0 |}.

(** v++ on a uint32_t *)
Definition incr32 (v : Z) : Z := (v + 1) mod 2 ^ 32.

(** printf's %d given a uint32_t: the same 32 bits read as an int. *)
Definition printf_d (v : Z) : string :=
  pretty (if v <? 2 ^ 31 then v else v - 2 ^ 32).

Definition addLinearGradient (this : ResourceBucket)
    : string * ResourceBucket :=
  ("gradient_" +:+ printf_d (fGradientCount this),
   {| fGradientCount := incr32 (fGradientCount this);
      fClipCount := fClipCount this; fPathCount := fPathCount this |}).

Definition addClip (this : ResourceBucket) : string * ResourceBucket :=
  ("clip_" +:+ printf_d (fClipCount this),
   {| fGradientCount := fGradientCount this;
      fClipCount := incr32 (fClipCount this);
      fPathCount := fPathCount this |}).

Definition addPath (this : ResourceBucket) : string * ResourceBucket :=
  ("path_" +:+ printf_d (fPathCount this),
   {| fGradientCount := fGradientCount this;
      fClipCount := fClipCount this;
      fPathCount := incr32 (fPathCount this) |}).

(** Requests made to a bucket, and the ids it hands out for them. *)
Inductive Request := ReqLinearGradient | ReqClip | ReqPath.

Definition serve (r : Request) (this : ResourceBucket)
    : string * ResourceBucket :=
  match r with
  | ReqLinearGradient => addLinearGradient this
  | ReqClip => addClip this
  | ReqPath => addPath this
  end.

Fixpoint serveAll (rs : list Request) (this : ResourceBucket)
    : list string * ResourceBucket :=
  match rs with
  | [] => ([], this)
  | r :: rs =>
      let '(id, this) := serve r this in
      let '(ids, this) := serveAll rs this in
      (id :: ids, this)
  end.

Definition Request_eqb (a b : Request) : bool :=
  match a, b with
  | ReqLinearGradient, ReqLinearGradient
  | ReqClip, ReqClip
  | ReqPath, ReqPath => true
  | _, _ => false
  end.

(** The requests of one kind among [rs]. *)
Definition requestsOf (r : Request) (rs : list Request) : Z :=
  fold_right (fun q acc => (if Request_eqb r q then 1 else 0) + acc) 0 rs.

Definition counterOf (r : Request) (this : ResourceBucket) : Z :=
  match r with
  | ReqLinearGradient => fGradientCount this
  | ReqClip => fClipCount this
  | ReqPath => fPathCount this
  end.

(** The id a bucket hands out for [r] when the counter for [r] stands at
    [n]. *)
Definition idOf (r : Request) (n : Z) : string :=
  fst (serve r {| fGradientCount := n; fClipCount := n; fPathCount := n |}).

(** ** class SVGTextBuilder

    Characters are Unicode code points (SkUnichar).  [fText] is kept as the
    sequence of characters appended to it; their UTF-8 encoding is
    SkString's business. *)

Definition chars (s : string) : list Z :=
  map (fun a => Z.of_N (Ascii.N_of_ascii a)) (String.list_ascii_of_string s).

(** enum SkPaint::TextEncoding (include/core/SkPaint.h) *)
Definition kUTF8_TextEncoding : Z := 0.
Definition kUTF16_TextEncoding : Z := 1.
Definition kUTF32_TextEncoding : Z := 2.
Definition kGlyphID_TextEncoding : Z := 3.

(** #define SkIsAlign2(x) (0 == ((x) & 1)) *)
Definition SkIsAlign2 (x : Z) : bool := 0 =? Z.land x 1.

(** The text a caller hands over and the paint it is drawn with are seen
    through SkPaint and SkUtils only.  A cursor into the text counts from
    its start, in units of the encoding: bytes for UTF-8, uint16_t for
    UTF-16. *)
Class TextEnv := {
  Text : Type;                          (* what const void* text points to *)
  TextPaint : Type;                     (* the SkPaint, as far as text goes *)
  getTextEncoding : TextPaint -> Z;     (* paint.getTextEncoding() *)
  countText : TextPaint -> Text -> Z -> Z;  (* paint.countText(text, byteLen) *)
  (* paint.glyphsToUnichars(text, count, unichars): the array it fills,
     by index *)
  glyphsToUnichars : TextPaint -> Text -> Z -> Z -> Z;
  (* SkUTF8_NextUnichar(&c8), SkUTF16_NextUnichar(&c16): the character at
     the cursor and the cursor behind it *)
  SkUTF8_NextUnichar : Text -> Z -> Z * Z;
  SkUTF16_NextUnichar : Text -> Z -> Z * Z;
  c32_at : Text -> Z -> Z               (* c32[i], text read as uint32_t *)
}.

Section Text.
Context {SkScalar : Type}.
Variable SkScalar_add : SkScalar -> SkScalar -> SkScalar.
Context `{TextEnv}.

Record SkPoint := { x : SkScalar; y : SkScalar }.

(** What has been appended to one of the position strings. *)
Inductive PosEntry :=
| Pos_appendf (v : SkScalar)        (* appendf with format %.8g and a comma *)
| Pos_appendScalar (v : SkScalar).  (* appendScalar(v)      *)

Record SVGTextBuilder := {
  fOffset : SkPoint;
  fScalarsPerPos : Z;                   (* unsigned *)
  pos : option (list SkScalar);         (* the array behind fPos, or NULL *)
  fPos : Z;                             (* how far fPos has advanced in it *)
  fText : list Z;
  fPosX : list PosEntry;
  fPosY : list PosEntry;
  fLastCharWasWhitespace : bool
}.

Definition set_fText (v : list Z) (b : SVGTextBuilder) : SVGTextBuilder :=
  {| fOffset := fOffset b; fScalarsPerPos := fScalarsPerPos b; pos := pos b;
     fPos := fPos b; fText := v; fPosX := fPosX b; fPosY := fPosY b;
     fLastCharWasWhitespace := fLastCharWasWhitespace b |}.
Definition set_fPosX (v : list PosEntry) (b : SVGTextBuilder) : SVGTextBuilder :=
  {| fOffset := fOffset b; fScalarsPerPos := fScalarsPerPos b; pos := pos b;
     fPos := fPos b; fText := fText b; fPosX := v; fPosY := fPosY b;
     fLastCharWasWhitespace := fLastCharWasWhitespace b |}.
Definition set_fPosY (v : list PosEntry) (b : SVGTextBuilder) : SVGTextBuilder :=
  {| fOffset := fOffset b; fScalarsPerPos := fScalarsPerPos b; pos := pos b;
     fPos := fPos b; fText := fText b; fPosX := fPosX b; fPosY := v;
     fLastCharWasWhitespace := fLastCharWasWhitespace b |}.
Definition set_fPos (v : Z) (b : SVGTextBuilder) : SVGTextBuilder :=
  {| fOffset := fOffset b; fScalarsPerPos := fScalarsPerPos b; pos := pos b;
     fPos := v; fText := fText b; fPosX := fPosX b; fPosY := fPosY b;
     fLastCharWasWhitespace := fLastCharWasWhitespace b |}.
Definition set_fLastCharWasWhitespace (v : bool) (b : SVGTextBuilder)
    : SVGTextBuilder :=
  {| fOffset := fOffset b; fScalarsPerPos := fScalarsPerPos b; pos := pos b;
     fPos := fPos b; fText := fText b; fPosX := fPosX b; fPosY := fPosY b;
     fLastCharWasWhitespace := v |}.

(** fPos[i]: a read through NULL or past the end of the array is a fault. *)
Definition fPos_at (i : Z) (this : SVGTextBuilder) : Res SkScalar :=
  match pos this with
  | None => Fault
  | Some a =>
      match a !! Z.to_nat (fPos this + i) with
      | Some v => Ok v
      | None => Fault
      end
  end.

(** void advancePos(bool discard) *)
Definition advancePos (discard : bool) (this : SVGTextBuilder)
    : Res SVGTextBuilder :=
  this ← (if negb discard && (0 <? fScalarsPerPos this) then
            p0 ← fPos_at 0 this;
            let this :=
              set_fPosX (fPosX this
                         ++ [Pos_appendf (SkScalar_add (x (fOffset this)) p0)])
                        this in
            if 1 <? fScalarsPerPos this then
              SkASSERT (fScalarsPerPos this =? 2);;
              p1 ← fPos_at 1 this;
              Ok (set_fPosY
                    (fPosY this
                     ++ [Pos_appendf (SkScalar_add (y (fOffset this)) p1)])
                    this)
            else Ok this
          else Ok this);
  Ok (set_fPos (fPos this + fScalarsPerPos this) this).

(** void appendUnichar(SkUnichar c) *)
Definition appendUnichar (c : Z) (this : SVGTextBuilder)
    : Res SVGTextBuilder :=
  let '(discardPos, isWhitespace, this) :=
    if (c =? 32) || (c =? 9) then                       (* space, tab *)
      if fLastCharWasWhitespace this then (true, true, this)
      else (false, true, set_fText (fText this ++ [c]) this)
    else if c =? 0 then                                 (* NUL *)
      (true, fLastCharWasWhitespace this, this)
    else if c =? 38 then                                (* ampersand *)
      (false, false, set_fText (fText this ++ chars "&amp;") this)
    else if c =? 34 then                                (* double quote *)
      (false, false, set_fText (fText this ++ chars "&quot;") this)
    else if c =? 39 then                                (* single quote *)
      (false, false, set_fText (fText this ++ chars "&apos;") this)
    else if c =? 60 then                                (* less-than *)
      (false, false, set_fText (fText this ++ chars "&lt;") this)
    else if c =? 62 then                                (* greater-than *)
      (false, false, set_fText (fText this ++ chars "&gt;") this)
    else (false, false, set_fText (fText this ++ [c]) this) in
  this ← advancePos discardPos this;
  Ok (set_fLastCharWasWhitespace isWhitespace this).

(** for (int i = 0; i < count; ++i) this->appendUnichar(next(&cursor));
    the cursor is returned with the builder. *)
Fixpoint appendNext (next : Z -> Z * Z) (count : nat) (cursor : Z)
    (this : SVGTextBuilder) : Res (Z * SVGTextBuilder) :=
  match count with
  | O => Ok (cursor, this)
  | S count =>
      let '(c, cursor) := next cursor in
      this ← appendUnichar c this;
      appendNext next count cursor this
  end.

(** for (int i = 0; i < count; ++i) this->appendUnichar(a[i]);
    [i] is the index the loop has reached. *)
Fixpoint appendEach (a : Z -> Z) (count : nat) (i : Z)
    (this : SVGTextBuilder) : Res SVGTextBuilder :=
  match count with
  | O => Ok this
  | S count =>
      this ← appendUnichar (a i) this;
      appendEach a count (i + 1) this
  end.

(** The switch over the paint's encoding in the constructor (lines 132 to
    165), with the assertions on [byteLen] where the source has them:
    before the loop for glyph ids and UTF-32, behind it for UTF-8 and
    UTF-16, where the cursor has to stand at the end of the text.  [count]
    is an int; a loop over a count below one does nothing.  sizeof(uint16_t)
    is 2 and sizeof(uint32_t) is 4. *)
Definition appendText (text : Text) (byteLen : Z) (paint : TextPaint)
    (count : Z) (this : SVGTextBuilder) : Res SVGTextBuilder :=
  let encoding := getTextEncoding paint in
  if encoding =? kGlyphID_TextEncoding then
    SkASSERT (count * 2 =? byteLen);;
    let unichars := glyphsToUnichars paint text count in
    appendEach unichars (Z.to_nat count) 0 this
  else if encoding =? kUTF8_TextEncoding then
    '(c8, this) ← appendNext (SkUTF8_NextUnichar text) (Z.to_nat count) 0 this;
    SkASSERT (byteLen =? c8);;
    Ok this
  else if encoding =? kUTF16_TextEncoding then
    '(c16, this) ← appendNext (SkUTF16_NextUnichar text) (Z.to_nat count) 0
                              this;
    SkASSERT (SkIsAlign2 byteLen);;
    SkASSERT (byteLen / 2 =? c16);;
    Ok this
  else if encoding =? kUTF32_TextEncoding then
    SkASSERT (count * 4 =? byteLen);;
    appendEach (c32_at text) (Z.to_nat count) 0 this
  else Fault.                             (* SkFAIL: unknown text encoding *)

(** SVGTextBuilder(text, byteLen, paint, offset, scalarsPerPos, pos).
    [byteLen] is a size_t.  [scalarsPerPos] is unsigned in the source; a
    negative value here stands for no value of that type and is turned away
    by the first assertion. *)
Definition SVGTextBuilder_ctor (text : Text) (byteLen : Z)
    (paint : TextPaint) (offset : SkPoint) (scalarsPerPos : Z)
    (pos : option (list SkScalar)) : Res SVGTextBuilder :=
  let this := {| fOffset := offset; fScalarsPerPos := scalarsPerPos;
                 pos := pos; fPos := 0; fText := []; fPosX := []; fPosY := [];
                 fLastCharWasWhitespace := true |} in
  SkASSERT ((0 <=? scalarsPerPos) && (scalarsPerPos <=? 2));;
  SkASSERT ((scalarsPerPos =? 0) || SkToBool pos);;
  let count := countText paint text byteLen in
  this ← appendText text byteLen paint count this;
  this ← (if scalarsPerPos <? 2 then
            SkASSERT (match fPosY this with [] => true | _ => false end);;
            Ok (set_fPosY (fPosY this ++ [Pos_appendScalar (y offset)]) this)
          else Ok this);
  if scalarsPerPos <? 1 then
    SkASSERT (match fPosX this with [] => true | _ => false end);;
    Ok (set_fPosX (fPosX this ++ [Pos_appendScalar (x offset)]) this)
  else Ok this.

(** *** What the constructor reads of the text

    The characters the two kinds of loop hand to appendUnichar, in order,
    and for the cursor loops where the cursor ends up. *)
Fixpoint decodeNext (next : Z -> Z * Z) (count : nat) (cursor : Z)
    : list Z * Z :=
  match count with
  | O => ([], cursor)
  | S count =>
      let '(c, cursor) := next cursor in
      let '(cs, final) := decodeNext next count cursor in
      (c :: cs, final)
  end.

Fixpoint decodeEach (a : Z -> Z) (count : nat) (i : Z) : list Z :=
  match count with
  | O => []
  | S count => a i :: decodeEach a count (i + 1)
  end.

(** The characters of [text] as the loop of the paint's encoding reads
    them; none for an unknown encoding. *)
Definition unicharsOf (text : Text) (byteLen : Z) (paint : TextPaint)
    : list Z :=
  let count := countText paint text byteLen in
  let encoding := getTextEncoding paint in
  if encoding =? kGlyphID_TextEncoding then
    decodeEach (glyphsToUnichars paint text count) (Z.to_nat count) 0
  else if encoding =? kUTF8_TextEncoding then
    fst (decodeNext (SkUTF8_NextUnichar text) (Z.to_nat count) 0)
  else if encoding =? kUTF16_TextEncoding then
    fst (decodeNext (SkUTF16_NextUnichar text) (Z.to_nat count) 0)
  else if encoding =? kUTF32_TextEncoding then
    decodeEach (c32_at text) (Z.to_nat count) 0
  else [].

(** The encoding is one of the four, and [byteLen] is the length that the
    count of characters and the decoder of that encoding account for: two
    bytes a glyph id, four bytes a UTF-32 character; for UTF-8 the bytes the
    decoder has walked over; for UTF-16 an even number of bytes, half of
    which are the uint16_t the decoder has walked over. *)
Definition lengthsAgree (text : Text) (byteLen : Z) (paint : TextPaint)
    : bool :=
  let count := countText paint text byteLen in
  let encoding := getTextEncoding paint in
  if encoding =? kGlyphID_TextEncoding then count * 2 =? byteLen
  else if encoding =? kUTF8_TextEncoding then
    byteLen =? snd (decodeNext (SkUTF8_NextUnichar text) (Z.to_nat count) 0)
  else if encoding =? kUTF16_TextEncoding then
    SkIsAlign2 byteLen &&
    (byteLen / 2
     =? snd (decodeNext (SkUTF16_NextUnichar text) (Z.to_nat count) 0))
  else if encoding =? kUTF32_TextEncoding then count * 4 =? byteLen
  else false.

(** appendUnichar on each character of a list in turn. *)
Fixpoint appendUnichars (cs : list Z) (this : SVGTextBuilder)
    : Res SVGTextBuilder :=
  match cs with
  | [] => Ok this
  | c :: cs => this ← appendUnichar c this; appendUnichars cs this
  end.

Definition text (this : SVGTextBuilder) : list Z := fText this.
Definition posX (this : SVGTextBuilder) : list PosEntry := fPosX this.
Definition posY (this : SVGTextBuilder) : list PosEntry := fPosY this.

End Text.

(** *** Reading the text back

    What an XML parser makes of character data: the five predefined
    entities stand for their character, anything else for itself. *)
Definition entities : list (list Z * Z) :=
  [(chars "&amp;", 38); (chars "&quot;", 34); (chars "&apos;", 39);
   (chars "&lt;", 60); (chars "&gt;", 62)].

Fixpoint strip_prefix (p s : list Z) : option (list Z) :=
  match p, s with
  | [], _ => Some s
  | a :: p, b :: s => if a =? b then strip_prefix p s else None
  | _ :: _, [] => None
  end.

Fixpoint first_entity (es : list (list Z * Z)) (s : list Z)
    : option (Z * list Z) :=
  match es with
  | [] => None
  | (name, c) :: es =>
      match strip_prefix name s with
      | Some rest => Some (c, rest)
      | None => first_entity es s
      end
  end.

Fixpoint unescape_upto (n : nat) (s : list Z) : list Z :=
  match n with
  | O => []
  | S n =>
      match first_entity entities s with
      | Some (c, rest) => c :: unescape_upto n rest
      | None =>
          match s with
          | [] => []
          | c :: rest => c :: unescape_upto n rest
          end
      end
  end.

Definition unescape (s : list Z) : list Z := unescape_upto (length s) s.

Definition isSpace (c : Z) : bool := (c =? 32) || (c =? 9).

(** What appendUnichar appends to the text for a character it keeps. *)
Definition escape (c : Z) : list Z :=
  if c =? 38 then chars "&amp;"
  else if c =? 34 then chars "&quot;"
  else if c =? 39 then chars "&apos;"
  else if c =? 60 then chars "&lt;"
  else if c =? 62 then chars "&gt;"
  else [c].

(** Neither a blank nor NUL. *)
Definition isInk (c : Z) : bool := negb (isSpace c) && negb (c =? 0).

(** Characters that may not appear as such in character data or in a quoted
    attribute value, and NUL, which is no XML character at all. *)
Definition isMarkup (c : Z) : bool :=
  (c =? 60) || (c =? 62) || (c =? 34) || (c =? 39) || (c =? 0).

(** The characters of the input that get a place in the text, each with its
    index in the input: NULs are dropped, and so is every blank that follows
    a blank or starts the text (NULs in between do not count). *)
Fixpoint survivors (lastWasWhitespace : bool) (i : nat) (cs : list Z)
    : list (nat * Z) :=
  match cs with
  | [] => []
  | c :: cs =>
      if isSpace c then
        if lastWasWhitespace then survivors true (S i) cs
        else (i, c) :: survivors true (S i) cs
      else if c =? 0 then survivors lastWasWhitespace (S i) cs
      else (i, c) :: survivors false (S i) cs
  end.

(** No blank next to a blank. *)
Fixpoint singleSpaced (cs : list Z) : bool :=
  match cs with
  | a :: (b :: _) as rest => negb (isSpace a && isSpace b) && singleSpaced rest
  | _ => true
  end.

(** ** AutoElement::addPaint *)

Class Scalars := {
  Scalar : Type;
  Scalar_isZero : Scalar -> bool;             (* v == 0 *)
  SK_Scalar1 : Scalar;
  SkIntToScalar : Z -> Scalar;
  Scalar_div : Scalar -> Scalar -> Scalar
}.

Section Paint.
Context `{Scalars}.

(** static SkScalar svg_opacity(SkColor color) *)
Definition svg_opacity (color : Z) : Scalar :=
  Scalar_div (SkIntToScalar (SkColorGetA color)) (SkIntToScalar SK_AlphaOPAQUE).

(** What addPaint reads of an SkPaint. *)
Record SkPaint := {
  getStyle : Z;
  getColor : Z;
  getStrokeWidth : Scalar;
  getStrokeCap : Z;
  getStrokeJoin : Z;
  getStrokeMiter : Scalar
}.

Record Resources := {
  fPaintServer : string;
  fClip : string
}.

(** Resources(const SkPaint& paint) *)
Definition Resources_ctor (paint : SkPaint) : Resources :=
  {| fPaintServer := svg_color (getColor paint); fClip := EmptyString |}.

(** The overloads of addAttribute, by the type of the value. *)
Inductive Value :=
| VString (s : string)
| VScalar (v : Scalar).

Record Attribute := { attr_name : string; attr_value : Value }.

Definition isEmpty (s : string) : bool :=
  match s with
  | EmptyString => true
  | _ => false
  end.

Definition optional (name : string) (v : option string) : list Attribute :=
  match v with
  | Some s => [{| attr_name := name; attr_value := VString s |}]
  | None => []
  end.

(** void addPaint(const SkPaint& paint, const Resources& resources): the
    addAttribute calls it makes, in order. *)
Definition addPaint (paint : SkPaint) (resources : Resources)
    : Res (list Attribute) :=
  let style := getStyle paint in
  let opaque := SK_AlphaOPAQUE =? SkColorGetA (getColor paint) in
  fill ← (if (style =? kFill_Style) || (style =? kStrokeAndFill_Style) then
            Ok ({| attr_name := "fill";
                   attr_value := VString (fPaintServer resources) |}
                :: (if negb opaque
                    then [{| attr_name := "fill-opacity";
                             attr_value := VScalar (svg_opacity (getColor paint)) |}]
                    else []))
          else
            SkASSERT (style =? kStroke_Style);;
            Ok [{| attr_name := "fill"; attr_value := VString "none" |}]);
  stroke ← (if (style =? kStroke_Style) || (style =? kStrokeAndFill_Style) then
              let hairline := Scalar_isZero (getStrokeWidth paint) in
              let strokeWidth :=
                if hairline then SK_Scalar1 else getStrokeWidth paint in
              cap ← svg_cap (getStrokeCap paint);
              join ← svg_join (getStrokeJoin paint);
              Ok ({| attr_name := "stroke";
                     attr_value := VString (fPaintServer resources) |}
                  :: (if hairline
                      then [{| attr_name := "vector-effect";
                               attr_value := VString "non-scaling-stroke" |}]
                      else [])
                  ++ [{| attr_name := "stroke-width";
                         attr_value := VScalar strokeWidth |}]
                  ++ optional "stroke-linecap" cap
                  ++ optional "stroke-linejoin" join
                  ++ (if getStrokeJoin paint =? kMiter_Join
                      then [{| attr_name := "stroke-miterlimit";
                               attr_value := VScalar (getStrokeMiter paint) |}]
                      else [])
                  ++ (if negb opaque
                      then [{| attr_name := "stroke-opacity";
                               attr_value := VScalar (svg_opacity (getColor paint)) |}]
                      else []))
            else
              SkASSERT (style =? kFill_Style);;
              Ok [{| attr_name := "stroke"; attr_value := VString "none" |}]);
  Ok (fill ++ stroke
      ++ (if negb (isEmpty (fClip resources))
          then [{| attr_name := "clip-path";
                   attr_value := VString (fClip resources) |}]
          else [])).

(** The values written under [name]. *)
Definition valuesOf (name : string) (attrs : list Attribute) : list Value :=
  map attr_value
      (filter (fun a => bool_decide (attr_name a = name) = true) attrs).

End Paint.

(** Scalars for worked examples: whole numbers in thousandths. *)
Definition exampleScalars : Scalars :=
  {| Scalar := Z;
     Scalar_isZero := fun v => v =? 0;
     SK_Scalar1 := 1000;
     SkIntToScalar := fun n => n * 1000;
     Scalar_div := fun a b => a * 1000 / b |}.

(** A half-transparent red hairline stroke with round caps. *)
Definition examplePaint : SkPaint (H := exampleScalars) :=
  @Build_SkPaint exampleScalars kStroke_Style 0x80FF0000 0 kRound_Cap
                 kMiter_Join 4000.

(** Texts of characters below 128, given as the list of their code units.
    In each of the four encodings one unit is one character (a glyph id
    standing for the character of that number), and a paint is known by its
    encoding. *)
Definition exampleUnitSize (encoding : Z) : Z :=
  if encoding =? kUTF8_TextEncoding then 1
  else if encoding =? kUTF32_TextEncoding then 4 else 2.

Definition exampleText : TextEnv :=
  {| Text := list Z;
     TextPaint := Z;
     getTextEncoding := fun paint => paint;
     countText := fun paint text byteLen => byteLen / exampleUnitSize paint;
     glyphsToUnichars := fun paint text count i => nth (Z.to_nat i) text 0;
     SkUTF8_NextUnichar := fun text c => (nth (Z.to_nat c) text 0, c + 1);
     SkUTF16_NextUnichar := fun text c => (nth (Z.to_nat c) text 0, c + 1);
     c32_at := fun text i => nth (Z.to_nat i) text 0 |}.

End SkSVGDevice.
(** * Properties *)

(** ** Geometry *)

Lemma SkIPoint_eq_spec (a b : SkIPoint) : SkIPoint_eq a b = true <-> a = b.
Proof.
  destruct a as [ax ay], b as [bx by_]; unfold SkIPoint_eq; simpl.
  rewrite andb_true_iff, !Z.eqb_eq. split.
  - intros [-> ->]; reflexivity.
  - intros H; injection H; auto.
Qed.

Lemma SkIRect_eq_spec (a b : SkIRect) : SkIRect_eq a b = true <-> a = b.
Proof.
  destruct a as [al at_ ar ab], b as [bl bt br bb]; unfold SkIRect_eq; simpl.
  rewrite !andb_true_iff, !Z.eqb_eq. split.
  - intros [[[-> ->] ->] ->]; reflexivity.
  - intros H; injection H; auto.
Qed.

Lemma SkIPoint_eq_refl (a : SkIPoint) : SkIPoint_eq a a = true.
Proof. apply SkIPoint_eq_spec; reflexivity. Qed.

Lemma SkIRect_eq_refl (a : SkIRect) : SkIRect_eq a a = true.
Proof. apply SkIRect_eq_spec; reflexivity. Qed.


(** ** Stepping through the trace monad *)

Lemma bind_ok {A B} (m : M A) (k : A -> M B) (tr tr' : list Event) (a : A) :
  m tr = Ok (a, tr') -> (m ≫= k) tr = k a tr'.
Proof. intros E. unfold mbind, M_bind. rewrite E. reflexivity. Qed.

Lemma bind_inv {A B} (m : M A) (k : A -> M B) (tr : list Event) r :
  (m ≫= k) tr = Ok r -> exists a tr', m tr = Ok (a, tr') /\ k a tr' = Ok r.
Proof.
  unfold mbind, M_bind. destruct (m tr) as [[a tr']|]; [eauto|discriminate].
Qed.

(** ** GrClip *)

Section GrClipProperties.
Import GrClip.
Context `{GrClip.Env}.

Ltac run_m :=
  repeat (unfold mbind, mret, M_bind, M_ret, Res_bind, Res_ret, emit, lift,
            fault, SkRef, SkSafeRef, SkSafeUnref, SkASSERT; simpl).

Ltac clip_cases c :=
  let u := fresh "u" in let o := fresh "o" in let ty := fresh "ty" in
  destruct c as [u o ty]; destruct ty; destruct u as [|[?|]|?];
  unfold invariant, consistent in *; simpl in *;
  rewrite ?andb_false_r, ?andb_true_r in *; try discriminate.

Lemma GrClip_reset_ok (this : GrClip.t) (tr : list Event) :
  invariant this = true ->
  exists this',
    reset this tr = Ok (this', tr ++ released this) /\
    fClipType this' = kWideOpen_ClipType /\
    fOrigin this' = SkIPoint_zero /\
    invariant this' = true /\
    (forall a, fClip this' <> Clip_fStack (Some a)).
Proof.
  intros Hi. clip_cases this; unfold reset, released; simpl;
    eexists; (split; [cbn; rewrite ?app_nil_r; reflexivity|]);
    simpl; repeat split; auto; intros; discriminate.
Qed.

Lemma invariant_consistent (c : GrClip.t) :
  invariant c = true -> consistent c = true.
Proof. unfold invariant. intros Hc. apply andb_true_iff in Hc. tauto. Qed.

Lemma origin_ok (c : GrClip.t) :
  consistent c = true -> origin c = Ok (fOrigin c).
Proof.
  destruct c as [u [x y] ty]. unfold consistent, origin, SkIPoint_eq. simpl.
  destruct ty; simpl; auto.
  - intros Hc. apply andb_true_iff in Hc. destruct Hc as [-> ->]. reflexivity.
  - destruct u; try discriminate.
    intros Hc. apply andb_true_iff in Hc. destruct Hc as [-> ->]. reflexivity.
Qed.

Lemma setClipStack_ok (this : GrClip.t) (a : Addr) (o : option SkIPoint)
    (tr : list Event) :
  invariant this = true ->
  exists this',
    setClipStack (Some a) o this tr
    = Ok (this', tr ++ released this
                 ++ (if SkClipStack_isWideOpen a then []
                     else [EvRef (OClipStack a)])) /\
    invariant this' = true /\
    this' = (if SkClipStack_isWideOpen a
             then {| fClip := fClip this'; fOrigin := SkIPoint_zero;
                     fClipType := kWideOpen_ClipType |}
             else {| fClip := Clip_fStack (Some a);
                     fOrigin := default SkIPoint_zero o;
                     fClipType := kClipStack_ClipType |}).
Proof.
  intros Hi. destruct (GrClip_reset_ok this tr Hi) as (r & Hr & Hty & Ho & Hir & Hn).
  unfold setClipStack. rewrite (bind_ok _ _ _ _ _ Hr).
  destruct r as [u p ty]; simpl in *; subst.
  destruct (SkClipStack_isWideOpen a).
  - eexists. split; [cbn; rewrite app_nil_r; reflexivity|]. split; auto.
  - destruct o as [o|]; eexists; (split; [run_m; rewrite <- app_assoc; reflexivity|]);
      split; reflexivity.
Qed.

Lemma GrClip_assign_ok (other this : GrClip.t) (tr : list Event) :
  invariant this = true -> invariant other = true ->
  exists this',
    operator_assign other this tr
    = Ok (this', tr ++ released this ++ acquired other) /\
    invariant this' = true /\
    fClipType this' = fClipType other /\
    fOrigin this' = fOrigin other /\
    (fClipType other <> kWideOpen_ClipType -> fClip this' = fClip other).
Proof.
  intros Hi Ho. destruct (GrClip_reset_ok this tr Hi) as (r & Hr & Hty & Hz & Hir & Hn).
  unfold operator_assign. rewrite (bind_ok _ _ _ _ _ Hr).
  pose proof (origin_ok other (invariant_consistent _ Ho)) as Hoo.
  destruct r as [u p ty]; simpl in *; subst.
  clip_cases other; unfold acquired; simpl.
  all: unfold clipStack, irect; try rewrite Hoo; run_m.
  all: eexists; (split; [rewrite ?app_nil_r, <- ?app_assoc; reflexivity|]).
  all: simpl; repeat split; auto; try congruence.
  all: symmetry; apply SkIPoint_eq_spec; assumption.
Qed.




Lemma consistent_variant (c : GrClip.t) :
  consistent c = true -> exists v, variant c = Some v.
Proof.
  destruct c as [u o ty]; unfold consistent, variant; simpl.
  destruct ty, u; try discriminate; eauto.
Qed.

Lemma operator_eq_refines (a b : GrClip.t) (va vb : Variant) :
  consistent a = true -> consistent b = true ->
  variant a = Some va -> variant b = Some vb ->
  operator_eq a b = Ok (Variant_eq va vb).
Proof.
  intros Ha Hb Hva Hvb.
  pose proof (origin_ok a Ha) as Hoa. pose proof (origin_ok b Hb) as Hob.
  destruct a as [ua oa ta], b as [ub ob tb].
  unfold operator_eq, clipType, variant, consistent in *. simpl in *.
  destruct ta, tb; simpl; destruct ua, ub; try discriminate;
    injection Hva as <-; injection Hvb as <-; try reflexivity.
  unfold origin, clipStack. run_m.
  destruct (SkIPoint_eq oa ob); simpl; [|reflexivity].
  destruct s as [x|], s0 as [y|]; simpl; try reflexivity.
Qed.

Section Laws.
Context {HE : StackEquivalence}.

Lemma Variant_eq_refl v : Variant_eq v v = true.
Proof.
  destruct v as [|r|[s|] o]; simpl; auto using SkIRect_eq_refl.
  - rewrite SkIPoint_eq_refl, equal_refl. reflexivity.
  - rewrite SkIPoint_eq_refl. reflexivity.
Qed.

Lemma SkIPoint_eq_sym a b : SkIPoint_eq a b = SkIPoint_eq b a.
Proof. unfold SkIPoint_eq. rewrite (Z.eqb_sym (fX a)), (Z.eqb_sym (fY a)). reflexivity. Qed.

Lemma SkIRect_eq_sym a b : SkIRect_eq a b = SkIRect_eq b a.
Proof.
  unfold SkIRect_eq.
  rewrite (Z.eqb_sym (fLeft a)), (Z.eqb_sym (fTop a)), (Z.eqb_sym (fRight a)),
    (Z.eqb_sym (fBottom a)). reflexivity.
Qed.

Lemma Variant_eq_sym v w : Variant_eq v w = Variant_eq w v.
Proof.
  destruct v as [|r|[s|] o], w as [|r'|[s'|] o']; simpl; auto using SkIRect_eq_sym.
  all: rewrite (SkIPoint_eq_sym o o'); try reflexivity.
  rewrite (equal_sym s s'). reflexivity.
Qed.

Lemma Variant_eq_trans u v w :
  Variant_eq u v = true -> Variant_eq v w = true -> Variant_eq u w = true.
Proof.
  destruct u as [|r|[s|] o], v as [|r'|[s'|] o'], w as [|r''|[s''|] o''];
    simpl; try discriminate; auto;
    rewrite ?andb_true_iff, ?SkIPoint_eq_spec, ?SkIRect_eq_spec;
    intuition (try discriminate; try congruence; eauto using equal_trans).
Qed.

(** C6.  [operator==] is structural and an equivalence: on clips whose tag
    matches their payload it always answers, is reflexive, symmetric and
    transitive; different tags are unequal; two WideOpen clips are equal
    whatever the rest of their storage holds; two Rect clips are equal iff
    their bounds are; two Stack clips are equal iff their origins are equal
    and both pointers are NULL or both are non-NULL with equal contents. *)
Theorem operator_eq_structural_equivalence (a b c : GrClip.t) :
  consistent a = true -> consistent b = true -> consistent c = true ->
  (exists r, operator_eq a b = Ok r) /\
  operator_eq a a = Ok true /\
  operator_eq a b = operator_eq b a /\
  (operator_eq a b = Ok true -> operator_eq b c = Ok true ->
   operator_eq a c = Ok true) /\
  (clipType a <> clipType b -> operator_eq a b = Ok false) /\
  (clipType a = kWideOpen_ClipType -> clipType b = kWideOpen_ClipType ->
   operator_eq a b = Ok true) /\
  (forall ra rb, irect a = Ok ra -> irect b = Ok rb ->
     (operator_eq a b = Ok true <-> ra = rb)) /\
  (forall sa sb oa ob,
     clipStack a = Ok sa -> clipStack b = Ok sb ->
     origin a = Ok oa -> origin b = Ok ob ->
     (operator_eq a b = Ok true <->
      oa = ob /\
      ((sa = None /\ sb = None) \/
       (exists x y, sa = Some x /\ sb = Some y /\
                    SkClipStack_equal x y = true)))).
Proof.
  intros Ha Hb Hc.
  destruct (consistent_variant a Ha) as [va Hva].
  destruct (consistent_variant b Hb) as [vb Hvb].
  destruct (consistent_variant c Hc) as [vc Hvc].
  rewrite (operator_eq_refines a b va vb), (operator_eq_refines a a va va),
    (operator_eq_refines b a vb va), (operator_eq_refines b c vb vc),
    (operator_eq_refines a c va vc) by assumption.
  split; [eauto|]. split; [rewrite Variant_eq_refl; reflexivity|].
  split; [rewrite Variant_eq_sym; reflexivity|].
  split.
  { intros E1 E2. injection E1 as E1. injection E2 as E2.
    rewrite (Variant_eq_trans va vb vc); auto. }
  pose proof (origin_ok a Ha) as Hoa. pose proof (origin_ok b Hb) as Hob.
  destruct a as [ua oa ta], b as [ub ob tb].
  unfold clipType, variant, consistent, clipStack, irect in *. simpl in *.
  split.
  { destruct ta, tb, ua, ub; try discriminate; try congruence;
      injection Hva as <-; injection Hvb as <-; reflexivity. }
  split.
  { intros -> ->. injection Hva as <-; injection Hvb as <-; reflexivity. }
  split.
  { intros ra rb. destruct ta, ua; simpl; try discriminate;
      destruct tb, ub; simpl; try discriminate.
    intros [= <-] [= <-]. injection Hva as <-; injection Hvb as <-. simpl.
    rewrite <- SkIRect_eq_spec. split; congruence. }
  intros sa sb oa' ob'. rewrite Hoa, Hob.
  destruct ta, ua; simpl; try discriminate;
    destruct tb, ub; simpl; try discriminate.
  intros [= <-] [= <-] [= <-] [= <-]. injection Hva as <-; injection Hvb as <-.
  simpl. rewrite <- SkIPoint_eq_spec.
  destruct (SkIPoint_eq oa ob); simpl.
  - destruct s as [x|], s0 as [y|]; split.
    + intros [= E]. split; [reflexivity|]. right. eauto.
    + intros [_ [[? _]|(x' & y' & [= <-] & [= <-] & E)]]; [discriminate|].
      rewrite E. reflexivity.
    + discriminate.
    + intros [_ [[? _]|(x' & y' & _ & ? & _)]]; discriminate.
    + discriminate.
    + intros [_ [[_ ?]|(x' & y' & ? & _ & _)]]; discriminate.
    + auto.
    + reflexivity.
  - split; [discriminate|]. intros [? _]; discriminate.
Qed.

End Laws.


(** C7.  [isWideOpen()] is true iff the clip is WideOpen, or a Stack whose
    region reports wide open; the two overloads with a rectangle are true
    iff, in addition to these, the clip is a Rect whose bounds contain the
    candidate. *)
Theorem isWideOpen_iff (c : GrClip.t) (candidate : SkIRect) (scalar : SkRect) :
  invariant c = true ->
  (exists r, isWideOpen c = Ok r) /\
  (isWideOpen c = Ok true <->
   clipType c = kWideOpen_ClipType \/ stackReportsWideOpen c) /\
  (exists r, isWideOpen_SkIRect candidate c = Ok r) /\
  (isWideOpen_SkIRect candidate c = Ok true <->
   clipType c = kWideOpen_ClipType \/ stackReportsWideOpen c \/
   rectContains SkIRect_contains_SkIRect c candidate) /\
  (exists r, isWideOpen_SkRect scalar c = Ok r) /\
  (isWideOpen_SkRect scalar c = Ok true <->
   clipType c = kWideOpen_ClipType \/ stackReportsWideOpen c \/
   rectContains SkIRect_contains_SkRect c scalar).
Proof.
  intros Hi.
  unfold isWideOpen, isWideOpen_SkIRect, isWideOpen_SkRect, stackReportsWideOpen,
    rectContains, clipStack_isWideOpen, clipStack, irect, clipType.
  clip_cases c; run_m.
  all: repeat match goal with
              | |- context [Ok (SkClipStack_isWideOpen ?n)] =>
                  destruct (SkClipStack_isWideOpen n) eqn:?
              | |- context [Ok (SkIRect_contains_SkIRect ?a ?b)] =>
                  destruct (SkIRect_contains_SkIRect a b) eqn:?
              | |- context [Ok (SkIRect_contains_SkRect ?a ?b)] =>
                  destruct (SkIRect_contains_SkRect a b) eqn:?
              end.
  all: repeat split; eauto; try discriminate; firstorder congruence.
Qed.
End GrClipProperties.

#[export] Instance exampleEnv_equivalence :
  @GrClip.StackEquivalence GrClip.exampleEnv.
Proof.
  split; simpl.
  - intros a. apply N.eqb_refl.
  - intros a b. apply N.eqb_sym.
  - intros a b c. rewrite !N.eqb_eq. congruence.
Qed.

(** Scenario 3: two clips built independently from the rectangle
    (0, 0, 10, 10) are equal; one built from (0, 0, 10, 11) is not. *)
Example rect_clips_compare_by_bounds :
  GrClip.operator_eq (H := GrClip.exampleEnv)
    (GrClip.GrClip_SkIRect (GrClip.exampleRect 0 0 10 10))
    (GrClip.GrClip_SkIRect (GrClip.exampleRect 0 0 10 10)) = Ok true /\
  GrClip.operator_eq (H := GrClip.exampleEnv)
    (GrClip.GrClip_SkIRect (GrClip.exampleRect 0 0 10 10))
    (GrClip.GrClip_SkIRect (GrClip.exampleRect 0 0 10 11)) = Ok false.
Proof. split; reflexivity. Qed.


Lemma operator_eq_structural_equivalence_witness :
  GrClip.consistent (GrClip.exampleStack 2 1 1) = true /\
  GrClip.consistent (GrClip.exampleStack 3 1 1) = true /\
  GrClip.operator_eq (H := GrClip.exampleEnv)
    (GrClip.exampleStack 2 1 1) (GrClip.exampleStack 3 1 1)
  = GrClip.operator_eq (H := GrClip.exampleEnv)
      (GrClip.exampleStack 3 1 1) (GrClip.exampleStack 2 1 1).
Proof.
  split; [reflexivity|]. split; [reflexivity|].
  destruct (operator_eq_structural_equivalence (H := GrClip.exampleEnv)
              (GrClip.exampleStack 2 1 1) (GrClip.exampleStack 3 1 1)
              (GrClip.exampleStack 2 1 1) eq_refl eq_refl eq_refl)
    as (_ & _ & Hsym & _).
  exact Hsym.
Defined.

Lemma isWideOpen_iff_witness :
  GrClip.invariant (GrClip.GrClip_SkIRect (GrClip.exampleRect 0 0 10 10)) = true /\
  exists res,
    GrClip.isWideOpen_SkIRect (H := GrClip.exampleEnv)
      (GrClip.exampleRect 1 1 5 5)
      (GrClip.GrClip_SkIRect (GrClip.exampleRect 0 0 10 10))
    = Ok res.
Proof.
  split; [reflexivity|].
  destruct (isWideOpen_iff (H := GrClip.exampleEnv)
              (GrClip.GrClip_SkIRect (GrClip.exampleRect 0 0 10 10))
              (GrClip.exampleRect 1 1 5 5) (GrClip.exampleRect 1 1 5 5)
              eq_refl)
    as (_ & _ & Hr & _).
  exact Hr.
Defined.

(** ** GrPipelineBuilder *)

Section BuilderProperties.
Import GrPipelineBuilder.
Context `{GrPipelineBuilder.Env}.

(** *** State flags *)

Lemma uint32_high_bits (x : Z) (i : Z) :
  uint32 x -> 32 <= i -> Z.testbit x i = false.
Proof.
  intros Hx Hi. rewrite <- (Z.mod_small x (2 ^ 32)) by exact Hx.
  apply Z.mod_pow2_bits_high. lia.
Qed.

Lemma uint32_of_bits (x : Z) :
  0 <= x -> (forall i, 32 <= i -> Z.testbit x i = false) -> uint32 x.
Proof.
  intros Hx Hb. assert (E : x = x mod 2 ^ 32).
  { apply Z.bits_inj'. intros i Hi.
    destruct (Z_lt_le_dec i 32).
    - rewrite Z.mod_pow2_bits_low by lia. reflexivity.
    - rewrite Z.mod_pow2_bits_high by lia. apply Hb. lia. }
  rewrite E. apply Z.mod_pos_bound. lia.
Qed.

Lemma land_not32 (flags bits : Z) :
  uint32 flags -> Z.land flags (not32 bits) = Z.land flags (Z.lnot bits).
Proof.
  intros Hf. apply Z.bits_inj'. intros i Hi. rewrite !Z.land_spec. unfold not32.
  destruct (Z_lt_le_dec i 32).
  - rewrite Z.mod_pow2_bits_low by lia. reflexivity.
  - rewrite (uint32_high_bits flags i) by (auto; lia). reflexivity.
Qed.

(** C8.  The state-flag setters are total functions of any 32-bit mask:
    [enableState] leaves [flags | bits], [disableState] leaves
    [flags & ~bits], [setState] is one or the other according to its
    boolean, every bit position of the mask takes part whether or not it is
    a defined StateBit, the result is again a 32-bit value, and nothing else
    in the builder changes. *)
Theorem state_flags_accept_any_mask (this : t) (bits : Z) :
  uint32 (fFlagBits this) -> uint32 bits ->
  fFlagBits (enableState bits this) = Z.lor (fFlagBits this) bits /\
  fFlagBits (disableState bits this) = Z.land (fFlagBits this) (Z.lnot bits) /\
  setState bits true this = enableState bits this /\
  setState bits false this = disableState bits this /\
  (forall i, 0 <= i ->
     Z.testbit (fFlagBits (enableState bits this)) i
     = Z.testbit (fFlagBits this) i || Z.testbit bits i) /\
  (forall i, 0 <= i ->
     Z.testbit (fFlagBits (disableState bits this)) i
     = Z.testbit (fFlagBits this) i && negb (Z.testbit bits i)) /\
  uint32 (fFlagBits (enableState bits this)) /\
  uint32 (fFlagBits (disableState bits this)) /\
  enableState bits this = set_fFlagBits (fFlagBits (enableState bits this)) this /\
  disableState bits this = set_fFlagBits (fFlagBits (disableState bits this)) this.
Proof.
  intros Hf Hb.
  assert (Hd : fFlagBits (disableState bits this)
               = Z.land (fFlagBits this) (Z.lnot bits)).
  { unfold disableState. simpl. apply land_not32, Hf. }
  assert (He : fFlagBits (enableState bits this) = Z.lor (fFlagBits this) bits)
    by reflexivity.
  split; [exact He|]. split; [exact Hd|].
  split; [reflexivity|]. split; [reflexivity|].
  rewrite He, Hd.
  split; [intros i Hi; apply Z.lor_spec|].
  split; [intros i Hi; rewrite Z.land_spec, Z.lnot_spec by lia; reflexivity|].
  split.
  { apply uint32_of_bits.
    - apply Z.lor_nonneg. unfold uint32 in *. lia.
    - intros i Hi. rewrite Z.lor_spec, !uint32_high_bits by auto. reflexivity. }
  split.
  { apply uint32_of_bits.
    - apply Z.land_nonneg. unfold uint32 in *. lia.
    - intros i Hi. rewrite Z.land_spec, (uint32_high_bits _ _ Hf) by auto.
      reflexivity. }
  split.
  - rewrite <- He. reflexivity.
  - rewrite <- Hd. reflexivity.
Qed.


(** *** Sequences of calls *)

Ltac run_b :=
  repeat (unfold mbind, mret, M_bind, M_ret, Res_bind, Res_ret, emit, lift,
            fault, SkRef, SkSafeRef, SkSafeUnref, SkASSERT,
            GrFragmentStage_ctor, GrFragmentStage_dtor, XPFactory_Create,
            SimpleTextureEffect_Create, fXPFactory_reset, fRenderTarget_reset;
          simpl).

Lemma calcColor_coherent (seed : Z) (this : t) :
  cacheCoherent this -> cacheCoherent (calcColorInvariantOutput seed this).
Proof.
  intros [Hc Hv]. unfold calcColorInvariantOutput.
  destruct (fColorProcInfoValid this && (fColorCache this =? seed)); [split; auto|].
  split; simpl; auto.
Qed.

Lemma calcCoverage_coherent (seed : Z) (this : t) :
  cacheCoherent this -> cacheCoherent (calcCoverageInvariantOutput seed this).
Proof.
  intros [Hc Hv]. unfold calcCoverageInvariantOutput.
  destruct (fCoverageProcInfoValid this && (fCoverageCache this =? seed));
    [split; auto|].
  split; simpl; auto.
Qed.

Lemma calcColor_frame (seed : Z) (this : t) :
  let this' := calcColorInvariantOutput seed this in
  fXPFactory this' = fXPFactory this /\
  fColorStages this' = fColorStages this /\
  fCoverageStages this' = fCoverageStages this /\
  fBlockEffectRemovalCnt this' = fBlockEffectRemovalCnt this.
Proof.
  unfold calcColorInvariantOutput.
  destruct (fColorProcInfoValid this && (fColorCache this =? seed)); simpl; auto.
Qed.

Lemma calcCoverage_frame (seed : Z) (this : t) :
  let this' := calcCoverageInvariantOutput seed this in
  fXPFactory this' = fXPFactory this /\
  fColorStages this' = fColorStages this /\
  fCoverageStages this' = fCoverageStages this /\
  fBlockEffectRemovalCnt this' = fBlockEffectRemovalCnt this.
Proof.
  unfold calcCoverageInvariantOutput.
  destruct (fCoverageProcInfoValid this && (fCoverageCache this =? seed));
    simpl; auto.
Qed.

Lemma getXPFactory_cached (this : t) (f : GrXPFactory) (tr : list Event) :
  fXPFactory this = Some f -> getXPFactory this tr = Ok (Some f, this, tr).
Proof. intros E. unfold getXPFactory. rewrite E. run_b. rewrite E. reflexivity. Qed.

Lemma getXPFactory_first (this : t) (tr : list Event) :
  fXPFactory this = None ->
  getXPFactory this tr
  = Ok (Some (GrPorterDuffXPFactory_Create kSrc_Mode),
        set_fXPFactory (Some (GrPorterDuffXPFactory_Create kSrc_Mode)) this,
        tr ++ [EvCreate (OXPFactory (GrPorterDuffXPFactory_Create kSrc_Mode))]).
Proof. intros E. unfold getXPFactory. rewrite E. run_b. rewrite E. reflexivity. Qed.

(** An append: the stages held move if the array reallocates, then the new
    stage takes its reference. *)
Lemma copyAndDelete_ok (l : list GrFragmentStage) (tr : list Event) :
  copyAndDelete l tr = Ok (tt, tr ++ moveEvents l).
Proof.
  revert tr. induction l as [|st l IH]; intros tr.
  - simpl. run_b. rewrite app_nil_r. reflexivity.
  - simpl. run_b. fold (copyAndDelete l). rewrite IH, <- !app_assoc.
    reflexivity.
Qed.

Lemma moveEvents_no_create (l : list GrFragmentStage) :
  existsb createsXPFactory (moveEvents l) = false.
Proof. induction l as [|st l IH]; [reflexivity|exact IH]. Qed.

Lemma appendMoves_no_create (alloc : Z) (l : list GrFragmentStage) :
  existsb createsXPFactory (appendMoves alloc l) = false.
Proof.
  unfold appendMoves. destruct (reallocates _ _); [|reflexivity].
  apply moveEvents_no_create.
Qed.

Lemma push_back_raw_ok (alloc : Z) (l : list GrFragmentStage)
    (tr : list Event) :
  push_back_raw alloc l tr
  = Ok (SkTArray_checkRealloc alloc (Z.of_nat (length l) + 1),
        tr ++ appendMoves alloc l).
Proof.
  unfold push_back_raw, appendMoves.
  destruct (reallocates alloc (Z.of_nat (length l))).
  - rewrite (bind_ok _ _ _ _ _ (copyAndDelete_ok l tr)). reflexivity.
  - run_b. rewrite app_nil_r. reflexivity.
Qed.

Lemma addColorProcessor_eq (e : GrFragmentProcessor) (this : t)
    (tr : list Event) :
  addColorProcessor (Some e) this tr
  = Ok (Some e,
        set_fColorProcInfoValid false
          (set_fColorStages (fColorStages this ++ [{| fProc := e |}])
             (set_fColorStages_fAllocCount
                (SkTArray_checkRealloc (fColorStages_fAllocCount this)
                   (numColorStages this + 1)) this)),
        tr ++ appendMoves (fColorStages_fAllocCount this) (fColorStages this)
           ++ [EvRef (OProcessor e)]).
Proof.
  unfold addColorProcessor. run_b.
  rewrite push_back_raw_ok. run_b.
  rewrite <- app_assoc. reflexivity.
Qed.

Lemma addCoverageProcessor_eq (e : GrFragmentProcessor) (this : t)
    (tr : list Event) :
  addCoverageProcessor (Some e) this tr
  = Ok (Some e,
        set_fCoverageProcInfoValid false
          (set_fCoverageStages (fCoverageStages this ++ [{| fProc := e |}])
             (set_fCoverageStages_fAllocCount
                (SkTArray_checkRealloc (fCoverageStages_fAllocCount this)
                   (numCoverageStages this + 1)) this)),
        tr ++ appendMoves (fCoverageStages_fAllocCount this)
                (fCoverageStages this)
           ++ [EvRef (OProcessor e)]).
Proof.
  unfold addCoverageProcessor. run_b.
  rewrite push_back_raw_ok. run_b.
  rewrite <- app_assoc. reflexivity.
Qed.

(** What one call of the sequence does to the parts of the builder that the
    properties below follow. *)
Lemma step_ok (op : Op) (this : t) (tr : list Event) :
  exists this' ev,
    step op this tr = Ok (this', tr ++ ev) /\
    (forall f, fXPFactory this = Some f ->
               fXPFactory this' = Some f /\ existsb createsXPFactory ev = false) /\
    (cacheCoherent this -> cacheCoherent this') /\
    (exists c, fColorStages this' = fColorStages this ++ c) /\
    (exists c, fCoverageStages this' = fCoverageStages this ++ c) /\
    fBlockEffectRemovalCnt this' = fBlockEffectRemovalCnt this.
Proof.
  destruct op; unfold step.
  - eexists. eexists.
    split; [rewrite (bind_ok _ _ _ _ _ (addColorProcessor_eq effect this tr));
            reflexivity|].
    simpl. split.
    { intros f Hf. split; [exact Hf|].
      rewrite existsb_app, appendMoves_no_create. reflexivity. }
    split; [intros [_ Hv]; split; [discriminate|exact Hv]|].
    split; [eauto|]. split; [exists []; rewrite app_nil_r; reflexivity|reflexivity].
  - eexists. eexists.
    split; [rewrite (bind_ok _ _ _ _ _ (addCoverageProcessor_eq effect this tr));
            reflexivity|].
    simpl. split.
    { intros f Hf. split; [exact Hf|].
      rewrite existsb_app, appendMoves_no_create. reflexivity. }
    split; [intros [Hc _]; split; [exact Hc|discriminate]|].
    split; [exists []; rewrite app_nil_r; reflexivity|]. split; [eauto|reflexivity].
  - eexists. eexists. split.
    { unfold addColorTextureProcessor. run_b.
      rewrite addColorProcessor_eq. run_b.
      rewrite <- !app_assoc. reflexivity. }
    simpl. split.
    { intros f Hf. split; [exact Hf|].
      rewrite existsb_app, appendMoves_no_create. reflexivity. }
    split; [intros [_ Hv]; split; [discriminate|exact Hv]|].
    split; [eauto|]. split; [exists []; rewrite app_nil_r; reflexivity|reflexivity].
  - eexists. eexists. split.
    { unfold addCoverageTextureProcessor. run_b.
      rewrite addCoverageProcessor_eq. run_b.
      rewrite <- !app_assoc. reflexivity. }
    simpl. split.
    { intros f Hf. split; [exact Hf|].
      rewrite existsb_app, appendMoves_no_create. reflexivity. }
    split; [intros [Hc _]; split; [exact Hc|discriminate]|].
    split; [exists []; rewrite app_nil_r; reflexivity|]. split; [eauto|reflexivity].
  - exists (enableState stateBits this), [].
    split; [run_b; rewrite app_nil_r; reflexivity|]. simpl.
    split; [auto|]. split; [auto|].
    split; [exists []; rewrite app_nil_r; reflexivity|].
    split; [exists []; rewrite app_nil_r; reflexivity|reflexivity].
  - exists (disableState stateBits this), [].
    split; [run_b; rewrite app_nil_r; reflexivity|]. simpl.
    split; [auto|]. split; [auto|].
    split; [exists []; rewrite app_nil_r; reflexivity|].
    split; [exists []; rewrite app_nil_r; reflexivity|reflexivity].
  - exists (calcColorInvariantOutput (primProcSeed pp) this), [].
    split; [run_b; rewrite app_nil_r; reflexivity|].
    destruct (calcColor_frame (primProcSeed pp) this) as (E1 & E2 & E3 & E4).
    rewrite E1, E2, E3, E4.
    split; [auto|]. split; [apply calcColor_coherent|].
    split; [exists []; rewrite app_nil_r; reflexivity|].
    split; [exists []; rewrite app_nil_r; reflexivity|reflexivity].
  - exists (calcCoverageInvariantOutput (primProcSeed pp) this), [].
    split; [run_b; rewrite app_nil_r; reflexivity|].
    destruct (calcCoverage_frame (primProcSeed pp) this) as (E1 & E2 & E3 & E4).
    rewrite E1, E2, E3, E4.
    split; [auto|]. split; [apply calcCoverage_coherent|].
    split; [exists []; rewrite app_nil_r; reflexivity|].
    split; [exists []; rewrite app_nil_r; reflexivity|reflexivity].
  - exists (calcColorInvariantOutput (batchSeed batch) this), [].
    split; [run_b; rewrite app_nil_r; reflexivity|].
    destruct (calcColor_frame (batchSeed batch) this) as (E1 & E2 & E3 & E4).
    rewrite E1, E2, E3, E4.
    split; [auto|]. split; [apply calcColor_coherent|].
    split; [exists []; rewrite app_nil_r; reflexivity|].
    split; [exists []; rewrite app_nil_r; reflexivity|reflexivity].
  - exists (calcCoverageInvariantOutput (batchSeed batch) this), [].
    split; [run_b; rewrite app_nil_r; reflexivity|].
    destruct (calcCoverage_frame (batchSeed batch) this) as (E1 & E2 & E3 & E4).
    rewrite E1, E2, E3, E4.
    split; [auto|]. split; [apply calcCoverage_coherent|].
    split; [exists []; rewrite app_nil_r; reflexivity|].
    split; [exists []; rewrite app_nil_r; reflexivity|reflexivity].
  - destruct (fXPFactory this) as [f|] eqn:E.
    + exists this, []. rewrite (bind_ok _ _ _ _ _ (getXPFactory_cached this f tr E)).
      split; [run_b; rewrite app_nil_r; reflexivity|].
      split; [intros f' Hf'; split; [congruence|reflexivity]|]. split; [auto|].
      split; [exists []; rewrite app_nil_r; reflexivity|].
      split; [exists []; rewrite app_nil_r; reflexivity|reflexivity].
    + eexists. eexists. rewrite (bind_ok _ _ _ _ _ (getXPFactory_first this tr E)).
      split; [run_b; reflexivity|]. simpl.
      split; [intros f' Hf'; discriminate|]. split; [auto|].
      split; [exists []; rewrite app_nil_r; reflexivity|].
      split; [exists []; rewrite app_nil_r; reflexivity|reflexivity].
Qed.

Lemma run_ok (ops : list Op) (this : t) (tr : list Event) :
  exists this' ev,
    run ops this tr = Ok (this', tr ++ ev) /\
    (forall f, fXPFactory this = Some f ->
               fXPFactory this' = Some f /\ existsb createsXPFactory ev = false) /\
    (cacheCoherent this -> cacheCoherent this') /\
    (exists c, fColorStages this' = fColorStages this ++ c) /\
    (exists c, fCoverageStages this' = fCoverageStages this ++ c) /\
    fBlockEffectRemovalCnt this' = fBlockEffectRemovalCnt this.
Proof.
  revert this tr. induction ops as [|op ops IH]; intros this tr.
  - exists this, []. split; [simpl; run_b; rewrite app_nil_r; reflexivity|].
    split; [auto|]. split; [auto|].
    split; [exists []; rewrite app_nil_r; reflexivity|].
    split; [exists []; rewrite app_nil_r; reflexivity|reflexivity].
  - destruct (step_ok op this tr) as (b1 & ev1 & Hs & Hx1 & Hc1 & [c1 Hk1] & [v1 Hv1] & Hn1).
    destruct (IH b1 (tr ++ ev1)) as (b2 & ev2 & Hr & Hx2 & Hc2 & [c2 Hk2] & [v2 Hv2] & Hn2).
    exists b2, (ev1 ++ ev2). simpl. rewrite (bind_ok _ _ _ _ _ Hs), Hr.
    split; [rewrite app_assoc; reflexivity|].
    split.
    { intros f Hf. destruct (Hx1 f Hf) as [Hf1 He1].
      destruct (Hx2 f Hf1) as [Hf2 He2]. split; [exact Hf2|].
      rewrite existsb_app, He1, He2. reflexivity. }
    split; [auto|].
    split; [exists (c1 ++ c2); rewrite Hk2, Hk1, app_assoc; reflexivity|].
    split; [exists (v1 ++ v2); rewrite Hv2, Hv1, app_assoc; reflexivity|].
    congruence.
Qed.

(** *** The transfer-processor factory *)

(** C1, as the code has it.  On a builder whose factory was never set, the
    first [getXPFactory] creates the Porter-Duff factory for
    [SkXfermode::kSrc_Mode], stores it and returns it (non-NULL).  From then
    on, through any sequence of stage additions, flag changes, cache reads
    and further [getXPFactory] calls, every [getXPFactory] returns that same
    factory, leaves the builder and the trace as they are, and no factory is
    created in between. *)
Theorem getXPFactory_default_is_cached (this : t) (tr : list Event)
    (ops : list Op) :
  fXPFactory this = None ->
  exists this1,
    getXPFactory this tr
    = Ok (Some (GrPorterDuffXPFactory_Create kSrc_Mode), this1,
          tr ++ [EvCreate (OXPFactory (GrPorterDuffXPFactory_Create kSrc_Mode))]) /\
    fXPFactory this1 = Some (GrPorterDuffXPFactory_Create kSrc_Mode) /\
    (forall tr1,
       getXPFactory this1 tr1
       = Ok (Some (GrPorterDuffXPFactory_Create kSrc_Mode), this1, tr1)) /\
    exists this2 ev,
      run ops this1 (tr ++ [EvCreate (OXPFactory (GrPorterDuffXPFactory_Create kSrc_Mode))])
      = Ok (this2,
            (tr ++ [EvCreate (OXPFactory (GrPorterDuffXPFactory_Create kSrc_Mode))])
            ++ ev) /\
      existsb createsXPFactory ev = false /\
      (forall tr2,
         getXPFactory this2 tr2
         = Ok (Some (GrPorterDuffXPFactory_Create kSrc_Mode), this2, tr2)).
Proof.
  intros E. eexists. split; [apply getXPFactory_first, E|].
  split; [reflexivity|].
  split; [intros tr1; apply getXPFactory_cached; reflexivity|].
  destruct (run_ok ops
              (set_fXPFactory (Some (GrPorterDuffXPFactory_Create kSrc_Mode)) this)
              (tr ++ [EvCreate (OXPFactory (GrPorterDuffXPFactory_Create kSrc_Mode))]))
    as (b2 & ev & Hr & Hx & _).
  destruct (Hx _ eq_refl) as [Hf He].
  exists b2, ev. split; [exact Hr|]. split; [exact He|].
  intros tr2. apply getXPFactory_cached, Hf.
Qed.


(** *** The invariant-analysis cache *)

Lemma addColorProcessor_ok (e : GrFragmentProcessor) (this : t)
    (tr : list Event) :
  exists b ev,
    addColorProcessor (Some e) this tr = Ok (Some e, b, tr ++ ev) /\
    fColorProcInfoValid b = false /\
    fCoverageProcInfoValid b = fCoverageProcInfoValid this /\
    fColorStages b = fColorStages this ++ [{| fProc := e |}] /\
    fCoverageStages b = fCoverageStages this /\
    (cacheCoherent this -> cacheCoherent b).
Proof.
  eexists. eexists. split; [apply addColorProcessor_eq|].
  simpl. split; [reflexivity|]. split; [reflexivity|]. split; [reflexivity|].
  split; [reflexivity|]. intros [_ Hv]. split; [discriminate|exact Hv].
Qed.

Lemma addCoverageProcessor_ok (e : GrFragmentProcessor) (this : t)
    (tr : list Event) :
  exists b ev,
    addCoverageProcessor (Some e) this tr = Ok (Some e, b, tr ++ ev) /\
    fCoverageProcInfoValid b = false /\
    fColorProcInfoValid b = fColorProcInfoValid this /\
    fCoverageStages b = fCoverageStages this ++ [{| fProc := e |}] /\
    fColorStages b = fColorStages this /\
    (cacheCoherent this -> cacheCoherent b).
Proof.
  eexists. eexists. split; [apply addCoverageProcessor_eq|].
  simpl. split; [reflexivity|]. split; [reflexivity|]. split; [reflexivity|].
  split; [reflexivity|]. intros [Hc _]. split; [exact Hc|discriminate].
Qed.

Lemma calcColor_fresh (seed : Z) (this : t) :
  cacheCoherent this ->
  fColorProcInfo (calcColorInvariantOutput seed this)
  = invariantOutput (fColorStages this) seed /\
  fColorProcInfoValid (calcColorInvariantOutput seed this) = true /\
  fColorCache (calcColorInvariantOutput seed this) = seed.
Proof.
  intros [Hc _]. unfold calcColorInvariantOutput.
  destruct (fColorProcInfoValid this) eqn:Ev; simpl; auto.
  destruct (fColorCache this =? seed) eqn:Es; simpl; auto.
  apply Z.eqb_eq in Es. rewrite Ev, <- Es. auto.
Qed.

Lemma calcCoverage_fresh (seed : Z) (this : t) :
  cacheCoherent this ->
  fCoverageProcInfo (calcCoverageInvariantOutput seed this)
  = invariantOutput (fCoverageStages this) seed /\
  fCoverageProcInfoValid (calcCoverageInvariantOutput seed this) = true /\
  fCoverageCache (calcCoverageInvariantOutput seed this) = seed.
Proof.
  intros [_ Hc]. unfold calcCoverageInvariantOutput.
  destruct (fCoverageProcInfoValid this) eqn:Ev; simpl; auto.
  destruct (fCoverageCache this =? seed) eqn:Es; simpl; auto.
  apply Z.eqb_eq in Es. rewrite Ev, <- Es. auto.
Qed.

(** C3.  Every append sets the validity flag of the matching slot to false
    (the texture overloads through the call they delegate to), whatever the
    chain's array does to make room for the new stage.  Hence, after
    any sequence of additions, flag changes and reads from a builder whose
    valid slots are accurate, the slots are still accurate; a read with any
    seed returns the analysis of the chain as it is at that moment; and a
    result read before an addition is never reported valid after it: the
    slot is invalid until the next read recomputes it for the longer
    chain. *)
Theorem cache_never_stale (this : t) (ops : list Op) (tr : list Event) :
  cacheCoherent this ->
  exists this' ev,
    run ops this tr = Ok (this', tr ++ ev) /\
    cacheCoherent this' /\
    (forall seed,
       fColorProcInfo (calcColorInvariantOutput seed this')
       = invariantOutput (fColorStages this') seed /\
       fCoverageProcInfo (calcCoverageInvariantOutput seed this')
       = invariantOutput (fCoverageStages this') seed) /\
    (forall pp,
       fst (colorProcInfo pp this')
       = invariantOutput (fColorStages this') (primProcSeed pp) /\
       fst (coverageProcInfo pp this')
       = invariantOutput (fCoverageStages this') (primProcSeed pp)) /\
    (forall batch,
       fst (colorProcInfo_batch batch this')
       = invariantOutput (fColorStages this') (batchSeed batch) /\
       fst (coverageProcInfo_batch batch this')
       = invariantOutput (fCoverageStages this') (batchSeed batch)) /\
    (forall seed e tr1,
       exists b ev1,
         addColorProcessor (Some e) (calcColorInvariantOutput seed this') tr1
         = Ok (Some e, b, tr1 ++ ev1) /\
         fColorProcInfoValid (calcColorInvariantOutput seed this') = true /\
         fColorProcInfoValid b = false /\
         fColorProcInfo (calcColorInvariantOutput seed b)
         = invariantOutput (fColorStages this' ++ [{| fProc := e |}]) seed) /\
    (forall seed e tr1,
       exists b ev1,
         addCoverageProcessor (Some e) (calcCoverageInvariantOutput seed this') tr1
         = Ok (Some e, b, tr1 ++ ev1) /\
         fCoverageProcInfoValid (calcCoverageInvariantOutput seed this') = true /\
         fCoverageProcInfoValid b = false /\
         fCoverageProcInfo (calcCoverageInvariantOutput seed b)
         = invariantOutput (fCoverageStages this' ++ [{| fProc := e |}]) seed) /\
    (forall texture matrix params tr1,
       exists b ev1,
         addColorTextureProcessor texture matrix params this' tr1
         = Ok (b, tr1 ++ ev1) /\
         fColorProcInfoValid b = false) /\
    (forall texture matrix params tr1,
       exists b ev1,
         addCoverageTextureProcessor texture matrix params this' tr1
         = Ok (b, tr1 ++ ev1) /\
         fCoverageProcInfoValid b = false).
Proof.
  intros Hc.
  destruct (run_ok ops this tr) as (b & ev & Hr & _ & Hcb & _).
  specialize (Hcb Hc). exists b, ev. split; [exact Hr|]. split; [exact Hcb|].
  split.
  { intros seed. split; [apply calcColor_fresh|apply calcCoverage_fresh]; auto. }
  split.
  { intros pp. split; [apply calcColor_fresh|apply calcCoverage_fresh]; auto. }
  split.
  { intros batch. split; [apply calcColor_fresh|apply calcCoverage_fresh]; auto. }
  split.
  { intros seed e tr1.
    destruct (addColorProcessor_ok e (calcColorInvariantOutput seed b) tr1)
      as (b2 & ev1 & Ha & Hv & _ & Hs & _ & Hc2).
    exists b2, ev1. split; [exact Ha|].
    split; [apply calcColor_fresh; auto|]. split; [exact Hv|].
    destruct (calcColor_fresh seed b2) as (Hf & _).
    { apply Hc2, calcColor_coherent, Hcb. }
    rewrite Hf, Hs.
    destruct (calcColor_frame seed b) as (_ & -> & _). reflexivity. }
  split.
  { intros seed e tr1.
    destruct (addCoverageProcessor_ok e (calcCoverageInvariantOutput seed b) tr1)
      as (b2 & ev1 & Ha & Hv & _ & Hs & _ & Hc2).
    exists b2, ev1. split; [exact Ha|].
    split; [apply calcCoverage_fresh; auto|]. split; [exact Hv|].
    destruct (calcCoverage_fresh seed b2) as (Hf & _).
    { apply Hc2, calcCoverage_coherent, Hcb. }
    rewrite Hf, Hs.
    destruct (calcCoverage_frame seed b) as (_ & _ & -> & _). reflexivity. }
  split.
  - intros texture matrix params tr1. eexists. eexists. split.
    + unfold addColorTextureProcessor. run_b.
      rewrite addColorProcessor_eq. run_b.
      rewrite <- !app_assoc. reflexivity.
    + reflexivity.
  - intros texture matrix params tr1. eexists. eexists. split.
    + unfold addCoverageTextureProcessor. run_b.
      rewrite addCoverageProcessor_eq. run_b.
      rewrite <- !app_assoc. reflexivity.
    + reflexivity.
Qed.


(** *** Copy-assignment *)

Lemma release_stages_ok (l : list GrFragmentStage) (tr : list Event) :
  release_stages l tr = Ok (tt, tr ++ stageUnrefs l).
Proof.
  revert tr. induction l as [|st l IH]; intros tr; simpl.
  - run_b. rewrite app_nil_r. reflexivity.
  - run_b. fold (release_stages l). rewrite IH.
    rewrite <- app_assoc. reflexivity.
Qed.







End BuilderProperties.

Lemma state_flags_accept_any_mask_witness :
  GrPipelineBuilder.fFlagBits
    (GrPipelineBuilder.enableState (H := GrPipelineBuilder.exampleEnv) 0x80000004
       (GrPipelineBuilder.enableState 0x01 GrPipelineBuilder.GrPipelineBuilder))
  = 0x80000005.
Proof.
  destruct (state_flags_accept_any_mask (H := GrPipelineBuilder.exampleEnv)
              (GrPipelineBuilder.enableState 0x01
                 GrPipelineBuilder.GrPipelineBuilder)
              0x80000004)
    as (He & _).
  - split; [apply Z.leb_le | apply Z.ltb_lt]; reflexivity.
  - split; [apply Z.leb_le | apply Z.ltb_lt]; reflexivity.
  - rewrite He. reflexivity.
Defined.

Lemma getXPFactory_default_is_cached_witness :
  exists this1,
    GrPipelineBuilder.getXPFactory (H := GrPipelineBuilder.exampleEnv)
      GrPipelineBuilder.GrPipelineBuilder []
    = Ok (Some (GrPorterDuffXPFactory_Create kSrc_Mode), this1,
          [EvCreate (OXPFactory (GrPorterDuffXPFactory_Create kSrc_Mode))]).
Proof.
  destruct (getXPFactory_default_is_cached (H := GrPipelineBuilder.exampleEnv)
              GrPipelineBuilder.GrPipelineBuilder [] [] eq_refl)
    as (b & Hg & _).
  exists b. exact Hg.
Defined.

(** C1, as the specification words it, fails: the default is not the
    source-over factory. *)
Lemma getXPFactory_default_is_not_src_over :
  ~ (forall (this : GrPipelineBuilder.t (H := GrPipelineBuilder.exampleEnv))
            (tr : list Event),
       GrPipelineBuilder.fXPFactory this = None ->
       exists this1 tr1,
         GrPipelineBuilder.getXPFactory this tr
         = Ok (Some (GrPorterDuffXPFactory_Create kSrcOver_Mode), this1, tr1)).
Proof.
  intros Hall.
  destruct (Hall GrPipelineBuilder.GrPipelineBuilder [] eq_refl)
    as (b & tr1 & Hg).
  discriminate Hg.
Qed.

Lemma cache_never_stale_witness :
  exists this' ev,
    GrPipelineBuilder.run (H := GrPipelineBuilder.exampleEnv)
      [GrPipelineBuilder.OpAddColorProcessor (ExternalProcessor 2);
       GrPipelineBuilder.OpColorProcInfo (Some 7%N);
       GrPipelineBuilder.OpAddColorProcessor (ExternalProcessor 3)]
      GrPipelineBuilder.GrPipelineBuilder []
    = Ok (this', [] ++ ev) /\
    GrPipelineBuilder.cacheCoherent this'.
Proof.
  destruct (cache_never_stale (H := GrPipelineBuilder.exampleEnv)
              GrPipelineBuilder.GrPipelineBuilder
              [GrPipelineBuilder.OpAddColorProcessor (ExternalProcessor 2);
               GrPipelineBuilder.OpColorProcInfo (Some 7%N);
               GrPipelineBuilder.OpAddColorProcessor (ExternalProcessor 3)]
              [])
    as (b & ev & Hr & Hc & _).
  - split; discriminate.
  - exists b, ev. split; [exact Hr|exact Hc].
Defined.


(** ** AutoRestoreEffects *)

Section GuardProperties.
Import GrPipelineBuilder.
Context `{GrPipelineBuilder.Env}.

Ltac run_g :=
  repeat (unfold mbind, mret, M_bind, M_ret, Res_bind, Res_ret, emit, lift,
            fault, SkASSERT; simpl).

Lemma truncate_ok (alloc : Z) (l added : list GrFragmentStage)
    (tr : list Event) :
  AutoRestoreEffects.truncate (Z.of_nat (length l)) alloc (l ++ added) tr
  = Ok (l, SkTArray_checkRealloc alloc (Z.of_nat (length l)),
        tr ++ stageUnrefs (rev added)
           ++ (if SkTArray_checkRealloc alloc (Z.of_nat (length l)) =? alloc
               then [] else moveEvents l)).
Proof.
  unfold AutoRestoreEffects.truncate.
  assert (Hle : (0 <=? Z.of_nat (length l))
                && (Z.of_nat (length l) <=? Z.of_nat (length (l ++ added)))
                = true).
  { rewrite length_app. apply andb_true_iff. split; apply Z.leb_le; lia. }
  rewrite Hle. run_g. rewrite Nat2Z.id.
  rewrite drop_app_length, take_app_length.
  rewrite release_stages_ok.
  destruct (SkTArray_checkRealloc alloc (Z.of_nat (length l)) =? alloc).
  - rewrite app_nil_r. reflexivity.
  - rewrite copyAndDelete_ok, <- app_assoc. reflexivity.
Qed.

Lemma restoreColorStages_ok (kept added : list GrFragmentStage) (b : t) :
  fColorStages b = kept ++ added ->
  fColorStages (AutoRestoreEffects.restoreColorStages kept b) = kept /\
  fCoverageStages (AutoRestoreEffects.restoreColorStages kept b)
  = fCoverageStages b /\
  (cacheCoherent b ->
   cacheCoherent (AutoRestoreEffects.restoreColorStages kept b)).
Proof.
  intros Hs. unfold AutoRestoreEffects.restoreColorStages.
  destruct (length kept =? length (fColorStages b))%nat eqn:El.
  - apply Nat.eqb_eq in El. rewrite Hs, length_app in El.
    assert (added = []) by (destruct added; [reflexivity|simpl in El; lia]).
    subst added. rewrite app_nil_r in Hs. auto.
  - simpl. split; [reflexivity|]. split; [reflexivity|].
    intros [_ Hv]. split; [discriminate|exact Hv].
Qed.

Lemma restoreCoverageStages_ok (kept added : list GrFragmentStage) (b : t) :
  fCoverageStages b = kept ++ added ->
  fCoverageStages (AutoRestoreEffects.restoreCoverageStages kept b) = kept /\
  fColorStages (AutoRestoreEffects.restoreCoverageStages kept b)
  = fColorStages b /\
  (cacheCoherent b ->
   cacheCoherent (AutoRestoreEffects.restoreCoverageStages kept b)).
Proof.
  intros Hs. unfold AutoRestoreEffects.restoreCoverageStages.
  destruct (length kept =? length (fCoverageStages b))%nat eqn:El.
  - apply Nat.eqb_eq in El. rewrite Hs, length_app in El.
    assert (added = []) by (destruct added; [reflexivity|simpl in El; lia]).
    subst added. rewrite app_nil_r in Hs. auto.
  - simpl. split; [reflexivity|]. split; [reflexivity|].
    intros [Hc _]. split; [exact Hc|discriminate].
Qed.

Lemma restoreStages_counter (color coverage : list GrFragmentStage)
    (a1 : Z) (b : t) :
  fBlockEffectRemovalCnt
    (AutoRestoreEffects.restoreCoverageStages coverage
       (set_fColorStages_fAllocCount a1
          (AutoRestoreEffects.restoreColorStages color b)))
  = fBlockEffectRemovalCnt b.
Proof.
  unfold AutoRestoreEffects.restoreCoverageStages,
    AutoRestoreEffects.restoreColorStages.
  repeat match goal with
         | |- context [if ?c then _ else _] => destruct c
         end; reflexivity.
Qed.

Lemma release_inv (g : AutoRestoreEffects.t) (store store' : gmap N t)
    (tr tr' : list Event) :
  AutoRestoreEffects.release g store tr = Ok (store', tr') ->
  (forall q b, store !! q = Some b -> 0 <= fBlockEffectRemovalCnt b) ->
  (forall q b, store' !! q = Some b -> 0 <= fBlockEffectRemovalCnt b) /\
  (forall q, is_Some (store !! q) -> is_Some (store' !! q)) /\
  (forall q, AutoRestoreEffects.fPipelineBuilder g <> Some q ->
             store' !! q = store !! q).
Proof.
  unfold AutoRestoreEffects.release. intros Hr Hn.
  destruct (AutoRestoreEffects.fPipelineBuilder g) as [p|].
  2: { injection Hr as <- _. auto. }
  destruct (store !! p) as [b|] eqn:Eb; [|discriminate].
  apply bind_inv in Hr. destruct Hr as ([color a1] & tr1 & _ & Hr).
  apply bind_inv in Hr. destruct Hr as ([coverage a2] & tr2 & _ & Hr).
  apply bind_inv in Hr. destruct Hr as (u & tr3 & Ha & Hr).
  unfold lift, SkASSERT in Ha.
  cbn [fBlockEffectRemovalCnt set_fCoverageStages_fAllocCount] in Ha.
  rewrite restoreStages_counter in Ha.
  destruct (0 <=? fBlockEffectRemovalCnt b - 1) eqn:Ec; [|discriminate].
  injection Hr as <- _.
  apply Z.leb_le in Ec.
  split; [|split].
  - intros q b'. rewrite lookup_insert. case_decide.
    + intros [= <-]. cbn [fBlockEffectRemovalCnt set_fBlockEffectRemovalCnt].
      rewrite restoreStages_counter. lia.
    + apply Hn.
  - intros q. rewrite lookup_insert. case_decide; eauto.
  - intros q Hq. rewrite lookup_insert_ne; congruence.
Qed.

Lemma release_ok (g : AutoRestoreEffects.t) (store : gmap N t) (p : Addr)
    (b : t) (lc ac lv av : list GrFragmentStage) (tr : list Event) :
  AutoRestoreEffects.fPipelineBuilder g = Some p ->
  store !! p = Some b ->
  fColorStages b = lc ++ ac -> fCoverageStages b = lv ++ av ->
  AutoRestoreEffects.fColorEffectCnt g = Z.of_nat (length lc) ->
  AutoRestoreEffects.fCoverageEffectCnt g = Z.of_nat (length lv) ->
  1 <= fBlockEffectRemovalCnt b ->
  exists b' ev,
    AutoRestoreEffects.release g store tr
    = Ok (<[p := b']> store, tr ++ ev) /\
    fColorStages b' = lc /\
    fCoverageStages b' = lv /\
    fBlockEffectRemovalCnt b' = fBlockEffectRemovalCnt b - 1 /\
    (cacheCoherent b -> cacheCoherent b').
Proof.
  intros Hp Hb Hc Hv Hcc Hcv Hn. unfold AutoRestoreEffects.release.
  rewrite Hp, Hb, Hcc, Hcv, Hc.
  rewrite (bind_ok _ _ _ _ _ (truncate_ok _ lc ac tr)).
  destruct (restoreColorStages_ok lc ac b Hc) as (Hc1 & Hv1 & Hk1).
  cbn [fCoverageStages set_fColorStages_fAllocCount].
  rewrite Hv1, Hv.
  rewrite (bind_ok _ _ _ _ _ (truncate_ok _ lv av _)).
  assert (Hv' : fCoverageStages (AutoRestoreEffects.restoreColorStages lc b)
                = lv ++ av) by congruence.
  destruct (restoreCoverageStages_ok lv av
              (set_fColorStages_fAllocCount
                 (SkTArray_checkRealloc (fColorStages_fAllocCount b)
                    (Z.of_nat (length lc)))
                 (AutoRestoreEffects.restoreColorStages lc b)) Hv')
    as (Hv2 & Hc2 & Hk2).
  assert (Ec : (0 <=? fBlockEffectRemovalCnt b - 1) = true)
    by (apply Z.leb_le; lia).
  unfold lift, SkASSERT.
  cbn [fBlockEffectRemovalCnt set_fCoverageStages_fAllocCount].
  rewrite restoreStages_counter, Ec. run_g.
  eexists. eexists. split; [rewrite <- !app_assoc; reflexivity|].
  simpl. split; [simpl in Hc2; congruence|]. split; [exact Hv2|].
  split; [reflexivity|].
  intros Hk. destruct (Hk2 (Hk1 Hk)) as [H1 H2]. split; assumption.
Qed.

Lemma capture_Some (q : Addr) (g : AutoRestoreEffects.t) (store : gmap N t)
    (b : t) (tr : list Event) :
  store !! q = Some b ->
  AutoRestoreEffects.capture (Some q) g store tr
  = Ok ({| AutoRestoreEffects.fPipelineBuilder := Some q;
           AutoRestoreEffects.fColorEffectCnt := numColorStages b;
           AutoRestoreEffects.fCoverageEffectCnt := numCoverageStages b |},
        <[q := set_fBlockEffectRemovalCnt (fBlockEffectRemovalCnt b + 1) b]> store,
        tr).
Proof. intros Hb. unfold AutoRestoreEffects.capture. rewrite Hb. reflexivity. Qed.

Lemma bind_guard (p : Addr) (g0 g1 : AutoRestoreEffects.t)
    (store store1 : gmap N t) (tr tr1 : list Event) :
  AutoRestoreEffects.set (Some p) g0 store tr = Ok (g1, store1, tr1) ->
  (forall q b, store !! q = Some b -> 0 <= fBlockEffectRemovalCnt b) ->
  exists b1,
    store1 !! p = Some b1 /\
    AutoRestoreEffects.fPipelineBuilder g1 = Some p /\
    AutoRestoreEffects.fColorEffectCnt g1 = numColorStages b1 /\
    AutoRestoreEffects.fCoverageEffectCnt g1 = numCoverageStages b1 /\
    1 <= fBlockEffectRemovalCnt b1 /\
    (forall q, is_Some (store !! q) -> is_Some (store1 !! q)).
Proof.
  unfold AutoRestoreEffects.set. intros Hs Hn.
  apply bind_inv in Hs. destruct Hs as (store' & tr' & Hrel & Hcap).
  destruct (release_inv _ _ _ _ _ Hrel Hn) as (Hn' & Hdom & _).
  destruct (store' !! p) as [b|] eqn:Eb.
  2: { unfold AutoRestoreEffects.capture in Hcap. rewrite Eb in Hcap.
       discriminate. }
  rewrite (capture_Some p g0 store' b tr' Eb) in Hcap.
  injection Hcap as <- <- <-.
  eexists. split; [apply lookup_insert_eq|]. simpl.
  repeat split; auto.
  - specialize (Hn' p b Eb). lia.
  - intros q Hq. rewrite lookup_insert. case_decide; eauto.
Qed.

Lemma runAt_ok (p : Addr) (ops : list Op) (store : gmap N t) (b : t)
    (tr : list Event) :
  store !! p = Some b ->
  exists b' ev,
    runAt p ops store tr = Ok (<[p := b']> store, tr ++ ev) /\
    (exists c, fColorStages b' = fColorStages b ++ c) /\
    (exists c, fCoverageStages b' = fCoverageStages b ++ c) /\
    fBlockEffectRemovalCnt b' = fBlockEffectRemovalCnt b.
Proof.
  intros Hb. destruct (run_ok ops b tr) as (b' & ev & Hr & _ & _ & Hc & Hv & Hn).
  exists b', ev. unfold runAt. rewrite Hb, (bind_ok _ _ _ _ _ Hr).
  split; [reflexivity|]. auto.
Qed.

(** Releasing a guard bound to [p], by any of the three ways, after calls
    that only added stages. *)
Lemma release_restores (ds : option Addr) (p : Addr)
    (g : AutoRestoreEffects.t) (store : gmap N t) (b1 b2 : t)
    (tr : list Event) :
  AutoRestoreEffects.fPipelineBuilder g = Some p ->
  AutoRestoreEffects.fColorEffectCnt g = numColorStages b1 ->
  AutoRestoreEffects.fCoverageEffectCnt g = numCoverageStages b1 ->
  store !! p = Some b2 ->
  (exists c, fColorStages b2 = fColorStages b1 ++ c) ->
  (exists c, fCoverageStages b2 = fCoverageStages b1 ++ c) ->
  1 <= fBlockEffectRemovalCnt b2 ->
  (forall q, ds = Some q -> is_Some (store !! q)) ->
  exists g3 store3 ev b3,
    AutoRestoreEffects.set ds g store tr = Ok (g3, store3, tr ++ ev) /\
    AutoRestoreEffects.fPipelineBuilder g3 = ds /\
    store3 !! p = Some b3 /\
    fColorStages b3 = fColorStages b1 /\
    fCoverageStages b3 = fCoverageStages b1 /\
    (cacheCoherent b2 -> cacheCoherent b3).
Proof.
  intros Hp Hcc Hcv Hb [ac Hc] [av Hv] Hn Hds.
  unfold AutoRestoreEffects.set.
  destruct (release_ok g store p b2 _ ac _ av tr Hp Hb Hc Hv Hcc Hcv Hn)
    as (b' & ev' & Hrel & Hc' & Hv' & _ & Hk).
  rewrite (bind_ok _ _ _ _ _ Hrel).
  destruct ds as [q|].
  - destruct (decide (q = p)) as [->|Hne].
    + erewrite capture_Some by apply lookup_insert_eq.
      eexists _, _, _, _. split; [reflexivity|]. split; [reflexivity|].
      split; [apply lookup_insert_eq|]. simpl.
      split; [exact Hc'|]. split; [exact Hv'|].
      intros Hk2. destruct (Hk Hk2) as [H1 H2]. split; assumption.
    + destruct (Hds q eq_refl) as [bq Hq].
      erewrite capture_Some by (rewrite lookup_insert_ne by congruence; exact Hq).
      eexists _, _, _, _. split; [reflexivity|]. split; [reflexivity|].
      split.
      { rewrite lookup_insert_ne by congruence. apply lookup_insert_eq. }
      split; [exact Hc'|]. split; [exact Hv'|exact Hk].
  - unfold AutoRestoreEffects.capture. run_g.
    eexists _, _, _, _. split; [reflexivity|]. split; [reflexivity|].
    split; [apply lookup_insert_eq|].
    split; [exact Hc'|]. split; [exact Hv'|exact Hk].
Qed.

(** C4.  Bind a guard to the builder at [p]; let the client make any
    sequence of calls on that builder, each of which can only append stages;
    then release the guard by [set(NULL)], by rebinding it to any live
    builder (the same one included), or by destroying it.  Every step
    succeeds, and afterwards the builder's two chains are the chains it had
    when the guard was bound, so [numColorStages()] and
    [numCoverageStages()] have their values of that moment. *)
Theorem AutoRestoreEffects_restores_counts (store : gmap N t) (p : Addr)
    (g0 g1 : AutoRestoreEffects.t) (store1 : gmap N t) (tr tr1 : list Event)
    (ops : list Op) (ds : option Addr) :
  (forall q b, store !! q = Some b -> 0 <= fBlockEffectRemovalCnt b) ->
  AutoRestoreEffects.set (Some p) g0 store tr = Ok (g1, store1, tr1) ->
  (forall q, ds = Some q -> is_Some (store !! q)) ->
  exists b1 b2 ev2,
    store1 !! p = Some b1 /\
    AutoRestoreEffects.isSet g1 = true /\
    runAt p ops store1 tr1 = Ok (<[p := b2]> store1, tr1 ++ ev2) /\
    numColorStages b1 <= numColorStages b2 /\
    numCoverageStages b1 <= numCoverageStages b2 /\
    (exists g3 store3 ev3 b3,
       AutoRestoreEffects.set ds g1 (<[p := b2]> store1) (tr1 ++ ev2)
       = Ok (g3, store3, (tr1 ++ ev2) ++ ev3) /\
       store3 !! p = Some b3 /\
       numColorStages b3 = numColorStages b1 /\
       numCoverageStages b3 = numCoverageStages b1 /\
       fColorStages b3 = fColorStages b1 /\
       fCoverageStages b3 = fCoverageStages b1) /\
    (exists store4 ev4 b4,
       AutoRestoreEffects.dtor g1 (<[p := b2]> store1) (tr1 ++ ev2)
       = Ok (store4, (tr1 ++ ev2) ++ ev4) /\
       store4 !! p = Some b4 /\
       numColorStages b4 = numColorStages b1 /\
       numCoverageStages b4 = numCoverageStages b1 /\
       fColorStages b4 = fColorStages b1 /\
       fCoverageStages b4 = fCoverageStages b1).
Proof.
  intros Hn Hbind Hds.
  destruct (bind_guard p g0 g1 store store1 tr tr1 Hbind Hn)
    as (b1 & Hb1 & Hp & Hcc & Hcv & Hcnt & Hdom).
  destruct (runAt_ok p ops store1 b1 tr1 Hb1)
    as (b2 & ev2 & Hrun & [c Hc] & [v Hv] & Hk).
  exists b1, b2, ev2. split; [exact Hb1|].
  split; [unfold AutoRestoreEffects.isSet; rewrite Hp; reflexivity|].
  split; [exact Hrun|].
  split; [unfold numColorStages; rewrite Hc, length_app; lia|].
  split; [unfold numCoverageStages; rewrite Hv, length_app; lia|].
  assert (Hlook : <[p := b2]> store1 !! p = Some b2) by apply lookup_insert_eq.
  assert (Hcnt2 : 1 <= fBlockEffectRemovalCnt b2) by lia.
  split.
  - destruct (release_restores ds p g1 (<[p := b2]> store1) b1 b2 (tr1 ++ ev2)
                Hp Hcc Hcv Hlook (ex_intro _ c Hc) (ex_intro _ v Hv) Hcnt2)
      as (g3 & store3 & ev3 & b3 & Hs & _ & Hb3 & Hc3 & Hv3 & _).
    { intros q Hq. rewrite lookup_insert. case_decide; eauto. }
    exists g3, store3, ev3, b3. split; [exact Hs|]. split; [exact Hb3|].
    unfold numColorStages, numCoverageStages. rewrite Hc3, Hv3. auto.
  - destruct (release_restores None p g1 (<[p := b2]> store1) b1 b2 (tr1 ++ ev2)
                Hp Hcc Hcv Hlook (ex_intro _ c Hc) (ex_intro _ v Hv) Hcnt2)
      as (g3 & store3 & ev3 & b3 & Hs & _ & Hb3 & Hc3 & Hv3 & _).
    { intros q Hq. discriminate. }
    exists store3, ev3, b3. split.
    { unfold AutoRestoreEffects.dtor. rewrite (bind_ok _ _ _ _ _ Hs).
      reflexivity. }
    split; [exact Hb3|].
    unfold numColorStages, numCoverageStages. rewrite Hc3, Hv3. auto.
Qed.

End GuardProperties.

(** Scenario 2: two stages, a guard, two more stages, release. *)
Lemma AutoRestoreEffects_restores_counts_witness :
  exists b2 ev2 store4 ev4 b4,
    GrPipelineBuilder.runAt (H := GrPipelineBuilder.exampleEnv) 1%N
      [GrPipelineBuilder.OpAddColorProcessor (ExternalProcessor 3);
       GrPipelineBuilder.OpAddColorProcessor (ExternalProcessor 4)]
      (<[1%N := GrPipelineBuilder.exampleGuarded
                  [ExternalProcessor 1; ExternalProcessor 2]]>
         {[1%N := GrPipelineBuilder.exampleUnguarded
                    [ExternalProcessor 1; ExternalProcessor 2]]})
      []
    = Ok (<[1%N := b2]>
            (<[1%N := GrPipelineBuilder.exampleGuarded
                        [ExternalProcessor 1; ExternalProcessor 2]]>
               {[1%N := GrPipelineBuilder.exampleUnguarded
                          [ExternalProcessor 1; ExternalProcessor 2]]}),
          [] ++ ev2) /\
    GrPipelineBuilder.AutoRestoreEffects.dtor
      {| GrPipelineBuilder.AutoRestoreEffects.fPipelineBuilder := Some 1%N;
         GrPipelineBuilder.AutoRestoreEffects.fColorEffectCnt := 2;
         GrPipelineBuilder.AutoRestoreEffects.fCoverageEffectCnt := 0 |}
      (<[1%N := b2]>
         (<[1%N := GrPipelineBuilder.exampleGuarded
                     [ExternalProcessor 1; ExternalProcessor 2]]>
            {[1%N := GrPipelineBuilder.exampleUnguarded
                       [ExternalProcessor 1; ExternalProcessor 2]]}))
      ([] ++ ev2)
    = Ok (store4, ([] ++ ev2) ++ ev4) /\
    store4 !! 1%N = Some b4 /\
    GrPipelineBuilder.numColorStages b4 = 2.
Proof.
  destruct (AutoRestoreEffects_restores_counts
              (H := GrPipelineBuilder.exampleEnv)
              {[1%N := GrPipelineBuilder.exampleUnguarded
                         [ExternalProcessor 1; ExternalProcessor 2]]}
              1%N GrPipelineBuilder.AutoRestoreEffects.AutoRestoreEffects
              {| GrPipelineBuilder.AutoRestoreEffects.fPipelineBuilder := Some 1%N;
                 GrPipelineBuilder.AutoRestoreEffects.fColorEffectCnt := 2;
                 GrPipelineBuilder.AutoRestoreEffects.fCoverageEffectCnt := 0 |}
              (<[1%N := GrPipelineBuilder.exampleGuarded
                          [ExternalProcessor 1; ExternalProcessor 2]]>
                 {[1%N := GrPipelineBuilder.exampleUnguarded
                            [ExternalProcessor 1; ExternalProcessor 2]]})
              [] []
              [GrPipelineBuilder.OpAddColorProcessor (ExternalProcessor 3);
               GrPipelineBuilder.OpAddColorProcessor (ExternalProcessor 4)]
              None)
    as (b1 & b2 & ev2 & Hb1 & _ & Hrun & _ & _ & _
        & (store4 & ev4 & b4 & Hd & Hb4 & Hc & _)).
  - intros q b. rewrite lookup_singleton. case_decide; [|discriminate].
    intros [= <-]. simpl. lia.
  - reflexivity.
  - intros q Hq. discriminate.
  - rewrite lookup_insert_eq in Hb1. injection Hb1 as <-.
    exists b2, ev2, store4, ev4, b4.
    split; [exact Hrun|]. split; [exact Hd|]. split; [exact Hb4|exact Hc].
Defined.

(** ** SkCachingPixelRef *)

Section PixelRefProperties.
Import SkCachingPixelRef.

Ltac run_p :=
  repeat (unfold mbind, mret, M_bind, M_ret, Res_bind, Res_ret, emit, lift,
            fault, SkASSERT, SkDELETE; simpl).

(** C9.  [Install] answers false iff the generator is NULL, or its getInfo
    fails, or dst->setInfo fails on the info it reported.  Whenever it
    answers false its last act is to delete the generator (nothing to delete
    when it is NULL), and it has neither created a pixel ref nor called
    setPixelRef on dst.  When it answers true it has constructed a caching
    pixel ref over that generator, with the reported info and dst's row
    bytes, installed it on dst and dropped its own reference; the generator
    is not deleted. *)
Theorem Install_false_iff (ans : InstallAnswers) (generator : option Addr)
    (d : Addr) (tr : list Event) :
  exists b ev,
    Install ans generator (Some d) tr = Ok (b, tr ++ ev) /\
    (b = false <->
     generator = None \/ ans_getInfo ans = None \/ ans_setInfo ans = false) /\
    (b = false ->
     (forall g, generator = Some g ->
                exists before, ev = before ++ [EvDelete (OImageGenerator g)]) /\
     (generator = None -> ev = []) /\
     (forall r, ~ In (EvCall (Call_setPixelRef d r)) ev) /\
     (forall o, ~ In (EvCreate o) ev)) /\
    (b = true ->
     exists g info this,
       generator = Some g /\ ans_getInfo ans = Some info /\
       SkCachingPixelRef info generator (ans_rowBytes ans) = Ok this /\
       fImageGenerator this = Some g /\
       SkCachingPixelRef.info this = info /\
       fRowBytes this = ans_rowBytes ans /\
       fErrorInDecoding this = false /\
       ev = [EvCall (Call_getInfo g);
             EvCall (Call_setInfo d info);
             EvCreate (OPixelRef (SkCachingPixelRef_new info g (ans_rowBytes ans)));
             EvCall (Call_setPixelRef d
                       (SkCachingPixelRef_new info g (ans_rowBytes ans)));
             EvUnref (OPixelRef (SkCachingPixelRef_new info g (ans_rowBytes ans)))] /\
       (forall o, ~ In (EvDelete o) ev)).
Proof.
  unfold Install.
  destruct generator as [g|]; [destruct (ans_getInfo ans) as [i|] eqn:Ei;
    [destruct (ans_setInfo ans) eqn:Es|]|]; run_p; rewrite ?Ei, ?Es; run_p.
  1-3: eexists; eexists; (split; [rewrite <- ?app_assoc; reflexivity|]).
  4: exists false, []; (split; [rewrite app_nil_r; reflexivity|]).
  - split; [split; [discriminate|intros [?|[?|?]]; discriminate]|].
    split; [discriminate|]. intros _. exists g, i. eexists.
    repeat split; try reflexivity.
    intros o [E|[E|[E|[E|[E|[]]]]]]; discriminate.
  - split; [split; auto|]. split; [|discriminate]. intros _.
    split; [intros g' [= <-]; exists [EvCall (Call_getInfo g); EvCall (Call_setInfo d i)]; reflexivity|].
    split; [discriminate|].
    split; [intros r [E|[E|[E|[]]]]; discriminate|intros o [E|[E|[E|[]]]]; discriminate].
  - split; [split; auto|]. split; [|discriminate]. intros _.
    split; [intros g' [= <-]; exists [EvCall (Call_getInfo g)]; reflexivity|].
    split; [discriminate|].
    split; [intros r [E|[E|[]]]; discriminate|intros o [E|[E|[]]]; discriminate].
  - split; [split; auto|]. split; [|discriminate]. intros _.
    split; [discriminate|]. split; [reflexivity|]. split; intros ? [].
Qed.

(** *** The decode error *)

Lemma onNewLockPixels_after_error (ans : LockAnswers) (this : t)
    (tr : list Event) :
  fErrorInDecoding this = true ->
  onNewLockPixels ans this tr = Ok (false, None, this, tr).
Proof. intros E. unfold onNewLockPixels. rewrite E. reflexivity. Qed.

Lemma calls_after_error (cs : list PixelRefCall) (this : t) (tr : list Event) :
  fErrorInDecoding this = true ->
  exists this',
    calls cs this tr = Ok (map (fun _ => false) (filter isLock cs), this', tr) /\
    fErrorInDecoding this' = true.
Proof.
  revert this. induction cs as [|[ans|] cs IH]; intros this E; simpl.
  - exists this. split; [reflexivity|exact E].
  - destruct (IH this E) as (this' & Hc & E').
    exists this'. rewrite (bind_ok _ _ _ _ _ (onNewLockPixels_after_error ans this tr E)).
    simpl. rewrite (bind_ok _ _ _ _ _ Hc). split; [reflexivity|exact E'].
  - apply IH. exact E.
Qed.

Lemma onNewLockPixels_failure (ans : LockAnswers) (this this1 : t)
    (r : option LockRec) (tr tr1 : list Event) :
  fErrorInDecoding this = false ->
  onNewLockPixels ans this tr = Ok (false, r, this1, tr1) ->
  r = None /\ fErrorInDecoding this1 = true /\
  ans_Find ans = None /\
  (ans_tryAllocPixels ans = false \/ accepted (ans_getPixels ans) = false).
Proof.
  intros E. unfold onNewLockPixels, decode. rewrite E.
  destruct (ans_Find ans) as [cached|]; run_p.
  - destruct (bm_pixels cached); run_p; discriminate.
  - destruct (ans_tryAllocPixels ans); run_p.
    + destruct (fImageGenerator this); run_p; [|discriminate].
      destruct (ans_getPixels ans); run_p;
        try (destruct (bm_pixels (ans_allocated ans)); run_p; discriminate);
        intros [= <- <- <-]; auto.
    + intros [= <- <- <-]. auto.
Qed.

(** C10.  A call of [onNewLockPixels] that fails on a pixel ref without a
    recorded error has missed the cache and then either failed to allocate
    or got from the generator a result other than success or incomplete
    input; it writes nothing to the lock record and leaves the error flag
    set.  From then on, whatever the cache, the allocator and the generator
    would answer, and however locks and unlocks alternate, every
    [onNewLockPixels] answers false at once: the trace gains no call (no
    lookup, no allocation, no getPixels) and the flag stays set. *)
Theorem decode_error_is_sticky (ans : LockAnswers) (this this1 : t)
    (r : option LockRec) (tr tr1 : list Event) (later : list PixelRefCall) :
  fErrorInDecoding this = false ->
  onNewLockPixels ans this tr = Ok (false, r, this1, tr1) ->
  r = None /\
  fErrorInDecoding this1 = true /\
  ans_Find ans = None /\
  (ans_tryAllocPixels ans = false \/ accepted (ans_getPixels ans) = false) /\
  (forall ans' tr',
     onNewLockPixels ans' this1 tr' = Ok (false, None, this1, tr')) /\
  exists this2,
    calls later this1 tr1
    = Ok (map (fun _ => false) (filter isLock later), this2, tr1) /\
    fErrorInDecoding this2 = true.
Proof.
  intros E Hfail.
  destruct (onNewLockPixels_failure ans this this1 r tr tr1 E Hfail)
    as (Hr & E1 & Hf & Hwhy).
  split; [exact Hr|]. split; [exact E1|]. split; [exact Hf|].
  split; [exact Hwhy|].
  split; [intros ans' tr'; apply onNewLockPixels_after_error, E1|].
  apply calls_after_error, E1.
Qed.

(** The two ways into the error state do lead there. *)
Lemma decode_error_is_set (ans : LockAnswers) (this : t) (tr : list Event) :
  fErrorInDecoding this = false -> ans_Find ans = None ->
  SkToBool (fImageGenerator this) = true ->
  ans_tryAllocPixels ans = false \/ accepted (ans_getPixels ans) = false ->
  exists this1 ev,
    onNewLockPixels ans this tr = Ok (false, None, this1, tr ++ ev) /\
    fErrorInDecoding this1 = true.
Proof.
  intros E Hf Hg Hwhy. unfold onNewLockPixels, decode. rewrite E, Hf.
  destruct (fImageGenerator this) as [g|] eqn:Eg; [|discriminate].
  destruct (ans_tryAllocPixels ans) eqn:Ea; run_p; rewrite ?Ea; run_p.
  - destruct Hwhy as [?|Hr]; [discriminate|]. rewrite Eg.
    destruct (ans_getPixels ans); try discriminate; run_p;
      eexists; eexists; (split; [rewrite <- ?app_assoc; reflexivity|reflexivity]).
  - eexists; eexists; (split; [rewrite <- ?app_assoc; reflexivity|reflexivity]).
Qed.

End PixelRefProperties.

Lemma decode_error_is_sticky_witness :
  exists this2,
    SkCachingPixelRef.calls
      [SkCachingPixelRef.Lock SkCachingPixelRef.exampleAllocFailure;
       SkCachingPixelRef.Unlock;
       SkCachingPixelRef.Lock SkCachingPixelRef.exampleAllocFailure]
      (SkCachingPixelRef.set_fErrorInDecoding true
         SkCachingPixelRef.examplePixelRef)
      [EvCall (Call_BitmapCache_Find 1 (SkImageInfo_bounds
                 (SkCachingPixelRef.info SkCachingPixelRef.examplePixelRef)));
       EvCall (Call_tryAllocPixels
                 (SkCachingPixelRef.info SkCachingPixelRef.examplePixelRef) 16)]
    = Ok ([false; false], this2,
          [EvCall (Call_BitmapCache_Find 1 (SkImageInfo_bounds
                     (SkCachingPixelRef.info SkCachingPixelRef.examplePixelRef)));
           EvCall (Call_tryAllocPixels
                     (SkCachingPixelRef.info SkCachingPixelRef.examplePixelRef) 16)]).
Proof.
  destruct (decode_error_is_sticky SkCachingPixelRef.exampleAllocFailure
              SkCachingPixelRef.examplePixelRef
              (SkCachingPixelRef.set_fErrorInDecoding true
                 SkCachingPixelRef.examplePixelRef)
              None []
              [EvCall (Call_BitmapCache_Find 1 (SkImageInfo_bounds
                         (SkCachingPixelRef.info SkCachingPixelRef.examplePixelRef)));
               EvCall (Call_tryAllocPixels
                         (SkCachingPixelRef.info SkCachingPixelRef.examplePixelRef) 16)]
              [SkCachingPixelRef.Lock SkCachingPixelRef.exampleAllocFailure;
               SkCachingPixelRef.Unlock;
               SkCachingPixelRef.Lock SkCachingPixelRef.exampleAllocFailure]
              eq_refl eq_refl)
    as (_ & _ & _ & _ & _ & this2 & Hc & _).
  exists this2. exact Hc.
Defined.

(** ** GrClip: references, assignment, reachable clips *)

Section GrClipMutations.
Import GrClip.
Context `{GrClip.Env}.

Ltac run_c :=
  repeat (unfold mbind, mret, M_bind, M_ret, Res_bind, Res_ret, emit, lift,
            fault, SkRef, SkSafeRef, SkSafeUnref, SkASSERT; simpl).

Lemma refBalance_app (a : Addr) (t1 t2 : list Event) :
  refBalance a (t1 ++ t2) = refBalance a t1 + refBalance a t2.
Proof.
  induction t1 as [|e t1 IH]; simpl; [reflexivity|]. rewrite IH. lia.
Qed.

Lemma refBalance_released (a : Addr) (c : GrClip.t) :
  refBalance a (released c) = - holds c a.
Proof.
  unfold released, holds.
  destruct (fClipType c), (fClip c) as [|[b|]|r]; simpl; try reflexivity.
  destruct (N.eqb a b); reflexivity.
Qed.

Lemma refBalance_acquired (a : Addr) (c : GrClip.t) :
  refBalance a (acquired c) = holds c a.
Proof.
  unfold acquired, holds.
  destruct (fClipType c), (fClip c) as [|[b|]|r]; simpl; try reflexivity.
  destruct (N.eqb a b); reflexivity.
Qed.

Lemma holds_wide_open (a : Addr) (c : GrClip.t) :
  fClipType c = kWideOpen_ClipType -> holds c a = 0.
Proof. unfold holds. intros ->. reflexivity. Qed.

Lemma holds_same (a : Addr) (c d : GrClip.t) :
  fClipType c = fClipType d ->
  (fClipType d <> kWideOpen_ClipType -> fClip c = fClip d) ->
  holds c a = holds d a.
Proof.
  unfold holds. intros Et Ep. rewrite Et.
  destruct (fClipType d); try reflexivity; rewrite Ep by discriminate;
    reflexivity.
Qed.

Lemma collapsed_same (c d : GrClip.t) :
  fClipType c = fClipType d ->
  (fClipType d <> kWideOpen_ClipType -> fClip c = fClip d) ->
  collapsed d = true -> collapsed c = true.
Proof.
  unfold collapsed. intros Et Ep. rewrite Et.
  destruct (fClipType d); try reflexivity; rewrite Ep by discriminate; auto.
Qed.

(** One mutation: it succeeds, keeps the invariant, moves the reference
    count of every stack by exactly the change in what the clip holds, and
    never leaves a stack clip over a wide-open region. *)
Lemma mutate_ok (m : Mutation) (this : GrClip.t) (tr : list Event) :
  invariant this = true ->
  (forall other, m = MAssign other -> invariant other = true) ->
  exists this' ev,
    mutate m this tr = Ok (this', tr ++ ev) /\
    invariant this' = true /\
    (forall a, refBalance a ev = holds this' a - holds this a) /\
    ((forall other, m = MAssign other -> collapsed other = true) ->
     collapsed this' = true).
Proof.
  intros Hi Ho. destruct m as [s o|other|]; simpl in *.
  - destruct (setClipStack_ok this s o tr Hi) as (c & Hs & Hic & Hc).
    exists c. eexists. split; [exact Hs|]. split; [exact Hic|].
    split.
    + intros a. rewrite refBalance_app, refBalance_released.
      destruct (SkClipStack_isWideOpen s).
      * rewrite (holds_wide_open a c) by (rewrite Hc; reflexivity).
        simpl. lia.
      * rewrite Hc. unfold holds. simpl. destruct (N.eqb a s); lia.
    + intros _. unfold collapsed. rewrite Hc.
      destruct (SkClipStack_isWideOpen s) eqn:Ew; simpl; [reflexivity|].
      rewrite Ew. reflexivity.
  - specialize (Ho other eq_refl).
    destruct (GrClip_assign_ok other this tr Hi Ho)
      as (c & Hs & Hic & Hty & Hor & Hp).
    exists c. eexists. split; [exact Hs|]. split; [exact Hic|].
    split.
    + intros a.
      rewrite refBalance_app, refBalance_released, refBalance_acquired.
      rewrite (holds_same a c other Hty Hp). lia.
    + intros Hc. exact (collapsed_same c other Hty Hp (Hc other eq_refl)).
  - destruct (GrClip_reset_ok this tr Hi) as (c & Hs & Hty & Hz & Hic & Hn).
    exists c. eexists. split; [exact Hs|]. split; [exact Hic|].
    split.
    + intros a. rewrite refBalance_released, (holds_wide_open a c Hty). lia.
    + intros _. unfold collapsed. rewrite Hty. reflexivity.
Qed.

Lemma mutateAll_ok (ms : list Mutation) (this : GrClip.t) (tr : list Event) :
  invariant this = true ->
  Forall (fun c => invariant c = true) (assignedFrom ms) ->
  exists this' ev,
    mutateAll ms this tr = Ok (this', tr ++ ev) /\
    invariant this' = true /\
    (forall a, refBalance a ev = holds this' a - holds this a) /\
    (collapsed this = true ->
     Forall (fun c => collapsed c = true) (assignedFrom ms) ->
     collapsed this' = true).
Proof.
  revert this tr. induction ms as [|m ms IH]; intros this tr Hi Ho.
  - exists this, []. simpl. run_c. rewrite app_nil_r.
    split; [reflexivity|]. split; [exact Hi|]. split; [intros a; simpl; lia|auto].
  - unfold assignedFrom in *. simpl in *.
    apply Forall_app in Ho. destruct Ho as [Ho1 Ho2].
    destruct (mutate_ok m this tr Hi) as (c1 & ev1 & Hm & Hi1 & Hb1 & Hc1).
    { intros other ->. inversion Ho1; assumption. }
    destruct (IH c1 (tr ++ ev1) Hi1 Ho2) as (c2 & ev2 & Hr & Hi2 & Hb2 & Hc2).
    exists c2, (ev1 ++ ev2). simpl. rewrite (bind_ok _ _ _ _ _ Hm), Hr.
    split; [rewrite app_assoc; reflexivity|]. split; [exact Hi2|].
    split.
    + intros a. rewrite refBalance_app, Hb1, Hb2. lia.
    + intros Hc Hf. apply Forall_app in Hf. destruct Hf as [Hf1 Hf2].
      apply Hc2; [|exact Hf2]. apply Hc1.
      intros other ->. inversion Hf1; assumption.
Qed.

(** X1.  Whatever sequence of [setClipStack], [operator=] and [reset] calls
    a clip goes through, every call succeeds and the references it has taken
    on each stack, minus those it has released, always equal what it holds
    now minus what it held at the start (one reference for the stack of a
    stack clip, none otherwise).  Destroying the clip gives the last one
    back: over its whole life a clip that started out default-constructed
    leaves the count of every stack where it found it. *)
Theorem clip_references_balance (ms : list Mutation) (this : GrClip.t)
    (tr : list Event) :
  invariant this = true ->
  Forall (fun c => invariant c = true) (assignedFrom ms) ->
  exists this' ev final ev',
    mutateAll ms this tr = Ok (this', tr ++ ev) /\
    invariant this' = true /\
    (forall a, refBalance a ev = holds this' a - holds this a) /\
    dtor this' (tr ++ ev) = Ok (final, (tr ++ ev) ++ ev') /\
    (forall a, refBalance a (ev ++ ev') = - holds this a) /\
    (forall a, holds GrClip a = 0).
Proof.
  intros Hi Ho.
  destruct (mutateAll_ok ms this tr Hi Ho) as (c & ev & Hr & Hic & Hb & _).
  destruct (GrClip_reset_ok c (tr ++ ev) Hic) as (d & Hd & Hty & _).
  exists c, ev, d, (released c). split; [exact Hr|]. split; [exact Hic|].
  split; [exact Hb|]. split; [exact Hd|]. split; [|reflexivity].
  intros a. rewrite refBalance_app, Hb, refBalance_released. lia.
Qed.

(** *** Assignment and equality *)

Lemma isWideOpen_same (c d : GrClip.t) :
  fClipType c = fClipType d ->
  (fClipType d <> kWideOpen_ClipType -> fClip c = fClip d) ->
  isWideOpen c = isWideOpen d /\
  (forall r, isWideOpen_SkIRect r c = isWideOpen_SkIRect r d) /\
  (forall r, isWideOpen_SkRect r c = isWideOpen_SkRect r d).
Proof.
  intros Et Ep.
  unfold isWideOpen, isWideOpen_SkIRect, isWideOpen_SkRect,
    clipStack_isWideOpen, clipStack, irect.
  rewrite Et. destruct (fClipType d); simpl; auto;
    rewrite Ep by discriminate; auto.
Qed.

Lemma variant_same (c d : GrClip.t) :
  fClipType c = fClipType d -> fOrigin c = fOrigin d ->
  (fClipType d <> kWideOpen_ClipType -> fClip c = fClip d) ->
  variant c = variant d.
Proof.
  intros Et Eo Ep. unfold variant. rewrite Et, Eo.
  destruct (fClipType d); try reflexivity; rewrite Ep by discriminate;
    reflexivity.
Qed.

(** X2.  After [*this = other] the two clips compare equal with
    [operator==] in both directions, [operator!=] answers false, and the
    three [isWideOpen] queries answer on the copy what they answer on the
    original. *)
Theorem assignment_makes_equal {HE : StackEquivalence} (other this : GrClip.t)
    (tr : list Event) :
  invariant this = true -> invariant other = true ->
  exists this' ev,
    operator_assign other this tr = Ok (this', tr ++ ev) /\
    operator_eq this' other = Ok true /\
    operator_eq other this' = Ok true /\
    operator_ne this' other = Ok false /\
    isWideOpen this' = isWideOpen other /\
    (forall r, isWideOpen_SkIRect r this' = isWideOpen_SkIRect r other) /\
    (forall r, isWideOpen_SkRect r this' = isWideOpen_SkRect r other).
Proof.
  intros Hi Ho.
  destruct (GrClip_assign_ok other this tr Hi Ho)
    as (c & Hs & Hic & Hty & Hor & Hp).
  exists c. eexists. split; [exact Hs|].
  pose proof (variant_same c other Hty Hor Hp) as Hv.
  destruct (consistent_variant other (invariant_consistent _ Ho)) as [v Hvo].
  assert (E1 : operator_eq c other = Ok true).
  { rewrite (operator_eq_refines c other v v);
      auto using invariant_consistent; [|congruence].
    rewrite Variant_eq_refl. reflexivity. }
  assert (E2 : operator_eq other c = Ok true).
  { rewrite (operator_eq_refines other c v v);
      auto using invariant_consistent; [|congruence].
    rewrite Variant_eq_refl. reflexivity. }
  split; [exact E1|]. split; [exact E2|].
  split; [unfold operator_ne; rewrite E1; reflexivity|].
  apply isWideOpen_same; assumption.
Qed.

(** *** Clips a client can build *)

Lemma isWideOpen_collapsed (c : GrClip.t) (candidate : SkIRect) :
  invariant c = true -> collapsed c = true ->
  isWideOpen c = Ok (ClipType_eqb kWideOpen_ClipType (fClipType c)) /\
  ~ stackReportsWideOpen c /\
  (isWideOpen_SkIRect candidate c = Ok true <->
   clipType c = kWideOpen_ClipType \/
   rectContains SkIRect_contains_SkIRect c candidate).
Proof.
  intros Hi Hc. destruct c as [u o ty].
  unfold isWideOpen, isWideOpen_SkIRect, clipStack_isWideOpen,
    stackReportsWideOpen, rectContains, clipStack, irect, clipType, collapsed,
    invariant, consistent in *.
  destruct ty; destruct u as [|[s|]|r]; simpl in *;
    rewrite ?andb_false_r in Hi; try discriminate; run_c;
    (split; [try reflexivity|split]).
  all: try (intros [? _]; discriminate).
  all: try (split; [auto|reflexivity]).
  - apply negb_true_iff in Hc. rewrite Hc. reflexivity.
  - intros [_ (s' & E & Ew)]. injection E as <-.
    apply negb_true_iff in Hc. congruence.
  - apply negb_true_iff in Hc. rewrite Hc.
    split; [discriminate|]. intros [?|[? _]]; discriminate.
  - split.
    + intros E. right. split; [reflexivity|]. exists r. split; congruence.
    + intros [?|[_ (b & E & Eb)]]; [discriminate|]. injection E as <-.
      rewrite Eb. reflexivity.
Qed.

(** X3.  A clip that starts out default-constructed and is only changed by
    [setClipStack], [reset] and assignment from clips built the same way
    never is a stack clip over a region that reports wide open.  For such a
    clip [isWideOpen()] is just the test of the tag, and
    [isWideOpen(rect)] is true exactly for a WideOpen clip or a Rect clip
    whose bounds contain the rectangle. *)
Theorem built_clips_are_collapsed (ms : list Mutation) (tr : list Event)
    (candidate : SkIRect) :
  Forall (fun c => invariant c = true) (assignedFrom ms) ->
  Forall (fun c => collapsed c = true) (assignedFrom ms) ->
  exists c ev,
    mutateAll ms GrClip tr = Ok (c, tr ++ ev) /\
    collapsed c = true /\
    ~ stackReportsWideOpen c /\
    (isWideOpen c = Ok true <-> clipType c = kWideOpen_ClipType) /\
    (isWideOpen c = Ok false <-> clipType c <> kWideOpen_ClipType) /\
    (isWideOpen_SkIRect candidate c = Ok true <->
     clipType c = kWideOpen_ClipType \/
     rectContains SkIRect_contains_SkIRect c candidate).
Proof.
  intros Ho Hf.
  destruct (mutateAll_ok ms GrClip tr eq_refl Ho) as (c & ev & Hr & Hic & _ & Hc).
  specialize (Hc eq_refl Hf).
  destruct (isWideOpen_collapsed c candidate Hic Hc) as (Hw & Hn & Hrect).
  exists c, ev. split; [exact Hr|]. split; [exact Hc|]. split; [exact Hn|].
  unfold clipType. rewrite Hw.
  split; [|split].
  - destruct (fClipType c); simpl; split; congruence.
  - destruct (fClipType c); simpl; split; congruence.
  - exact Hrect.
Qed.

(** *** Self-assignment *)

Lemma operator_assign_unfold (other this : GrClip.t) :
  operator_assign other this = (reset this ≫= assign_after_reset other).
Proof. reflexivity. Qed.

(** X4.  [operator=] through two different pointers is the assignment of
    the pointed-to values.  Through the same pointer it is not the identity:
    [c = c] releases the stack of a stack clip without taking it again and
    leaves a WideOpen clip with origin zero, whatever [c] was; a clip that
    was a Rect or a Stack is no longer equal to what it was. *)
Theorem self_assignment_resets (clips : gmap N GrClip.t) (p q : Addr)
    (c other : GrClip.t) (tr : list Event) :
  clips !! p = Some c -> invariant c = true ->
  clips !! q = Some other -> invariant other = true -> p <> q ->
  (exists c',
     operator_assign_at p p clips tr = Ok (<[p := c']> clips, tr ++ released c) /\
     clipType c' = kWideOpen_ClipType /\
     origin c' = Ok SkIPoint_zero /\
     isWideOpen c' = Ok true /\
     (forall a, holds c' a = 0) /\
     (clipType c <> kWideOpen_ClipType -> operator_eq c' c = Ok false)) /\
  (exists c' ev,
     operator_assign other c tr = Ok (c', tr ++ ev) /\
     operator_assign_at p q clips tr = Ok (<[p := c']> clips, tr ++ ev)).
Proof.
  intros Hp Hi Hq Ho Hne. split.
  - destruct (GrClip_reset_ok c tr Hi) as (r & Hr & Hty & Hz & Hir & Hn).
    exists r. unfold operator_assign_at. rewrite Hp, (bind_ok _ _ _ _ _ Hr).
    rewrite lookup_insert_eq. unfold assign_after_reset. rewrite Hty. run_c.
    rewrite insert_insert_eq.
    assert (Er : set_fOrigin SkIPoint_zero (set_fClipType kWideOpen_ClipType r) = r).
    { destruct r as [u o ty]; simpl in *; subst; reflexivity. }
    rewrite Er. split; [reflexivity|]. split; [exact Hty|].
    split; [rewrite (origin_ok r (invariant_consistent _ Hir)), Hz; reflexivity|].
    split; [unfold isWideOpen; rewrite Hty; reflexivity|].
    split; [intros a; apply holds_wide_open, Hty|].
    unfold operator_eq, clipType. rewrite Hty.
    destruct (fClipType c); simpl; congruence.
  - destruct (GrClip_assign_ok other c tr Hi Ho) as (c' & Hs & _).
    exists c'. eexists. split; [exact Hs|].
    rewrite operator_assign_unfold in Hs.
    apply bind_inv in Hs. destruct Hs as (r & tr1 & Hr & Ha).
    unfold operator_assign_at. rewrite Hp, (bind_ok _ _ _ _ _ Hr).
    rewrite lookup_insert_ne by congruence. rewrite Hq.
    rewrite (bind_ok _ _ _ _ _ Ha). run_c. rewrite insert_insert_eq.
    reflexivity.
Qed.

End GrClipMutations.

Lemma clip_references_balance_witness :
  exists this' ev,
    GrClip.mutateAll (H := GrClip.exampleEnv)
      [GrClip.MSetClipStack 4 None;
       GrClip.MAssign (GrClip.exampleStack 6 1 1);
       GrClip.MSetClipStack 0 None]
      GrClip.GrClip []
    = Ok (this', [] ++ ev) /\
    GrClip.refBalance 6 ev = GrClip.holds this' 6 - 0.
Proof.
  destruct (clip_references_balance (H := GrClip.exampleEnv)
              [GrClip.MSetClipStack 4 None;
               GrClip.MAssign (GrClip.exampleStack 6 1 1);
               GrClip.MSetClipStack 0 None]
              GrClip.GrClip [] eq_refl)
    as (c & ev & _ & _ & Hr & _ & Hb & _).
  - repeat constructor.
  - exists c, ev. split; [exact Hr|]. apply Hb.
Defined.

Lemma assignment_makes_equal_witness :
  exists this' ev,
    GrClip.operator_assign (GrClip.exampleStack 6 1 1)
      (GrClip.GrClip_SkIRect (GrClip.exampleRect 0 0 10 10)) []
    = Ok (this', [] ++ ev) /\
    GrClip.operator_eq (H := GrClip.exampleEnv) this'
      (GrClip.exampleStack 6 1 1) = Ok true.
Proof.
  destruct (assignment_makes_equal (H := GrClip.exampleEnv)
              (GrClip.exampleStack 6 1 1)
              (GrClip.GrClip_SkIRect (GrClip.exampleRect 0 0 10 10)) []
              eq_refl eq_refl)
    as (c & ev & Hs & He & _).
  exists c, ev. split; [exact Hs|exact He].
Defined.

Lemma built_clips_are_collapsed_witness :
  exists c ev,
    GrClip.mutateAll (H := GrClip.exampleEnv)
      [GrClip.MSetClipStack 1 None;
       GrClip.MAssign (GrClip.exampleStack 6 1 1)]
      GrClip.GrClip []
    = Ok (c, [] ++ ev) /\
    GrClip.collapsed (H := GrClip.exampleEnv) c = true.
Proof.
  destruct (built_clips_are_collapsed (H := GrClip.exampleEnv)
              [GrClip.MSetClipStack 1 None;
               GrClip.MAssign (GrClip.exampleStack 6 1 1)]
              [] (GrClip.exampleRect 0 0 1 1))
    as (c & ev & Hr & Hc & _).
  - repeat constructor.
  - repeat constructor.
  - exists c, ev. split; [exact Hr|exact Hc].
Defined.

Lemma self_assignment_resets_witness :
  exists c',
    GrClip.operator_assign_at 1 1
      (<[2%N := GrClip.GrClip]> {[1%N := GrClip.exampleStack 6 1 1]}) []
    = Ok (<[1%N := c']>
            (<[2%N := GrClip.GrClip]> {[1%N := GrClip.exampleStack 6 1 1]}),
          [] ++ GrClip.released (GrClip.exampleStack 6 1 1)) /\
    GrClip.clipType c' = GrClip.kWideOpen_ClipType.
Proof.
  destruct (self_assignment_resets (H := GrClip.exampleEnv)
              (<[2%N := GrClip.GrClip]> {[1%N := GrClip.exampleStack 6 1 1]})
              1%N 2%N (GrClip.exampleStack 6 1 1) GrClip.GrClip [])
    as ((c' & Hs & Hty & _) & _).
  - reflexivity.
  - reflexivity.
  - reflexivity.
  - reflexivity.
  - discriminate.
  - exists c'. split; [exact Hs|exact Hty].
Defined.

(** ** GrPipelineBuilder: chains, flags, factory, render target, stencil *)

Section BuilderMore.
Import GrPipelineBuilder.
Context `{GrPipelineBuilder.Env}.

Ltac run_x :=
  repeat (unfold mbind, mret, M_bind, M_ret, Res_bind, Res_ret, emit, lift,
            fault, SkRef, SkSafeRef, SkSafeUnref, SkASSERT,
            GrFragmentStage_ctor, GrFragmentStage_dtor, XPFactory_Create,
            SimpleTextureEffect_Create, fXPFactory_reset, fRenderTarget_reset;
          simpl).

Ltac case_eqb :=
  repeat match goal with
         | |- context [N.eqb ?x ?y] => destruct (N.eqb x y)
         end.

(** *** Stage lookup *)

Lemma stage_in_range (l : list GrFragmentStage) (idx : Z) :
  0 <= idx < Z.of_nat (length l) ->
  exists st, l !! Z.to_nat idx = Some st /\
    (SkASSERT ((0 <=? idx) && (idx <? Z.of_nat (length l)));;
     match l !! Z.to_nat idx with
     | Some st => Ok st
     | None => Fault
     end) = Ok st.
Proof.
  intros Hr. destruct (lookup_lt_is_Some_2 l (Z.to_nat idx)) as [st Hst]; [lia|].
  exists st. split; [exact Hst|].
  replace (0 <=? idx) with true by (symmetry; apply Z.leb_le; lia).
  replace (idx <? Z.of_nat (length l)) with true
    by (symmetry; apply Z.ltb_lt; lia).
  run_x. rewrite Hst. reflexivity.
Qed.

Lemma stage_out_of_range (l : list GrFragmentStage) (idx : Z) :
  ~ (0 <= idx < Z.of_nat (length l)) ->
  (SkASSERT ((0 <=? idx) && (idx <? Z.of_nat (length l)));;
   match l !! Z.to_nat idx with
   | Some st => Ok st
   | None => Fault
   end) = Fault.
Proof.
  intros Hr.
  destruct (0 <=? idx) eqn:E1; [|reflexivity].
  destruct (idx <? Z.of_nat (length l)) eqn:E2; [|reflexivity].
  apply Z.leb_le in E1. apply Z.ltb_lt in E2. lia.
Qed.

(** The move of the stages held, when an append reallocates, gives back
    every reference it takes. *)
Lemma procBalance_moveEvents (p : GrFragmentProcessor)
    (l : list GrFragmentStage) :
  procBalance p (moveEvents l) = 0.
Proof.
  induction l as [|st l IH]; [reflexivity|]. simpl.
  fold (moveEvents l). fold (procBalance p (moveEvents l)). rewrite IH.
  destruct (GrFragmentProcessor_eqb p (fProc st)); reflexivity.
Qed.

Lemma procBalance_appendMoves (p : GrFragmentProcessor) (alloc : Z)
    (l : list GrFragmentStage) :
  procBalance p (appendMoves alloc l) = 0.
Proof.
  unfold appendMoves. destruct (reallocates _ _); [|reflexivity].
  apply procBalance_moveEvents.
Qed.

(** X5.  The stage lookups answer exactly inside the bounds of their chain
    and fault outside.  [addColorProcessor] faults on a NULL processor;
    otherwise, if the chain has to change its allocation to make room
    ([reallocates], the policy of SkTArray), every stage already held is
    first copied to the new block and destroyed in the old one, which refs
    and then unrefs its processor, stage by stage in chain order; if not,
    nothing moves.  Then the new stage takes one reference on the processor,
    which is returned.  The chain is one longer, the new stage sits at the
    old count, every earlier index still gives the stage it gave before, the
    coverage chain is untouched, and the move leaves the reference count of
    every processor where it was.  [addCoverageProcessor] is the mirror
    image. *)
Theorem appended_stage_is_last (e : GrFragmentProcessor) (this : t)
    (tr : list Event) :
  (forall idx, getColorStage idx this = Fault <->
               ~ (0 <= idx < numColorStages this)) /\
  (forall idx, getCoverageStage idx this = Fault <->
               ~ (0 <= idx < numCoverageStages this)) /\
  addColorProcessor None this tr = Fault /\
  addCoverageProcessor None this tr = Fault /\
  (exists this',
     addColorProcessor (Some e) this tr
     = Ok (Some e, this',
           tr ++ (if reallocates (fColorStages_fAllocCount this)
                       (numColorStages this)
                  then moveEvents (fColorStages this) else [])
              ++ [EvRef (OProcessor e)]) /\
     numColorStages this' = numColorStages this + 1 /\
     getColorStage (numColorStages this) this' = Ok {| fProc := e |} /\
     (forall idx, 0 <= idx < numColorStages this ->
                  getColorStage idx this' = getColorStage idx this) /\
     (forall idx, getCoverageStage idx this' = getCoverageStage idx this)) /\
  (exists this',
     addCoverageProcessor (Some e) this tr
     = Ok (Some e, this',
           tr ++ (if reallocates (fCoverageStages_fAllocCount this)
                       (numCoverageStages this)
                  then moveEvents (fCoverageStages this) else [])
              ++ [EvRef (OProcessor e)]) /\
     numCoverageStages this' = numCoverageStages this + 1 /\
     getCoverageStage (numCoverageStages this) this' = Ok {| fProc := e |} /\
     (forall idx, 0 <= idx < numCoverageStages this ->
                  getCoverageStage idx this' = getCoverageStage idx this) /\
     (forall idx, getColorStage idx this' = getColorStage idx this)) /\
  (forall p stages, procBalance p (moveEvents stages) = 0) /\
  moveEvents [{| fProc := e |}]
  = [EvRef (OProcessor e); EvUnref (OProcessor e)] /\
  (forall l1 l2, moveEvents (l1 ++ l2) = moveEvents l1 ++ moveEvents l2).
Proof.
  assert (Hlook : forall l idx,
    (SkASSERT ((0 <=? idx) && (idx <? Z.of_nat (length l)));;
     match l !! Z.to_nat idx with Some st => Ok st | None => Fault end)
    = (Fault : Res GrFragmentStage) <-> ~ (0 <= idx < Z.of_nat (length l))).
  { intros l idx. split.
    - intros Hf Hr. destruct (stage_in_range l idx Hr) as (st & _ & Hs).
      congruence.
    - apply stage_out_of_range. }
  assert (Happ : forall l idx,
    (SkASSERT ((0 <=? idx) && (idx <? Z.of_nat (length (l ++ [{| fProc := e |}]))));;
     match (l ++ [{| fProc := e |}]) !! Z.to_nat idx with
     | Some st => Ok st | None => Fault end)
    = (if idx =? Z.of_nat (length l) then Ok {| fProc := e |}
       else SkASSERT ((0 <=? idx) && (idx <? Z.of_nat (length l)));;
            match l !! Z.to_nat idx with Some st => Ok st | None => Fault end)).
  { intros l idx. destruct (idx =? Z.of_nat (length l)) eqn:Ei.
    - apply Z.eqb_eq in Ei. subst idx.
      destruct (stage_in_range (l ++ [{| fProc := e |}]) (Z.of_nat (length l)))
        as (st & Hst & Hs).
      { rewrite length_app. simpl. lia. }
      rewrite Hs. rewrite Nat2Z.id in Hst.
      rewrite lookup_app_r, Nat.sub_diag in Hst by lia. simpl in Hst.
      congruence.
    - apply Z.eqb_neq in Ei.
      destruct (Z_lt_le_dec idx 0) as [Hn|Hp].
      { rewrite !stage_out_of_range by lia. reflexivity. }
      destruct (Z_lt_le_dec idx (Z.of_nat (length l))) as [Hlt|Hge].
      + destruct (stage_in_range l idx) as (st & Hst & Hs); [lia|].
        rewrite Hs.
        destruct (stage_in_range (l ++ [{| fProc := e |}]) idx)
          as (st' & Hst' & Hs').
        { rewrite length_app. simpl. lia. }
        rewrite Hs'. rewrite lookup_app_l in Hst' by lia. congruence.
      + rewrite !stage_out_of_range; [reflexivity|lia|].
        rewrite length_app. simpl. lia. }
  split; [intros idx; apply Hlook|]. split; [intros idx; apply Hlook|].
  split; [reflexivity|]. split; [reflexivity|]. split; [|split; [|split]].
  - eexists. split; [apply addColorProcessor_eq|].
    unfold numColorStages, getColorStage, getCoverageStage, numCoverageStages.
    simpl. split; [rewrite length_app; simpl; lia|].
    split; [rewrite Happ, Z.eqb_refl; reflexivity|].
    split; [|reflexivity].
    intros idx Hr. rewrite Happ.
    replace (idx =? _) with false by (symmetry; apply Z.eqb_neq; lia).
    reflexivity.
  - eexists. split; [apply addCoverageProcessor_eq|].
    unfold numColorStages, getColorStage, getCoverageStage, numCoverageStages.
    simpl. split; [rewrite length_app; simpl; lia|].
    split; [rewrite Happ, Z.eqb_refl; reflexivity|].
    split; [|reflexivity].
    intros idx Hr. rewrite Happ.
    replace (idx =? _) with false by (symmetry; apply Z.eqb_neq; lia).
    reflexivity.
  - apply procBalance_moveEvents.
  - split; [reflexivity|]. intros l1 l2. apply flat_map_app.
Qed.

(** *** Sequences of calls: the chains and what they own *)

Local Arguments GrFragmentProcessor_eqb : simpl never.

Lemma procBalance_app (p : GrFragmentProcessor) (t1 t2 : list Event) :
  procBalance p (t1 ++ t2) = procBalance p t1 + procBalance p t2.
Proof.
  induction t1 as [|e t1 IH]; simpl; [reflexivity|]. rewrite IH. lia.
Qed.

Lemma stagesOn_app (p : GrFragmentProcessor) (l1 l2 : list GrFragmentStage) :
  stagesOn p (l1 ++ l2) = stagesOn p l1 + stagesOn p l2.
Proof.
  induction l1 as [|st l1 IH]; simpl; [reflexivity|]. rewrite IH. lia.
Qed.

Lemma step_chains (op : Op) (this : t) (tr : list Event) :
  exists this' ev,
    step op this tr = Ok (this', tr ++ ev) /\
    fColorStages this' = fColorStages this ++ colorStagesOf op /\
    fCoverageStages this' = fCoverageStages this ++ coverageStagesOf op /\
    (forall p, procBalance p ev
               = stagesOn p (colorStagesOf op) + stagesOn p (coverageStagesOf op)) /\
    fRenderTarget this' = fRenderTarget this /\
    fStencilSettings this' = fStencilSettings this /\
    fDrawFace this' = fDrawFace this /\
    fClip this' = fClip this.
Proof.
  destruct op; unfold step.
  1-4: eexists; eexists;
    (split; [unfold addColorTextureProcessor, addCoverageTextureProcessor;
             run_x;
             rewrite ?addColorProcessor_eq, ?addCoverageProcessor_eq; run_x;
             rewrite <- ?app_assoc; reflexivity|]);
    simpl; rewrite ?app_nil_r; repeat split; try reflexivity;
    intros p; rewrite ?procBalance_app, ?procBalance_appendMoves; simpl;
    destruct (GrFragmentProcessor_eqb p _); lia.
  1-2: eexists; exists [];
    (split; [run_x; rewrite app_nil_r; reflexivity|]);
    simpl; rewrite ?app_nil_r; repeat split; reflexivity.
  1-4: eexists; exists [];
    (split; [run_x; rewrite app_nil_r; reflexivity|]);
    unfold calcColorInvariantOutput_pp, calcCoverageInvariantOutput_pp,
      calcColorInvariantOutput_batch, calcCoverageInvariantOutput_batch,
      calcColorInvariantOutput, calcCoverageInvariantOutput;
    match goal with |- context [if ?c then _ else _] => destruct c end;
    simpl; rewrite ?app_nil_r; repeat split; reflexivity.
  destruct (fXPFactory this) as [f|] eqn:E.
  - exists this, []. rewrite (bind_ok _ _ _ _ _ (getXPFactory_cached this f tr E)).
    split; [run_x; rewrite app_nil_r; reflexivity|].
    simpl; rewrite ?app_nil_r; repeat split; reflexivity.
  - eexists. eexists. rewrite (bind_ok _ _ _ _ _ (getXPFactory_first this tr E)).
    split; [run_x; reflexivity|].
    simpl; rewrite ?app_nil_r; repeat split; reflexivity.
Qed.

(** X6.  Stage additions (by processor or through the texture overloads),
    flag changes, cache reads and reads of the transfer factory, in any
    number and order: every call succeeds; each chain ends up as what it was
    followed by the stages the calls appended to it, in call order, so every
    index that was valid before still gives the same stage; for every
    processor the references taken on it (its creation included) minus those
    given back equal the number of new stages that wrap it; and render
    target, stencil, face culling and clip are as they were. *)
Theorem chains_grow_in_call_order (ops : list Op) (this : t)
    (tr : list Event) :
  exists this' ev,
    run ops this tr = Ok (this', tr ++ ev) /\
    fColorStages this' = fColorStages this ++ flat_map colorStagesOf ops /\
    fCoverageStages this'
    = fCoverageStages this ++ flat_map coverageStagesOf ops /\
    (forall idx, 0 <= idx < numColorStages this ->
                 getColorStage idx this' = getColorStage idx this) /\
    (forall idx, 0 <= idx < numCoverageStages this ->
                 getCoverageStage idx this' = getCoverageStage idx this) /\
    (forall p, procBalance p ev
               = stagesOn p (flat_map colorStagesOf ops)
                 + stagesOn p (flat_map coverageStagesOf ops)) /\
    getRenderTarget this' = getRenderTarget this /\
    getStencil this' = getStencil this /\
    getDrawFace this' = getDrawFace this /\
    clip this' = clip this.
Proof.
  assert (Hrun : exists this' ev,
    run ops this tr = Ok (this', tr ++ ev) /\
    fColorStages this' = fColorStages this ++ flat_map colorStagesOf ops /\
    fCoverageStages this'
    = fCoverageStages this ++ flat_map coverageStagesOf ops /\
    (forall p, procBalance p ev
               = stagesOn p (flat_map colorStagesOf ops)
                 + stagesOn p (flat_map coverageStagesOf ops)) /\
    fRenderTarget this' = fRenderTarget this /\
    fStencilSettings this' = fStencilSettings this /\
    fDrawFace this' = fDrawFace this /\
    fClip this' = fClip this).
  { revert this tr. induction ops as [|op ops IH]; intros this tr.
    - exists this, []. simpl. run_x. rewrite !app_nil_r.
      repeat split; reflexivity.
    - destruct (step_chains op this tr)
        as (b1 & ev1 & Hs & Hc1 & Hv1 & Hp1 & Hr1 & Hst1 & Hf1 & Hcl1).
      destruct (IH b1 (tr ++ ev1))
        as (b2 & ev2 & Hr & Hc2 & Hv2 & Hp2 & Hr2 & Hst2 & Hf2 & Hcl2).
      exists b2, (ev1 ++ ev2). simpl. rewrite (bind_ok _ _ _ _ _ Hs), Hr.
      split; [rewrite app_assoc; reflexivity|].
      split; [rewrite Hc2, Hc1, <- app_assoc; reflexivity|].
      split; [rewrite Hv2, Hv1, <- app_assoc; reflexivity|].
      split; [|repeat split; congruence].
      intros p. rewrite procBalance_app, !stagesOn_app, Hp1, Hp2. lia. }
  destruct Hrun as (b & ev & Hr & Hc & Hv & Hp & Hrt & Hst & Hf & Hcl).
  exists b, ev. split; [exact Hr|]. split; [exact Hc|]. split; [exact Hv|].
  split; [|split; [|split; [exact Hp|repeat split; assumption]]].
  - intros idx Hi. unfold getColorStage, numColorStages in *. rewrite Hc.
    destruct (stage_in_range (fColorStages this) idx Hi) as (st & Hst1 & ->).
    destruct (stage_in_range (fColorStages this ++ flat_map colorStagesOf ops) idx)
      as (st' & Hst' & ->).
    { rewrite length_app. lia. }
    rewrite lookup_app_l in Hst' by lia. congruence.
  - intros idx Hi. unfold getCoverageStage, numCoverageStages in *. rewrite Hv.
    destruct (stage_in_range (fCoverageStages this) idx Hi) as (st & Hst1 & ->).
    destruct (stage_in_range
                (fCoverageStages this ++ flat_map coverageStagesOf ops) idx)
      as (st' & Hst' & ->).
    { rewrite length_app. lia. }
    rewrite lookup_app_l in Hst' by lia. congruence.
Qed.

(** *** Reading the state flags back *)

Lemma land_pow2 (x k : Z) :
  0 <= k -> negb (0 =? Z.land x (2 ^ k)) = Z.testbit x k.
Proof.
  intros Hk.
  assert (E : Z.land x (2 ^ k) = if Z.testbit x k then 2 ^ k else 0).
  { apply Z.bits_inj'. intros n Hn. rewrite Z.land_spec, Z.pow2_bits_eqb by lia.
    destruct (Z.eqb_spec k n) as [->|Hne].
    - destruct (Z.testbit x n); rewrite ?Z.pow2_bits_true, ?Z.bits_0 by lia;
        reflexivity.
    - rewrite andb_false_r.
      destruct (Z.testbit x k); rewrite ?Z.pow2_bits_false, ?Z.bits_0 by lia;
        reflexivity. }
  rewrite E. destruct (Z.testbit x k); [|reflexivity].
  assert (0 < 2 ^ k) by (apply Z.pow_pos_nonneg; lia).
  destruct (Z.eqb_spec 0 (2 ^ k)); [lia|reflexivity].
Qed.

Lemma not32_low_bit (bits k : Z) :
  0 <= k < 32 -> Z.testbit (not32 bits) k = negb (Z.testbit bits k).
Proof.
  intros Hk. unfold not32.
  rewrite Z.mod_pow2_bits_low by lia. apply Z.lnot_spec. lia.
Qed.

(** X7.  [isDither] and [isHWAntialias] read bit 0 and bit 1 of the flag
    word.  After [enableState(bits)] each is true iff it was true or its bit
    is in the mask; after [disableState(bits)] iff it was true and its bit is
    not in the mask; [setState] is one or the other.  So enabling one of the
    two named bits never changes the answer for the other, and bits of the
    mask above bit 1 change neither. *)
Theorem flags_read_back (this : t) (bits : Z) :
  isDither this = Z.testbit (fFlagBits this) 0 /\
  isHWAntialias this = Z.testbit (fFlagBits this) 1 /\
  isDither (enableState bits this) = isDither this || Z.testbit bits 0 /\
  isHWAntialias (enableState bits this)
  = isHWAntialias this || Z.testbit bits 1 /\
  isDither (disableState bits this)
  = isDither this && negb (Z.testbit bits 0) /\
  isHWAntialias (disableState bits this)
  = isHWAntialias this && negb (Z.testbit bits 1) /\
  (forall enable,
     isDither (setState bits enable this)
     = if enable then isDither this || Z.testbit bits 0
       else isDither this && negb (Z.testbit bits 0)) /\
  isHWAntialias (enableState kDither_StateBit this) = isHWAntialias this /\
  isDither (enableState kHWAntialias_StateBit this) = isDither this /\
  isHWAntialias (disableState kDither_StateBit this) = isHWAntialias this /\
  isDither (disableState kHWAntialias_StateBit this) = isDither this /\
  isDither (disableState kDither_StateBit (enableState kDither_StateBit this))
  = false /\
  isDither (enableState kDither_StateBit (disableState kDither_StateBit this))
  = true.
Proof.
  assert (Hd : forall b, isDither b = Z.testbit (fFlagBits b) 0).
  { intros b. unfold isDither, kDither_StateBit.
    exact (land_pow2 (fFlagBits b) 0 ltac:(lia)). }
  assert (Ha : forall b, isHWAntialias b = Z.testbit (fFlagBits b) 1).
  { intros b. unfold isHWAntialias, kHWAntialias_StateBit.
    exact (land_pow2 (fFlagBits b) 1 ltac:(lia)). }
  assert (He : forall m b i, Z.testbit (fFlagBits (enableState m b)) i
                             = Z.testbit (fFlagBits b) i || Z.testbit m i).
  { intros m b i. unfold enableState. simpl. apply Z.lor_spec. }
  assert (Hx : forall m b i, 0 <= i < 32 ->
             Z.testbit (fFlagBits (disableState m b)) i
             = Z.testbit (fFlagBits b) i && negb (Z.testbit m i)).
  { intros m b i Hi. unfold disableState. simpl.
    rewrite Z.land_spec, not32_low_bit by lia. reflexivity. }
  rewrite !Hd, !Ha, !He, !Hx, !He by lia.
  unfold kDither_StateBit, kHWAntialias_StateBit.
  change (Z.testbit 1 0) with true. change (Z.testbit 1 1) with false.
  change (Z.testbit 2 0) with false. change (Z.testbit 2 1) with true.
  simpl negb. rewrite ?orb_false_r, ?andb_true_r, ?orb_true_r, ?andb_false_r.
  repeat split; try reflexivity.
  intros [|]; unfold setState; rewrite Hd.
  - apply He.
  - apply Hx. lia.
Qed.

(** *** The transfer-processor factory *)

(** X8.  [setXPFactory] asserts on NULL.  On a factory it takes one
    reference on it, gives back the one on the factory held before and
    returns its argument; the two convenience setters adopt the factory
    their Create call made, without a further reference.  After any of the
    three, and after any further stage additions, flag changes and cache
    reads, [getXPFactory] returns the factory that was set and no factory is
    created: the default is never materialized. *)
Theorem set_factory_is_read_back (this : t) (f : GrXPFactory)
    (regionOp : SkRegion_Op) (invertCoverage : bool) (ops : list Op)
    (tr : list Event) :
  setXPFactory None this tr = Fault /\
  (exists b,
     setXPFactory (Some f) this tr
     = Ok (Some f, b, tr ++ EvRef (OXPFactory f)
                            :: unrefOf OXPFactory (fXPFactory this)) /\
     b = set_fXPFactory (Some f) this) /\
  (exists b,
     setCoverageSetOpXPFactory regionOp invertCoverage this tr
     = Ok (b, tr ++ EvCreate (OXPFactory (GrCoverageSetOpXPFactory_Create
                                             regionOp invertCoverage))
                    :: unrefOf OXPFactory (fXPFactory this)) /\
     b = set_fXPFactory
           (Some (GrCoverageSetOpXPFactory_Create regionOp invertCoverage))
           this) /\
  (exists b,
     setDisableColorXPFactory this tr
     = Ok (b, tr ++ EvCreate (OXPFactory GrDisableColorXPFactory_Create)
                    :: unrefOf OXPFactory (fXPFactory this)) /\
     b = set_fXPFactory (Some GrDisableColorXPFactory_Create) this) /\
  (forall g tr1,
     exists b ev,
       run ops (set_fXPFactory (Some g) this) tr1 = Ok (b, tr1 ++ ev) /\
       getXPFactory b (tr1 ++ ev) = Ok (Some g, b, tr1 ++ ev) /\
       existsb createsXPFactory ev = false).
Proof.
  split; [reflexivity|].
  split.
  { eexists. split; [|reflexivity]. unfold setXPFactory. run_x.
    destruct (fXPFactory this); run_x; rewrite <- ?app_assoc; reflexivity. }
  split.
  { eexists. split; [|reflexivity]. unfold setCoverageSetOpXPFactory. run_x.
    destruct (fXPFactory this); run_x; rewrite <- ?app_assoc; reflexivity. }
  split.
  { eexists. split; [|reflexivity]. unfold setDisableColorXPFactory. run_x.
    destruct (fXPFactory this); run_x; rewrite <- ?app_assoc; reflexivity. }
  intros g tr1.
  destruct (run_ok ops (set_fXPFactory (Some g) this) tr1)
    as (b & ev & Hr & Hx & _).
  destruct (Hx g eq_refl) as [Hg Hn].
  exists b, ev. split; [exact Hr|]. split; [|exact Hn].
  apply getXPFactory_cached, Hg.
Qed.

(** *** The render target *)

Lemma targetBalance_app (a : Addr) (t1 t2 : list Event) :
  targetBalance a (t1 ++ t2) = targetBalance a t1 + targetBalance a t2.
Proof.
  induction t1 as [|e t1 IH]; simpl; [reflexivity|]. rewrite IH. lia.
Qed.

Lemma holdsTarget_range (this : t) (a : Addr) : 0 <= holdsTarget this a <= 1.
Proof.
  unfold holdsTarget. destruct (fRenderTarget this) as [b|]; [|lia].
  destruct (N.eqb a b); lia.
Qed.

Lemma setRenderTarget_ok (target : option Addr) (this : t) (tr : list Event) :
  setRenderTarget target this tr
  = Ok (set_fRenderTarget target this,
        tr ++ refOf ORenderTarget target
           ++ unrefOf ORenderTarget (fRenderTarget this)) /\
  (forall a, targetBalance a (refOf ORenderTarget target
                              ++ unrefOf ORenderTarget (fRenderTarget this))
             = holdsTarget (set_fRenderTarget target this) a
               - holdsTarget this a) /\
  (forall a pre suf,
     refOf ORenderTarget target ++ unrefOf ORenderTarget (fRenderTarget this)
     = pre ++ suf ->
     0 <= holdsTarget this a + targetBalance a pre /\
     (target = Some a -> holdsTarget this a = 1 ->
      1 <= holdsTarget this a + targetBalance a pre)).
Proof.
  split; [|split].
  - unfold setRenderTarget, fRenderTarget_reset.
    destruct target as [t0|]; destruct (fRenderTarget this) as [o|] eqn:Eo;
      unfold SkSafeRef, SkSafeUnref, mbind, mret, M_bind, M_ret, emit;
      cbn [refOf unrefOf]; rewrite ?Eo, <- ?app_assoc, ?app_nil_r;
      reflexivity.
  - intros a. unfold holdsTarget. cbn [fRenderTarget set_fRenderTarget].
    destruct target as [t0|]; destruct (fRenderTarget this) as [o|];
      cbn [refOf unrefOf app targetBalance fold_right targetDelta];
      case_eqb; lia.
  - intros a pre suf E. unfold holdsTarget.
    destruct (fRenderTarget this) as [o|]; destruct target as [t0|];
      cbn [refOf unrefOf app] in E.
    + destruct pre as [|e1 [|e2 [|e3 pre]]]; cbn [app] in E;
        try discriminate E.
      * cbn. split; [case_eqb; lia|lia].
      * injection E as <- _. cbn. split; [case_eqb; lia|].
        intros [= ->]. rewrite N.eqb_refl. lia.
      * injection E as <- <- _. cbn. split; [case_eqb; lia|].
        intros [= ->]. rewrite N.eqb_refl. case_eqb; lia.
    + destruct pre as [|e1 [|e2 pre]]; cbn [app] in E; try discriminate E.
      * cbn. split; [case_eqb; lia|lia].
      * injection E as <- _. cbn. split; [case_eqb; lia|discriminate].
    + destruct pre as [|e1 [|e2 pre]]; cbn [app] in E; try discriminate E.
      * cbn. split; lia.
      * injection E as <- _. cbn. split; [case_eqb; lia|lia].
    + destruct pre as [|e1 pre]; cbn [app] in E; try discriminate E.
      cbn. split; lia.
Qed.

Lemma last_cons_default {A} (x d : A) (l : list A) :
  List.last (x :: l) d = List.last l x.
Proof.
  revert x d. induction l as [|y l IH]; intros x d; [reflexivity|].
  change (List.last (x :: y :: l) d) with (List.last (y :: l) d).
  rewrite (IH y d), (IH y x). reflexivity.
Qed.

(** X9.  [setRenderTarget] called any number of times, NULL included:
    [getRenderTarget] returns the target of the last call and nothing else
    in the builder changes.  For every render target the references taken
    minus those given back equal what the builder holds now minus what it
    held at the start, and at no point in between has the builder given back
    a reference it did not hold.  The new target is referenced before the
    old one is released: setting the target that is already set never lets
    the builder's count on it fall below one. *)
Theorem render_target_references (targets : list (option Addr)) (this : t)
    (tr : list Event) :
  exists this' ev,
    setRenderTargets targets this tr = Ok (this', tr ++ ev) /\
    getRenderTarget this' = List.last targets (getRenderTarget this) /\
    this' = set_fRenderTarget (getRenderTarget this') this /\
    (forall a, targetBalance a ev
               = holdsTarget this' a - holdsTarget this a) /\
    (forall a pre suf, ev = pre ++ suf ->
                       0 <= holdsTarget this a + targetBalance a pre) /\
    (forall a pre suf,
       holdsTarget this a = 1 -> Forall (fun x => x = Some a) targets ->
       ev = pre ++ suf ->
       1 <= holdsTarget this a + targetBalance a pre).
Proof.
  revert this tr. induction targets as [|target targets IH]; intros this tr.
  - exists this, []. simpl. run_x. rewrite app_nil_r.
    split; [reflexivity|]. split; [reflexivity|].
    split; [destruct this; reflexivity|]. split; [intros a; simpl; lia|].
    split.
    + intros a pre suf E. symmetry in E. apply app_eq_nil in E.
      destruct E as [-> _]. simpl. pose proof (holdsTarget_range this a). lia.
    + intros a pre suf Hh _ E. symmetry in E. apply app_eq_nil in E.
      destruct E as [-> _]. simpl. lia.
  - destruct (setRenderTarget_ok target this tr) as (Hs & Hb1 & Hp1).
    destruct (IH (set_fRenderTarget target this)
                 (tr ++ refOf ORenderTarget target
                     ++ unrefOf ORenderTarget (fRenderTarget this)))
      as (b2 & ev2 & Hr & Hg & Hshape & Hb2 & Hp2 & Hq2).
    exists b2. eexists. cbn [setRenderTargets].
    rewrite (bind_ok _ _ _ _ _ Hs), Hr.
    split; [rewrite <- app_assoc; reflexivity|].
    split; [rewrite Hg, last_cons_default; reflexivity|].
    split; [rewrite Hshape at 1; destruct this; reflexivity|].
    split; [intros a; rewrite targetBalance_app, Hb1, Hb2; lia|].
    split.
    + intros a pre suf E. symmetry in E. apply app_eq_app in E.
      destruct E as [l [[-> E2]|[E1 E2]]].
      * rewrite targetBalance_app, Hb1.
        specialize (Hp2 a l suf E2). lia.
      * apply (Hp1 a pre l E1).
    + intros a pre suf Hh Hall E. inversion Hall as [|? ? Ht Hrest]; subst.
      symmetry in E. apply app_eq_app in E.
      destruct E as [l [[-> E2]|[E1 E2]]].
      * rewrite targetBalance_app, Hb1.
        assert (Hh1 : holdsTarget (set_fRenderTarget (Some a) this) a = 1).
        { unfold holdsTarget. simpl. rewrite N.eqb_refl. reflexivity. }
        specialize (Hq2 a l suf Hh1 Hrest E2). lia.
      * apply (Hp1 a pre l E1); [reflexivity|exact Hh].
Qed.

(** *** Face culling *)

(** X10.  [setDrawFace] asserts exactly on [kInvalid_DrawFace].  Any other
    face is what [getDrawFace] returns afterwards, also after any further
    stage additions, flag changes and cache reads, and the call changes
    nothing else in the builder. *)
Theorem draw_face_is_read_back (face : DrawFace) (this : t) (ops : list Op)
    (tr : list Event) :
  (setDrawFace face this = Fault <-> face = kInvalid_DrawFace) /\
  (face <> kInvalid_DrawFace ->
   exists b b' ev,
     setDrawFace face this = Ok b /\
     getDrawFace b = face /\
     b = set_fDrawFace face this /\
     run ops b tr = Ok (b', tr ++ ev) /\
     getDrawFace b' = face).
Proof.
  split.
  - destruct face; unfold setDrawFace; run_x; split; congruence.
  - intros Hf.
    assert (Hs : setDrawFace face this = Ok (set_fDrawFace face this))
      by (destruct face; [congruence|reflexivity..]).
    assert (Hrun : forall ops b tr, exists b' ev,
               run ops b tr = Ok (b', tr ++ ev) /\ fDrawFace b' = fDrawFace b).
    { clear. intros ops. induction ops as [|op ops IH]; intros b tr.
      - exists b, []. simpl. run_x. rewrite app_nil_r. split; reflexivity.
      - destruct (step_chains op b tr) as (b1 & ev1 & Hs & _ & _ & _ & _ & _ & Hf1 & _).
        destruct (IH b1 (tr ++ ev1)) as (b2 & ev2 & Hr & Hf2).
        exists b2, (ev1 ++ ev2). simpl. rewrite (bind_ok _ _ _ _ _ Hs), Hr.
        split; [rewrite app_assoc; reflexivity|congruence]. }
    destruct (Hrun ops (set_fDrawFace face this) tr) as (b' & ev & Hr & Hf').
    exists (set_fDrawFace face this), b', ev.
    split; [exact Hs|]. split; [reflexivity|]. split; [reflexivity|].
    split; [exact Hr|exact Hf'].
Qed.

(** *** AutoRestoreStencil *)

Lemma stencil_eta (b : t) :
  setStencil (getStencil b) b = b.
Proof. destruct b; reflexivity. Qed.

Lemma exec_ok (p : Addr) (s : AutoRestoreStencil.Stmt) (store : gmap N t)
    (b : t) :
  store !! p = Some b ->
  exists b',
    AutoRestoreStencil.exec p s store = Ok (<[p := b']> store) /\
    b' = set_fFlagBits (fFlagBits b') (setStencil (getStencil b') b).
Proof.
  revert store b. induction s as [|v| |bits|bits|s1 IH1 s2 IH2|body IH];
    intros store b Hb; simpl; unfold AutoRestoreStencil.update.
  - exists b. rewrite insert_id by exact Hb.
    split; [reflexivity|destruct b; reflexivity].
  - rewrite Hb. eexists. split; [reflexivity|destruct b; reflexivity].
  - rewrite Hb. eexists. split; [reflexivity|destruct b; reflexivity].
  - rewrite Hb. eexists. split; [reflexivity|destruct b; reflexivity].
  - rewrite Hb. eexists. split; [reflexivity|destruct b; reflexivity].
  - destruct (IH1 store b Hb) as (b1 & He1 & E1).
    destruct (IH2 (<[p := b1]> store) b1 (lookup_insert_eq _ _ _))
      as (b2 & He2 & E2).
    exists b2. rewrite He1. run_x. rewrite He2, insert_insert_eq.
    split; [reflexivity|].
    rewrite E2 at 1. rewrite E1 at 1. destruct b; reflexivity.
  - unfold AutoRestoreStencil.AutoRestoreStencil_ds, AutoRestoreStencil.set.
    simpl. rewrite Hb. run_x.
    destruct (IH store b Hb) as (b1 & He1 & E1). rewrite He1. run_x.
    unfold AutoRestoreStencil.dtor, AutoRestoreStencil.set. simpl.
    rewrite lookup_insert_eq. run_x. rewrite insert_insert_eq.
    eexists. split; [reflexivity|].
    rewrite E1 at 2. rewrite E1 at 1. destruct b; reflexivity.
Qed.

(** X11.  A block that declares an AutoRestoreStencil on a live builder and
    then sets or disables the stencil and changes state flags, with further
    guarded blocks nested to any depth, runs without fault.  At its end the
    builder has the stencil settings it had when the block was entered, and
    everything else the body did to it stays: the result is that of the
    body without the guard, with the old stencil put back.  A body that
    leaves the flags alone leaves the whole store as it was.  Default
    construction followed by destruction touches nothing. *)
Theorem AutoRestoreStencil_restores_stencil (p : Addr)
    (body : AutoRestoreStencil.Stmt) (store : gmap N t) (b : t) :
  store !! p = Some b ->
  exists b1,
    AutoRestoreStencil.exec p body store = Ok (<[p := b1]> store) /\
    AutoRestoreStencil.exec p (AutoRestoreStencil.SScope body) store
    = Ok (<[p := setStencil (getStencil b) b1]> store) /\
    getStencil (setStencil (getStencil b) b1) = getStencil b /\
    isDither (setStencil (getStencil b) b1) = isDither b1 /\
    isHWAntialias (setStencil (getStencil b) b1) = isHWAntialias b1 /\
    (fFlagBits b1 = fFlagBits b ->
     AutoRestoreStencil.exec p (AutoRestoreStencil.SScope body) store
     = Ok store) /\
    AutoRestoreStencil.dtor AutoRestoreStencil.AutoRestoreStencil store
    = Ok store /\
    AutoRestoreStencil.isSet AutoRestoreStencil.AutoRestoreStencil = false.
Proof.
  intros Hb. destruct (exec_ok p body store b Hb) as (b1 & He & E1).
  exists b1. split; [exact He|].
  assert (Hs : AutoRestoreStencil.exec p (AutoRestoreStencil.SScope body) store
               = Ok (<[p := setStencil (getStencil b) b1]> store)).
  { simpl.
    unfold AutoRestoreStencil.AutoRestoreStencil_ds, AutoRestoreStencil.set.
    simpl. rewrite Hb. run_x. rewrite He. run_x.
    unfold AutoRestoreStencil.dtor, AutoRestoreStencil.set. simpl.
    rewrite lookup_insert_eq. run_x. rewrite insert_insert_eq. reflexivity. }
  split; [exact Hs|]. split; [reflexivity|]. split; [reflexivity|].
  split; [reflexivity|]. split; [|split; reflexivity].
  intros Hf. rewrite Hs. f_equal.
  assert (E : setStencil (getStencil b) b1 = b).
  { rewrite E1. rewrite Hf. destruct b; reflexivity. }
  rewrite E. apply insert_id, Hb.
Qed.

End BuilderMore.

(** Four stages fill the four slots a chain starts with: the fifth append
    moves them to a block of eight before the new stage takes its
    reference. *)
Lemma appended_stage_is_last_witness :
  exists this',
    GrPipelineBuilder.addColorProcessor (H := GrPipelineBuilder.exampleEnv)
      (Some (ExternalProcessor 5))
      (GrPipelineBuilder.exampleUnguarded
         [ExternalProcessor 1; ExternalProcessor 2; ExternalProcessor 3;
          ExternalProcessor 4])
      []
    = Ok (Some (ExternalProcessor 5), this',
          [EvRef (OProcessor (ExternalProcessor 1));
           EvUnref (OProcessor (ExternalProcessor 1));
           EvRef (OProcessor (ExternalProcessor 2));
           EvUnref (OProcessor (ExternalProcessor 2));
           EvRef (OProcessor (ExternalProcessor 3));
           EvUnref (OProcessor (ExternalProcessor 3));
           EvRef (OProcessor (ExternalProcessor 4));
           EvUnref (OProcessor (ExternalProcessor 4));
           EvRef (OProcessor (ExternalProcessor 5))]) /\
    GrPipelineBuilder.numColorStages this' = 5 /\
    GrPipelineBuilder.fColorStages_fAllocCount this' = 8.
Proof.
  destruct (appended_stage_is_last (H := GrPipelineBuilder.exampleEnv)
              (ExternalProcessor 5)
              (GrPipelineBuilder.exampleUnguarded
                 [ExternalProcessor 1; ExternalProcessor 2;
                  ExternalProcessor 3; ExternalProcessor 4])
              [])
    as (_ & _ & _ & _ & (b & Ha & Hn & _) & _).
  exists b. split; [exact Ha|]. split; [exact Hn|].
  vm_compute in Ha. injection Ha as <-. reflexivity.
Defined.

Lemma AutoRestoreStencil_restores_stencil_witness :
  exists b1,
    GrPipelineBuilder.AutoRestoreStencil.exec (H := GrPipelineBuilder.exampleEnv)
      1%N
      (GrPipelineBuilder.AutoRestoreStencil.SScope
         (GrPipelineBuilder.AutoRestoreStencil.SSeq
            (GrPipelineBuilder.AutoRestoreStencil.SSetStencil
               (H := GrPipelineBuilder.exampleEnv) true)
            (GrPipelineBuilder.AutoRestoreStencil.SScope
               GrPipelineBuilder.AutoRestoreStencil.SDisableStencil)))
      {[1%N := GrPipelineBuilder.GrPipelineBuilder]}
    = Ok (<[1%N := GrPipelineBuilder.setStencil
                     (GrPipelineBuilder.getStencil
                        GrPipelineBuilder.GrPipelineBuilder) b1]>
            {[1%N := GrPipelineBuilder.GrPipelineBuilder]}).
Proof.
  destruct (AutoRestoreStencil_restores_stencil (H := GrPipelineBuilder.exampleEnv)
              1%N
              (GrPipelineBuilder.AutoRestoreStencil.SSeq
                 (GrPipelineBuilder.AutoRestoreStencil.SSetStencil
               (H := GrPipelineBuilder.exampleEnv) true)
                 (GrPipelineBuilder.AutoRestoreStencil.SScope
                    GrPipelineBuilder.AutoRestoreStencil.SDisableStencil))
              {[1%N := GrPipelineBuilder.GrPipelineBuilder]}
              GrPipelineBuilder.GrPipelineBuilder)
    as (b1 & _ & Hs & _).
  - reflexivity.
  - exists b1. exact Hs.
Defined.

(** ** SkCachingPixelRef: locks that go through, and the generator *)

Section PixelRefMore.
Import SkCachingPixelRef.

Ltac run_q :=
  repeat (unfold mbind, mret, M_bind, M_ret, Res_bind, Res_ret, emit, lift,
            fault, SkASSERT, SkDELETE; simpl).

Local Arguments foreignDecode : simpl never.

Lemma foreignDecode_own (g : Addr) (i : SkImageInfo) (rb : Z)
    (px : option Addr) :
  foreignDecode g i rb (EvCall (Call_getPixels g i px rb)) = false.
Proof.
  unfold foreignDecode.
  rewrite !N.eqb_refl, SkIRect_eq_refl, Z.eqb_refl. reflexivity.
Qed.

(** One lock on a pixel ref with a generator, whatever the error flag. *)
Lemma onNewLockPixels_ok (ans : LockAnswers) (this : t) (g : Addr)
    (tr : list Event) :
  fImageGenerator this = Some g ->
  (reachesPixels ans = true -> pixelsPresent ans = true) ->
  exists ok r this' ev,
    onNewLockPixels ans this tr = Ok (ok, r, this', tr ++ ev) /\
    fImageGenerator this' = Some g /\
    info this' = info this /\
    fRowBytes this' = fRowBytes this /\
    existsb isDelete ev = false /\
    existsb (foreignDecode g (info this) (fRowBytes this)) ev = false /\
    fErrorInDecoding this' = negb ok /\
    (fErrorInDecoding this = true -> ok = false /\ ev = []) /\
    (ok = true <-> fErrorInDecoding this = false /\ reachesPixels ans = true).
Proof.
  intros Eg Hpx. unfold onNewLockPixels, decode, reachesPixels, pixelsPresent in *.
  destruct (fErrorInDecoding this) eqn:Ee.
  { exists false, None, this, []. run_q. rewrite app_nil_r.
    repeat split; auto; try discriminate. intros [? _]; discriminate. }
  destruct (ans_Find ans) as [cached|].
  { specialize (Hpx eq_refl). destruct (bm_pixels cached) as [px|] eqn:Ep;
      [|discriminate].
    run_q. rewrite Ep. run_q.
    eexists; eexists; eexists; eexists. split; [reflexivity|].
    simpl. unfold foreignDecode. simpl. repeat split; auto; discriminate. }
  destruct (ans_tryAllocPixels ans); run_q.
  - rewrite Eg. run_q.
    destruct (accepted (ans_getPixels ans)) eqn:Ea.
    + specialize (Hpx eq_refl).
      destruct (bm_pixels (ans_allocated ans)) as [px|] eqn:Ep; [|discriminate].
      destruct (ans_getPixels ans); try discriminate; run_q; rewrite Ep; run_q;
        (eexists; eexists; eexists; eexists;
         split; [rewrite <- ?app_assoc; reflexivity|]);
        simpl; rewrite ?foreignDecode_own; unfold foreignDecode; simpl;
        repeat split; auto; discriminate.
    + destruct (ans_getPixels ans); try discriminate; run_q;
        (eexists; eexists; eexists; eexists;
         split; [rewrite <- ?app_assoc; reflexivity|]);
        simpl; rewrite ?foreignDecode_own; unfold foreignDecode; simpl;
        repeat split; auto; try discriminate; intros [_ ?]; discriminate.
  - eexists; eexists; eexists; eexists.
    split; [rewrite <- ?app_assoc; reflexivity|].
    simpl. unfold foreignDecode. simpl.
    repeat split; auto; try discriminate. intros [_ ?]; discriminate.
Qed.

(** X12.  A lock on a pixel ref with a generator and no recorded error
    trips the assertion of line 72 exactly when it gets as far as that line
    (a cache hit, or a miss followed by a successful allocation and a decode
    answering success or incomplete input) with a bitmap that has no pixels;
    it answers true exactly when it gets there with pixels.  A true answer
    comes with the record filled from the locked bitmap (its pixels, no
    colour table, its row bytes) and the error flag still clear.  On a hit
    the locked bitmap is the cached one and the only call made is the cache
    lookup: nothing is allocated and the generator is not asked.  On a miss
    the calls are lookup, allocation, getPixels on the generator with the
    pixel ref's info and row bytes, and one insertion into the cache, in
    this order; the bitmap handed to the cache is the allocated one (its
    pixels and row bytes) already made immutable: the insertion event
    carries the immutability flag as it is at the moment of the call, and it
    is set. *)
Theorem lock_goes_through (ans : LockAnswers) (this : t) (g : Addr)
    (tr : list Event) :
  fErrorInDecoding this = false -> fImageGenerator this = Some g ->
  (onNewLockPixels ans this tr = Fault <->
   reachesPixels ans = true /\ pixelsPresent ans = false) /\
  ((exists r this' tr', onNewLockPixels ans this tr = Ok (true, r, this', tr'))
   <-> reachesPixels ans = true /\ pixelsPresent ans = true) /\
  (forall r this' tr',
     onNewLockPixels ans this tr = Ok (true, r, this', tr') ->
     exists px,
       bm_pixels (fLockedBitmap this') = Some px /\
       r = Some {| fPixels := Some px; fColorTable := None;
                   fRowBytes_rec := bm_rowBytes (fLockedBitmap this') |} /\
       fErrorInDecoding this' = false /\
       match ans_Find ans with
       | Some cached =>
           fLockedBitmap this' = cached /\
           tr' = tr ++ [EvCall (Call_BitmapCache_Find
                                  (ans_getGenerationID ans)
                                  (SkImageInfo_bounds (info this)))]
       | None =>
           fLockedBitmap this' = setImmutable (ans_allocated ans) /\
           bm_immutable (fLockedBitmap this') = true /\
           tr' = tr ++ [EvCall (Call_BitmapCache_Find
                                  (ans_getGenerationID ans)
                                  (SkImageInfo_bounds (info this)));
                        EvCall (Call_tryAllocPixels (info this)
                                                    (fRowBytes this));
                        EvCall (Call_getPixels g (info this)
                                  (bm_pixels (ans_allocated ans))
                                  (fRowBytes this));
                        EvCall (Call_BitmapCache_Add
                                  (ans_getGenerationID ans)
                                  (SkImageInfo_bounds (info this))
                                  (bm_pixels (ans_allocated ans))
                                  (bm_rowBytes (ans_allocated ans))
                                  true)]
       end).
Proof.
  intros Ee Eg.
  unfold onNewLockPixels, decode, reachesPixels, pixelsPresent. rewrite Ee.
  destruct (ans_Find ans) as [cached|].
  { destruct (bm_pixels cached) as [px|] eqn:Ep; run_q; rewrite Ep; run_q.
    - split; [split; [discriminate|intros [_ ?]; discriminate]|].
      split; [split; [auto|intros _; eauto]|].
      intros r this' tr' [= <- <- <-]. exists px. simpl. auto.
    - split; [split; auto|].
      split; [split; [intros (? & ? & ? & ?); discriminate
                     |intros [_ ?]; discriminate]|].
      discriminate. }
  destruct (ans_tryAllocPixels ans); run_q.
  2:{ split; [split; [discriminate|intros [? _]; discriminate]|].
      split; [split; [intros (? & ? & ? & ?); discriminate
                     |intros [? _]; discriminate]|].
      discriminate. }
  rewrite Eg. run_q.
  destruct (bm_pixels (ans_allocated ans)) as [px|] eqn:Ep;
    destruct (ans_getPixels ans); run_q; rewrite ?Ep; run_q.
  all: split; [split; first [discriminate | intros [? ?]; discriminate
                            | intros _; split; reflexivity
                            | reflexivity ]|].
  all: split; [split; first [ intros (? & ? & ? & ?); discriminate
                            | intros [? ?]; discriminate
                            | intros _; split; reflexivity
                            | intros _; eauto ]|].
  all: try discriminate.
  all: intros r this' tr' [= <- <- <-]; exists px; simpl;
    rewrite <- ?app_assoc; repeat split; auto.
Qed.

(** *** A pixel ref from construction to destruction *)

Lemma calls_ok (cs : list PixelRefCall) (this : t) (g : Addr)
    (tr : list Event) :
  fImageGenerator this = Some g ->
  Forall (fun ans => reachesPixels ans = true -> pixelsPresent ans = true)
         (lockAnswers cs) ->
  exists oks this' ev k,
    calls cs this tr = Ok (oks, this', tr ++ ev) /\
    fImageGenerator this' = Some g /\
    info this' = info this /\
    fRowBytes this' = fRowBytes this /\
    existsb isDelete ev = false /\
    existsb (foreignDecode g (info this) (fRowBytes this)) ev = false /\
    oks = replicate k true
          ++ replicate (length (lockAnswers cs) - k) false /\
    (k <= length (lockAnswers cs))%nat /\
    (fErrorInDecoding this = true -> k = 0%nat /\ ev = []).
Proof.
  revert this tr. induction cs as [|[ans|] cs IH]; intros this tr Eg Hall.
  - exists [], this, [], 0%nat. simpl. run_q. rewrite app_nil_r.
    repeat split; auto.
  - unfold lockAnswers in Hall. simpl in Hall.
    inversion Hall as [|? ? Hans Hrest]; subst.
    destruct (onNewLockPixels_ok ans this g tr Eg Hans)
      as (ok & r & b1 & ev1 & Hl & Eg1 & Ei1 & Er1 & Hd1 & Hf1 & He1 & Herr1 & Hok1).
    destruct (IH b1 (tr ++ ev1) Eg1 Hrest)
      as (oks & b2 & ev2 & k & Hc & Eg2 & Ei2 & Er2 & Hd2 & Hf2 & Hoks & Hk & Herr2).
    change (calls (Lock ans :: cs) this tr)
      with (('(ok, _, this) ← onNewLockPixels ans this;
             '(oks, this) ← calls cs this;
             mret (ok :: oks, this)) tr).
    rewrite (bind_ok _ _ _ _ _ Hl). simpl.
    rewrite (bind_ok _ _ _ _ _ Hc). run_q.
    rewrite Ei1, Er1 in Hf2.
    change (lockAnswers (Lock ans :: cs)) with (ans :: lockAnswers cs).
    destruct ok.
    + exists (true :: oks), b2, (ev1 ++ ev2), (S k).
      split; [rewrite app_assoc; reflexivity|].
      split; [exact Eg2|]. split; [congruence|]. split; [congruence|].
      split; [rewrite existsb_app, Hd1, Hd2; reflexivity|].
      split; [rewrite existsb_app, Hf1, Hf2; reflexivity|].
      split; [simpl; rewrite Hoks; reflexivity|].
      split; [simpl; lia|].
      intros E. destruct (Herr1 E) as [? _]. discriminate.
    + destruct (Herr2 He1) as [-> ->].
      exists (false :: oks), b2, ev1, 0%nat.
      split; [rewrite app_nil_r; reflexivity|].
      split; [exact Eg2|]. split; [congruence|]. split; [congruence|].
      split; [exact Hd1|]. split; [exact Hf1|].
      split; [simpl in *; rewrite Hoks, Nat.sub_0_r; reflexivity|].
      split; [lia|].
      intros E. split; [reflexivity|]. apply (Herr1 E).
  - change (lockAnswers (Unlock :: cs)) with (lockAnswers cs) in *.
    destruct (IH (onUnlockPixels this) tr Eg Hall)
      as (oks & b2 & ev2 & k & Hc & Eg2 & Ei2 & Er2 & Hd2 & Hf2 & Hoks & Hk & Herr2).
    exists oks, b2, ev2, k. simpl. split; [exact Hc|].
    repeat split; auto; apply Herr2; assumption.
Qed.

(** X13.  The constructor asserts on a NULL generator.  A pixel ref built
    over generator [g] and then locked and unlocked any number of times
    (with pixels behind every lock that gets to line 72) never faults; it
    answers true to the locks up to some point and false to all of them
    from then on; whenever it asks a generator to decode it asks [g], with
    its own info and row bytes, and it never deletes anything.  Its
    destructor then deletes [g], exactly once. *)
Theorem generator_is_deleted_once (i : SkImageInfo) (generator : option Addr)
    (rowBytes : Z) (cs : list PixelRefCall) (tr : list Event) :
  Forall (fun ans => reachesPixels ans = true -> pixelsPresent ans = true)
         (lockAnswers cs) ->
  (SkCachingPixelRef i generator rowBytes = Fault <-> generator = None) /\
  (forall g, generator = Some g ->
     exists this oks this' ev k,
       SkCachingPixelRef i generator rowBytes = Ok this /\
       calls cs this tr = Ok (oks, this', tr ++ ev) /\
       oks = replicate k true
             ++ replicate (length (lockAnswers cs) - k) false /\
       (k <= length (lockAnswers cs))%nat /\
       existsb isDelete ev = false /\
       existsb (foreignDecode g i rowBytes) ev = false /\
       dtor this' (tr ++ ev)
       = Ok (tt, (tr ++ ev) ++ [EvDelete (OImageGenerator g)])).
Proof.
  intros Hall. split.
  - destruct generator; unfold SkCachingPixelRef; run_q; split; congruence.
  - intros g ->. eexists.
    destruct (calls_ok cs
                {| info := i; fImageGenerator := Some g;
                   fErrorInDecoding := false; fRowBytes := rowBytes;
                   fLockedBitmap := SkBitmap_ctor |} g tr eq_refl Hall)
      as (oks & b & ev & k & Hc & Eg & _ & _ & Hd & Hf & Hoks & Hk & _).
    exists oks, b, ev, k. split; [reflexivity|]. split; [exact Hc|].
    split; [exact Hoks|]. split; [exact Hk|]. split; [exact Hd|].
    split; [exact Hf|]. unfold dtor. rewrite Eg. reflexivity.
Qed.

End PixelRefMore.

Lemma lock_goes_through_witness :
  exists r this' tr',
    SkCachingPixelRef.onNewLockPixels
      {| SkCachingPixelRef.ans_getGenerationID := 1;
         SkCachingPixelRef.ans_Find :=
           Some {| SkCachingPixelRef.bm_pixels := Some 5%N;
                   SkCachingPixelRef.bm_rowBytes := 16;
                   SkCachingPixelRef.bm_immutable := true |};
         SkCachingPixelRef.ans_tryAllocPixels := false;
         SkCachingPixelRef.ans_allocated := SkCachingPixelRef.SkBitmap_ctor;
         SkCachingPixelRef.ans_getPixels := SkCachingPixelRef.kInvalidInput |}
      SkCachingPixelRef.examplePixelRef []
    = Ok (true, r, this', tr').
Proof.
  destruct (lock_goes_through
              {| SkCachingPixelRef.ans_getGenerationID := 1;
                 SkCachingPixelRef.ans_Find :=
                   Some {| SkCachingPixelRef.bm_pixels := Some 5%N;
                           SkCachingPixelRef.bm_rowBytes := 16;
                           SkCachingPixelRef.bm_immutable := true |};
                 SkCachingPixelRef.ans_tryAllocPixels := false;
                 SkCachingPixelRef.ans_allocated :=
                   SkCachingPixelRef.SkBitmap_ctor;
                 SkCachingPixelRef.ans_getPixels :=
                   SkCachingPixelRef.kInvalidInput |}
              SkCachingPixelRef.examplePixelRef 9%N [] eq_refl eq_refl)
    as (_ & Htrue & _).
  apply Htrue. split; reflexivity.
Defined.

Lemma generator_is_deleted_once_witness :
  exists this oks this' ev,
    SkCachingPixelRef.SkCachingPixelRef
      (SkCachingPixelRef.info SkCachingPixelRef.examplePixelRef) (Some 9%N) 16
    = Ok this /\
    SkCachingPixelRef.calls
      [SkCachingPixelRef.Lock SkCachingPixelRef.exampleAllocFailure;
       SkCachingPixelRef.Unlock] this []
    = Ok (oks, this', [] ++ ev) /\
    SkCachingPixelRef.dtor this' ([] ++ ev)
    = Ok (tt, ([] ++ ev) ++ [EvDelete (OImageGenerator 9%N)]).
Proof.
  destruct (generator_is_deleted_once
              (SkCachingPixelRef.info SkCachingPixelRef.examplePixelRef)
              (Some 9%N) 16
              [SkCachingPixelRef.Lock SkCachingPixelRef.exampleAllocFailure;
               SkCachingPixelRef.Unlock] [])
    as [_ Hlife].
  - constructor; [discriminate|constructor].
  - destruct (Hlife 9%N eq_refl)
      as (this & oks & this' & ev & k & Hc & Hcalls & _ & _ & _ & _ & Hd).
    exists this, oks, this', ev. split; [exact Hc|]. split; [exact Hcalls|exact Hd].
Defined.

(** ** SkSVGDevice *)

Section ResourceIds.
Import SkSVGDevice.

Lemma printf_d_inj (a b : Z) :
  0 <= a < 2 ^ 32 -> 0 <= b < 2 ^ 32 -> printf_d a = printf_d b -> a = b.
Proof.
  unfold printf_d. change (2 ^ 32) with 4294967296.
  change (2 ^ 31) with 2147483648. intros Ha Hb E.
  apply (inj pretty) in E.
  destruct (Z.ltb_spec a 2147483648), (Z.ltb_spec b 2147483648); lia.
Qed.

Lemma idOf_inj (r q : Request) (n m : Z) :
  0 <= n < 2 ^ 32 -> 0 <= m < 2 ^ 32 -> idOf r n = idOf q m ->
  r = q /\ n = m.
Proof.
  intros Hn Hm. unfold idOf.
  destruct r, q; cbn; intros E; try discriminate E.
  all: split; [reflexivity|].
  all: apply printf_d_inj; [assumption..|].
  all: repeat (injection E as E); apply E || (simplify_eq; reflexivity).
Qed.

Lemma requestsOf_nonneg (r : Request) (rs : list Request) :
  0 <= requestsOf r rs.
Proof.
  induction rs as [|q rs IH]; simpl; [lia|]. destruct (Request_eqb r q); lia.
Qed.

Lemma Request_eqb_spec (r q : Request) : Request_eqb r q = true <-> r = q.
Proof. destruct r, q; simpl; split; congruence. Qed.

Lemma serve_spec (r : Request) (this : ResourceBucket) :
  fst (serve r this) = idOf r (counterOf r this) /\
  (forall q, counterOf q (snd (serve r this))
             = if Request_eqb q r then incr32 (counterOf q this)
               else counterOf q this).
Proof.
  destruct r; split; try reflexivity; intros q; destruct q; reflexivity.
Qed.

Lemma incr32_cases (c : Z) :
  0 <= c < 2 ^ 32 ->
  0 <= incr32 c < 2 ^ 32 /\ incr32 c <= c + 1 /\
  (c + 1 < 2 ^ 32 -> incr32 c = c + 1) /\
  (c + 1 = 2 ^ 32 -> incr32 c = 0).
Proof.
  unfold incr32. change (2 ^ 32) with 4294967296. intros Hc.
  split; [apply Z.mod_pos_bound; lia|].
  split; [apply Z.mod_le; lia|]. split.
  - intros Hs. apply Z.mod_small. lia.
  - intros Hs. replace (c + 1) with 4294967296 by lia. reflexivity.
Qed.

Lemma serveAll_ok (rs : list Request) (this : ResourceBucket) :
  (forall r, 0 <= counterOf r this < 2 ^ 32 /\
             counterOf r this + requestsOf r rs <= 2 ^ 32) ->
  (forall id, id ∈ fst (serveAll rs this) ->
     exists r n, id = idOf r n /\
                 counterOf r this <= n < counterOf r this + requestsOf r rs) /\
  NoDup (fst (serveAll rs this)) /\
  length (fst (serveAll rs this)) = length rs /\
  (forall r, counterOf r (snd (serveAll rs this))
             = (counterOf r this + requestsOf r rs) mod 2 ^ 32).
Proof.
  revert this. induction rs as [|r rs IH]; intros this Hc.
  - simpl. split; [intros id Hin; inversion Hin|].
    split; [constructor|]. split; [reflexivity|].
    intros r. destruct (Hc r) as [H0 H1].
    rewrite Z.add_0_r. symmetry. apply Z.mod_small. exact H0.
  - destruct (serve_spec r this) as [Hid Hcnt].
    assert (Hreq : forall q, requestsOf q (r :: rs)
                             = (if Request_eqb q r then 1 else 0)
                               + requestsOf q rs) by reflexivity.
    cbn [serveAll]. destruct (serve r this) as [id this1] eqn:Es.
    cbn [fst snd] in Hid, Hcnt.
    assert (Hc1 : forall q, 0 <= counterOf q this1 < 2 ^ 32 /\
                   counterOf q this1 + requestsOf q rs <= 2 ^ 32).
    { intros q. rewrite Hcnt. destruct (Hc q) as [H0 H1].
      rewrite Hreq in H1. pose proof (requestsOf_nonneg q rs).
      destruct (Request_eqb q r); [|lia].
      destruct (incr32_cases _ H0) as (Hb & Hle & _). lia. }
    destruct (IH this1 Hc1) as (Hin & Hnd & Hlen & Hfin).
    destruct (serveAll rs this1) as [ids this2] eqn:Ea.
    cbn [fst snd] in *.
    assert (Hrange : forall q n,
              counterOf q this1 <= n < counterOf q this1 + requestsOf q rs ->
              counterOf q this <= n < counterOf q this + requestsOf q (r :: rs)
              /\ (q = r -> counterOf r this < n)).
    { intros q n. rewrite Hcnt, Hreq. destruct (Hc q) as [H0 H1].
      rewrite Hreq in H1. pose proof (requestsOf_nonneg q rs).
      destruct (Request_eqb q r) eqn:Eq.
      - apply Request_eqb_spec in Eq. subst q.
        destruct (incr32_cases _ H0) as (_ & _ & Hsmall & Hwrap).
        destruct (Z_lt_le_dec (counterOf r this + 1) (2 ^ 32)) as [Hs|Hw].
        + rewrite (Hsmall Hs). lia.
        + rewrite Hwrap by lia. lia.
      - intros Hn. split; [lia|].
        intros ->. destruct r; discriminate Eq. }
    split; [|split; [|split]].
    + intros id' Hin'. apply elem_of_cons in Hin'. destruct Hin' as [->|Hin'].
      * exists r, (counterOf r this). split; [exact Hid|].
        destruct (Hc r) as [H0 H1]. rewrite Hreq in *.
        pose proof (requestsOf_nonneg r rs).
        replace (Request_eqb r r) with true by (destruct r; reflexivity).
        lia.
      * destruct (Hin id' Hin') as (q & n & -> & Hn).
        exists q, n. split; [reflexivity|]. apply (Hrange q n Hn).
    + apply NoDup_cons. split; [|exact Hnd].
      intros Hin'. destruct (Hin id Hin') as (q & n & Eid & Hn).
      destruct (Hrange q n Hn) as [Hn' Hlt].
      rewrite Hid in Eid. apply idOf_inj in Eid.
      * destruct Eid as [<- <-]. specialize (Hlt eq_refl). lia.
      * destruct (Hc r); lia.
      * destruct (Hc q); lia.
    + simpl. rewrite Hlen. reflexivity.
    + intros q. rewrite Hfin, Hcnt, Hreq.
      destruct (Request_eqb q r).
      * unfold incr32. rewrite Z.add_mod_idemp_l by (change (2 ^ 32) with 4294967296; lia).
        f_equal. lia.
      * reflexivity.
Qed.

(** X14.  A fresh bucket asked for gradient, clip and path ids in any order,
    at most 2^32 times for each kind, never hands out the same id twice,
    whatever the kinds; afterwards each counter stands at the number of
    requests of its kind modulo 2^32, so the k-th request of a kind is
    served with the counter at k - 1.  The counters are unsigned but printed
    with a signed conversion.  A counter below 2^31 prints as itself: the
    2^31-th request of a kind still gets 2147483647.  A counter n from 2^31
    up prints as minus (2^32 - n): the minus sign starts with the
    (2^31 + 1)-th request of a kind, whose id ends in -2147483648.  Once a
    counter has wrapped around the bucket starts over with the id it handed
    out first. *)
Theorem resource_ids_are_distinct (rs : list Request) :
  (forall r, requestsOf r rs <= 2 ^ 32) ->
  NoDup (fst (serveAll rs ResourceBucket_ctor)) /\
  length (fst (serveAll rs ResourceBucket_ctor)) = length rs /\
  (forall r, counterOf r (snd (serveAll rs ResourceBucket_ctor))
             = requestsOf r rs mod 2 ^ 32) /\
  (forall this n, 0 <= n < 2 ^ 31 ->
     (fGradientCount this = n ->
      fst (addLinearGradient this) = "gradient_" +:+ pretty n) /\
     (fClipCount this = n -> fst (addClip this) = "clip_" +:+ pretty n) /\
     (fPathCount this = n -> fst (addPath this) = "path_" +:+ pretty n)) /\
  (forall this n, 2 ^ 31 <= n < 2 ^ 32 ->
     (fGradientCount this = n ->
      fst (addLinearGradient this) = "gradient_-" +:+ pretty (2 ^ 32 - n)) /\
     (fClipCount this = n ->
      fst (addClip this) = "clip_-" +:+ pretty (2 ^ 32 - n)) /\
     (fPathCount this = n ->
      fst (addPath this) = "path_-" +:+ pretty (2 ^ 32 - n))) /\
  (forall r this, counterOf r this = 2 ^ 32 - 1 ->
     counterOf r (snd (serve r this)) = 0 /\
     fst (serve r (snd (serve r this))) = fst (serve r ResourceBucket_ctor)).
Proof.
  intros Hreq.
  destruct (serveAll_ok rs ResourceBucket_ctor) as (_ & Hnd & Hlen & Hfin).
  { intros r. split; [destruct r; simpl; (split; [lia|reflexivity])|].
    specialize (Hreq r). destruct r; simpl; lia. }
  split; [exact Hnd|]. split; [exact Hlen|].
  split; [intros r; rewrite Hfin; destruct r; reflexivity|].
  split.
  { intros this n Hn.
    assert (Hpos : printf_d n = pretty n).
    { unfold printf_d.
      replace (n <? 2 ^ 31) with true by (symmetry; apply Z.ltb_lt; lia).
      reflexivity. }
    unfold addLinearGradient, addClip, addPath. cbn [fst].
    split; [|split]; intros ->; rewrite Hpos; reflexivity. }
  split.
  - intros this n Hn.
    assert (Hneg : printf_d n = "-" +:+ pretty (2 ^ 32 - n)).
    { unfold printf_d. change (2 ^ 32) with 4294967296 in *.
      change (2 ^ 31) with 2147483648 in *.
      replace (n <? 2147483648) with false by (symmetry; apply Z.ltb_ge; lia).
      remember (n - 4294967296) as d eqn:Ed.
      destruct d as [|p|p]; try lia.
      replace (4294967296 - n) with (Z.pos p) by lia. reflexivity. }
    unfold addLinearGradient, addClip, addPath. cbn [fst].
    split; [|split]; intros ->; rewrite Hneg; reflexivity.
  - intros r this Hc.
    destruct (serve_spec r this) as [_ Hcnt].
    destruct (serve_spec r (snd (serve r this))) as [Hid _].
    assert (H0 : counterOf r (snd (serve r this)) = 0).
    { rewrite Hcnt. replace (Request_eqb r r) with true by (destruct r; reflexivity).
      rewrite Hc. reflexivity. }
    split; [exact H0|]. rewrite Hid, H0. destruct r; reflexivity.
Qed.

End ResourceIds.

Lemma resource_ids_are_distinct_witness :
  NoDup (fst (SkSVGDevice.serveAll
                [SkSVGDevice.ReqClip; SkSVGDevice.ReqPath; SkSVGDevice.ReqClip;
                 SkSVGDevice.ReqLinearGradient]
                SkSVGDevice.ResourceBucket_ctor)) /\
  fst (SkSVGDevice.addClip
         {| SkSVGDevice.fGradientCount := 0;
            SkSVGDevice.fClipCount := 2 ^ 31 - 1;
            SkSVGDevice.fPathCount := 0 |})
  = "clip_2147483647"%string /\
  fst (SkSVGDevice.addClip
         {| SkSVGDevice.fGradientCount := 0;
            SkSVGDevice.fClipCount := 2 ^ 31;
            SkSVGDevice.fPathCount := 0 |})
  = "clip_-2147483648"%string.
Proof.
  destruct (resource_ids_are_distinct
              [SkSVGDevice.ReqClip; SkSVGDevice.ReqPath; SkSVGDevice.ReqClip;
               SkSVGDevice.ReqLinearGradient])
    as (Hnd & _ & _ & Hpos & Hneg & _).
  - intros r. destruct r; vm_compute; discriminate.
  - split; [exact Hnd|]. split.
    + exact (proj1 (proj2 (Hpos {| SkSVGDevice.fGradientCount := 0;
                                   SkSVGDevice.fClipCount := 2 ^ 31 - 1;
                                   SkSVGDevice.fPathCount := 0 |}
                                (2 ^ 31 - 1) ltac:(lia))) eq_refl).
    + exact (proj1 (proj2 (Hneg {| SkSVGDevice.fGradientCount := 0;
                                   SkSVGDevice.fClipCount := 2 ^ 31;
                                   SkSVGDevice.fPathCount := 0 |}
                                (2 ^ 31) ltac:(lia))) eq_refl).
Defined.

(** *** SVGTextBuilder *)

Section TextBuilder.
Import SkSVGDevice.
Context {SkScalar : Type} (add : SkScalar -> SkScalar -> SkScalar).
Context `{TextEnv}.

Local Abbreviation Builder := (@SVGTextBuilder SkScalar).

Ltac run_t :=
  repeat (unfold mbind, mret, Res_bind, Res_ret, SkASSERT; simpl).

Lemma advancePos_ok (discard : bool) (this : Builder) :
  0 <= fScalarsPerPos this <= 2 -> 0 <= fPos this ->
  (discard = false -> 0 < fScalarsPerPos this ->
   exists a, pos this = Some a /\
             fPos this + fScalarsPerPos this <= Z.of_nat (length a)) ->
  exists this' px py,
    advancePos add discard this = Ok this' /\
    fText this' = fText this /\
    fLastCharWasWhitespace this' = fLastCharWasWhitespace this /\
    fScalarsPerPos this' = fScalarsPerPos this /\
    pos this' = pos this /\
    fOffset this' = fOffset this /\
    fPos this' = fPos this + fScalarsPerPos this /\
    fPosX this' = fPosX this ++ px /\
    fPosY this' = fPosY this ++ py /\
    (if negb discard && (0 <? fScalarsPerPos this)
     then exists a v, pos this = Some a /\
                      a !! Z.to_nat (fPos this) = Some v /\
                      px = [Pos_appendf (add (x (fOffset this)) v)]
     else px = []) /\
    (if negb discard && (1 <? fScalarsPerPos this)
     then exists a v, pos this = Some a /\
                      a !! Z.to_nat (fPos this + 1) = Some v /\
                      py = [Pos_appendf (add (y (fOffset this)) v)]
     else py = []).
Proof.
  intros Hs Hp Ha. unfold advancePos.
  destruct discard; simpl negb; cbn [andb].
  { exists (set_fPos (fPos this + fScalarsPerPos this) this), [], [].
    run_t. rewrite !app_nil_r. repeat split; reflexivity. }
  destruct (Z.ltb_spec 0 (fScalarsPerPos this)) as [H0|H0].
  2:{ exists (set_fPos (fPos this + fScalarsPerPos this) this), [], [].
      run_t. rewrite !app_nil_r.
      replace (1 <? fScalarsPerPos this) with false
        by (symmetry; apply Z.ltb_ge; lia).
      repeat split; reflexivity. }
  destruct (Ha eq_refl H0) as (a & Epos & Hlen).
  destruct (lookup_lt_is_Some_2 a (Z.to_nat (fPos this))) as [v0 Hv0]; [lia|].
  unfold fPos_at. rewrite Epos. cbn [set_fPosX pos fPos].
  rewrite Z.add_0_r, Hv0. run_t.
  destruct (Z.ltb_spec 1 (fScalarsPerPos this)) as [H1|H1].
  - replace (fScalarsPerPos this =? 2) with true
      by (symmetry; apply Z.eqb_eq; lia).
    destruct (lookup_lt_is_Some_2 a (Z.to_nat (fPos this + 1))) as [v1 Hv1];
      [lia|].
    run_t. rewrite Epos, Hv1. run_t.
    eexists; eexists; eexists. split; [reflexivity|]. simpl.
    repeat split; eauto.
  - eexists. exists [Pos_appendf (add (x (fOffset this)) v0)], [].
    split; [reflexivity|]. simpl.
    rewrite app_nil_r. repeat split; eauto.
Qed.

Lemma appendUnichar_eq (c : Z) (this : Builder) :
  appendUnichar add c this
  = (this1 ← advancePos add
               (negb (if isSpace c then negb (fLastCharWasWhitespace this)
                      else negb (c =? 0)))
               (set_fText
                  (fText this
                   ++ (if (if isSpace c then negb (fLastCharWasWhitespace this)
                           else negb (c =? 0))
                       then escape c else []))
                  this);
     Ok (set_fLastCharWasWhitespace
           (if isSpace c then true
            else if c =? 0 then fLastCharWasWhitespace this else false)
           this1)).
Proof.
  assert (Hid : set_fText (fText this ++ []) this = this)
    by (destruct this; simpl; rewrite app_nil_r; reflexivity).
  unfold appendUnichar, isSpace, escape.
  destruct ((c =? 32) || (c =? 9)) eqn:Esp.
  - destruct (fLastCharWasWhitespace this); simpl negb; cbv iota.
    + rewrite Hid. reflexivity.
    + apply orb_true_iff in Esp.
      destruct Esp as [E|E]; apply Z.eqb_eq in E; subst c; reflexivity.
  - destruct (c =? 0); simpl negb; cbv iota; [rewrite Hid; reflexivity|].
    destruct (c =? 38); [reflexivity|]. destruct (c =? 34); [reflexivity|].
    destruct (c =? 39); [reflexivity|]. destruct (c =? 60); [reflexivity|].
    destruct (c =? 62); reflexivity.
Qed.

Lemma survivors_cons (l : bool) (i : nat) (c : Z) (cs : list Z) :
  survivors l i (c :: cs)
  = (if (if isSpace c then negb l else negb (c =? 0)) then [(i, c)] else [])
    ++ survivors (if isSpace c then true else if c =? 0 then l else false)
                 (S i) cs.
Proof.
  simpl. destruct (isSpace c); [destruct l; reflexivity|].
  destruct (c =? 0); reflexivity.
Qed.

Lemma appendUnichars_ok (cs : list Z) (i0 : nat) (this : Builder) :
  0 <= fScalarsPerPos this <= 2 ->
  fPos this = fScalarsPerPos this * Z.of_nat i0 ->
  (0 < fScalarsPerPos this ->
   exists a, pos this = Some a /\
             fScalarsPerPos this * Z.of_nat (i0 + length cs)
             <= Z.of_nat (length a)) ->
  exists this' px py,
    appendUnichars add cs this = Ok this' /\
    fText this'
    = fText this
      ++ flat_map (fun p => escape (snd p))
                  (survivors (fLastCharWasWhitespace this) i0 cs) /\
    fScalarsPerPos this' = fScalarsPerPos this /\
    pos this' = pos this /\
    fOffset this' = fOffset this /\
    fPosX this' = fPosX this ++ px /\
    fPosY this' = fPosY this ++ py /\
    (if 0 <? fScalarsPerPos this
     then exists a, pos this = Some a /\
            Forall2 (fun p e => exists v,
                       a !! Z.to_nat (fScalarsPerPos this * Z.of_nat (fst p))
                       = Some v /\
                       e = Pos_appendf (add (x (fOffset this)) v))
                    (survivors (fLastCharWasWhitespace this) i0 cs) px
     else px = []) /\
    (if 1 <? fScalarsPerPos this
     then exists a, pos this = Some a /\
            Forall2 (fun p e => exists v,
                       a !! Z.to_nat (fScalarsPerPos this * Z.of_nat (fst p) + 1)
                       = Some v /\
                       e = Pos_appendf (add (y (fOffset this)) v))
                    (survivors (fLastCharWasWhitespace this) i0 cs) py
     else py = []).
Proof.
  revert i0 this. induction cs as [|c cs IH]; intros i0 this Hs Hp Ha.
  - exists this, [], []. simpl. rewrite !app_nil_r.
    split; [reflexivity|]. repeat split; try reflexivity.
    + destruct (Z.ltb_spec 0 (fScalarsPerPos this)) as [H0|_]; [|reflexivity].
      destruct (Ha H0) as (a & Ea & _). exists a. split; [exact Ea|constructor].
    + destruct (Z.ltb_spec 1 (fScalarsPerPos this)) as [H1|_]; [|reflexivity].
      destruct Ha as (a & Ea & _); [lia|].
      exists a. split; [exact Ea|constructor].
  - cbn [appendUnichars]. rewrite appendUnichar_eq, survivors_cons.
    set (keep := if isSpace c then negb (fLastCharWasWhitespace this)
                 else negb (c =? 0)).
    set (next := if isSpace c then true
                 else if c =? 0 then fLastCharWasWhitespace this else false).
    set (this0 := set_fText (fText this ++ (if keep then escape c else [])) this).
    destruct (advancePos_ok (negb keep) this0)
      as (this1 & px1 & py1 & Hadv & Ht1 & Hl1 & Hs1 & Hpos1 & Hoff1 & Hp1
          & Hx1 & Hy1 & Hpx1 & Hpy1).
    { exact Hs. }
    { simpl. rewrite Hp. nia. }
    { intros _ H0. destruct (Ha H0) as (a & Ea & Hlen).
      exists a. split; [exact Ea|]. simpl. rewrite Hp.
      simpl in Hlen. nia. }
    rewrite negb_involutive in Hpx1, Hpy1.
    destruct (IH (S i0) (set_fLastCharWasWhitespace next this1))
      as (this2 & px2 & py2 & Happ & Ht2 & Hs2 & Hpos2 & Hoff2 & Hx2 & Hy2
          & Hpx2 & Hpy2).
    { simpl. rewrite Hs1. exact Hs. }
    { simpl. rewrite Hp1, Hs1. simpl. rewrite Hp. lia. }
    { simpl. rewrite Hs1, Hpos1. intros H0.
      destruct (Ha H0) as (a & Ea & Hlen). exists a. split; [exact Ea|].
      cbn [length] in Hlen. change (fScalarsPerPos this0) with (fScalarsPerPos this).
      replace (S (i0 + length cs))%nat with (i0 + S (length cs))%nat by lia.
      exact Hlen. }
    simpl in Ht2, Hs2, Hpos2, Hoff2, Hx2, Hy2, Hpx2, Hpy2.
    rewrite Hs1, Hpos1, Hoff1 in *. simpl in Ht1, Hx1, Hy1, Hpx1, Hpy1.
    subst this0.
    cbn [fScalarsPerPos pos fOffset fPos fPosX fPosY set_fText] in *.
    exists this2, (px1 ++ px2), (py1 ++ py2).
    split; [rewrite Hadv; run_t; exact Happ|].
    split.
    { rewrite Ht2, Ht1, flat_map_app, <- app_assoc. f_equal. f_equal.
      destruct keep; simpl; rewrite ?app_nil_r; reflexivity. }
    split; [congruence|]. split; [congruence|]. split; [congruence|].
    split; [rewrite Hx2, Hx1, <- app_assoc; reflexivity|].
    split; [rewrite Hy2, Hy1, <- app_assoc; reflexivity|].
    split.
    + destruct (0 <? fScalarsPerPos this) eqn:E0.
      * destruct Hpx2 as (a & Ea & HF). exists a. split; [exact Ea|].
        apply Forall2_app; [|exact HF].
        destruct keep; simpl in Hpx1.
        -- destruct Hpx1 as (a' & v & Ea' & Hv & ->).
           constructor; [|constructor]. exists v. simpl.
           rewrite <- Hp. split; [congruence|reflexivity].
        -- subst px1. constructor.
      * rewrite andb_false_r in Hpx1. subst px1 px2. reflexivity.
    + destruct (1 <? fScalarsPerPos this) eqn:E1.
      * destruct Hpy2 as (a & Ea & HF). exists a. split; [exact Ea|].
        apply Forall2_app; [|exact HF].
        destruct keep; simpl in Hpy1.
        -- destruct Hpy1 as (a' & v & Ea' & Hv & ->).
           constructor; [|constructor]. exists v. simpl.
           rewrite <- Hp. split; [congruence|reflexivity].
        -- subst py1. constructor.
      * rewrite andb_false_r in Hpy1. subst py1 py2. reflexivity.
Qed.

(** The loops of the constructor hand the decoded characters to
    appendUnichar one by one. *)
Lemma appendEach_eq (a : Z -> Z) (n : nat) (i : Z) (this : Builder) :
  appendEach add a n i this = appendUnichars add (decodeEach a n i) this.
Proof.
  revert i this. induction n as [|n IH]; intros i this; [reflexivity|].
  cbn [appendEach decodeEach appendUnichars].
  destruct (appendUnichar add (a i) this) as [b|]; [|reflexivity].
  run_t. apply IH.
Qed.

Lemma appendNext_eq (next : Z -> Z * Z) (n : nat) (c : Z) (this : Builder) :
  appendNext add next n c this
  = match appendUnichars add (fst (decodeNext next n c)) this with
    | Ok b => Ok (snd (decodeNext next n c), b)
    | Fault => Fault
    end.
Proof.
  revert c this. induction n as [|n IH]; intros c this; [reflexivity|].
  cbn [appendNext decodeNext]. destruct (next c) as [u c'].
  destruct (decodeNext next n c') as [cs final] eqn:Ed.
  cbn [fst snd appendUnichars].
  destruct (appendUnichar add u this) as [b|]; [|reflexivity].
  run_t. rewrite IH, Ed. reflexivity.
Qed.

Lemma appendText_ok (txt : Text) (n : Z) (paint : TextPaint) (this : Builder) :
  lengthsAgree txt n paint = true ->
  appendText add txt n paint (countText paint txt n) this
  = appendUnichars add (unicharsOf txt n paint) this.
Proof.
  unfold lengthsAgree, appendText, unicharsOf. intros Hl.
  destruct (getTextEncoding paint =? kGlyphID_TextEncoding).
  { rewrite Hl. run_t. apply appendEach_eq. }
  destruct (getTextEncoding paint =? kUTF8_TextEncoding).
  { run_t. rewrite appendNext_eq.
    destruct (appendUnichars add _ this) as [b|]; [|reflexivity].
    run_t. rewrite Hl. reflexivity. }
  destruct (getTextEncoding paint =? kUTF16_TextEncoding).
  { apply andb_true_iff in Hl. destruct Hl as [Ha Hc].
    run_t. rewrite appendNext_eq.
    destruct (appendUnichars add _ this) as [b|]; [|reflexivity].
    run_t. rewrite Ha, Hc. reflexivity. }
  destruct (getTextEncoding paint =? kUTF32_TextEncoding); [|discriminate].
  rewrite Hl. run_t. apply appendEach_eq.
Qed.

Lemma appendText_fault (txt : Text) (n : Z) (paint : TextPaint)
    (this : Builder) :
  lengthsAgree txt n paint = false ->
  appendText add txt n paint (countText paint txt n) this = Fault.
Proof.
  unfold lengthsAgree, appendText. intros Hl.
  destruct (getTextEncoding paint =? kGlyphID_TextEncoding).
  { rewrite Hl. reflexivity. }
  destruct (getTextEncoding paint =? kUTF8_TextEncoding).
  { run_t. rewrite appendNext_eq.
    destruct (appendUnichars add _ this) as [b|]; [|reflexivity].
    run_t. rewrite Hl. reflexivity. }
  destruct (getTextEncoding paint =? kUTF16_TextEncoding).
  { run_t. rewrite appendNext_eq.
    destruct (appendUnichars add _ this) as [b|]; [|reflexivity].
    run_t. apply andb_false_iff in Hl. destruct Hl as [-> | ->].
    - reflexivity.
    - destruct (SkIsAlign2 n); reflexivity. }
  destruct (getTextEncoding paint =? kUTF32_TextEncoding); [|reflexivity].
  rewrite Hl. reflexivity.
Qed.

Lemma lengthsAgree_encoding (txt : Text) (n : Z) (paint : TextPaint) :
  lengthsAgree txt n paint = true -> 0 <= getTextEncoding paint <= 3.
Proof.
  unfold lengthsAgree, kGlyphID_TextEncoding, kUTF8_TextEncoding,
    kUTF16_TextEncoding, kUTF32_TextEncoding.
  destruct (Z.eqb_spec (getTextEncoding paint) 3); [lia|].
  destruct (Z.eqb_spec (getTextEncoding paint) 0); [lia|].
  destruct (Z.eqb_spec (getTextEncoding paint) 1); [lia|].
  destruct (Z.eqb_spec (getTextEncoding paint) 2); [lia|discriminate].
Qed.

Lemma SVGTextBuilder_ctor_ok (txt : Text) (n : Z) (paint : TextPaint)
    (offset : @SkPoint SkScalar) (s : Z) (p : option (list SkScalar)) :
  lengthsAgree txt n paint = true ->
  0 <= s <= 2 ->
  (0 < s -> exists a, p = Some a /\
                      s * Z.of_nat (length (unicharsOf txt n paint))
                      <= Z.of_nat (length a)) ->
  exists b px py,
    SVGTextBuilder_ctor add txt n paint offset s p = Ok b /\
    text b = flat_map (fun q => escape (snd q))
                      (survivors true 0 (unicharsOf txt n paint)) /\
    posX b = px ++ (if s <? 1 then [Pos_appendScalar (x offset)] else []) /\
    posY b = py ++ (if s <? 2 then [Pos_appendScalar (y offset)] else []) /\
    (if 0 <? s
     then exists a, p = Some a /\
            Forall2 (fun q e => exists v,
                       a !! Z.to_nat (s * Z.of_nat (fst q)) = Some v /\
                       e = Pos_appendf (add (x offset) v))
                    (survivors true 0 (unicharsOf txt n paint)) px
     else px = []) /\
    (if 1 <? s
     then exists a, p = Some a /\
            Forall2 (fun q e => exists v,
                       a !! Z.to_nat (s * Z.of_nat (fst q) + 1) = Some v /\
                       e = Pos_appendf (add (y offset) v))
                    (survivors true 0 (unicharsOf txt n paint)) py
     else py = []).
Proof.
  intros Hl Hs Ha. unfold SVGTextBuilder_ctor.
  replace ((0 <=? s) && (s <=? 2)) with true
    by (symmetry; apply andb_true_iff; split; apply Z.leb_le; lia).
  replace ((s =? 0) || SkToBool p) with true.
  2:{ symmetry. destruct (Z.eqb_spec s 0) as [|Hne]; [reflexivity|].
      destruct Ha as (a & -> & _); [lia|reflexivity]. }
  run_t. rewrite (appendText_ok txt n paint _ Hl).
  set (cs := unicharsOf txt n paint) in *.
  destruct (appendUnichars_ok cs 0
              {| fOffset := offset; fScalarsPerPos := s; pos := p; fPos := 0;
                 fText := []; fPosX := []; fPosY := [];
                 fLastCharWasWhitespace := true |})
    as (b & px & py & Happ & Ht & Hs' & Hpos & Hoff & Hx & Hy & Hpx & Hpy).
  { exact Hs. }
  { simpl. lia. }
  { simpl. exact Ha. }
  simpl in Ht, Hs', Hpos, Hoff, Hx, Hy, Hpx, Hpy.
  rewrite Happ.
  destruct (Z.ltb_spec s 2) as [H2|H2].
  - replace (1 <? s) with false in Hpy by (symmetry; apply Z.ltb_ge; lia).
    rewrite Hpy in Hy. rewrite Hy. run_t.
    destruct (Z.ltb_spec s 1) as [H1|H1].
    + replace (0 <? s) with false in Hpx by (symmetry; apply Z.ltb_ge; lia).
      rewrite Hpx in Hx. rewrite Hx. run_t.
      eexists. exists [], []. split; [reflexivity|]. simpl.
      replace (0 <? s) with false by (symmetry; apply Z.ltb_ge; lia).
      replace (1 <? s) with false by (symmetry; apply Z.ltb_ge; lia).
      repeat split; auto.
    + replace (0 <? s) with true in Hpx by (symmetry; apply Z.ltb_lt; lia).
      eexists. exists px, []. split; [reflexivity|]. simpl.
      replace (0 <? s) with true by (symmetry; apply Z.ltb_lt; lia).
      replace (1 <? s) with false by (symmetry; apply Z.ltb_ge; lia).
      rewrite Hx, app_nil_r. repeat split; auto.
  - replace (s <? 1) with false by (symmetry; apply Z.ltb_ge; lia).
    exists b, px, py. split; [reflexivity|].
    unfold text, posX, posY. rewrite Hx, Hy, !app_nil_r.
    repeat split; auto.
Qed.

(** *** Reading the text back *)

Lemma strip_prefix_app (p s : list Z) : strip_prefix p (p ++ s) = Some s.
Proof.
  induction p as [|a p IH]; simpl; [reflexivity|].
  rewrite Z.eqb_refl. exact IH.
Qed.

Lemma strip_prefix_length (p s rest : list Z) :
  strip_prefix p s = Some rest -> length s = (length p + length rest)%nat.
Proof.
  revert s. induction p as [|a p IH]; intros s; simpl.
  - intros [= ->]. reflexivity.
  - destruct s as [|b s]; [discriminate|]. destruct (a =? b); [|discriminate].
    intros E. simpl. rewrite (IH s E). reflexivity.
Qed.

Lemma entities_eq :
  entities = [([38; 97; 109; 112; 59], 38); ([38; 113; 117; 111; 116; 59], 34);
              ([38; 97; 112; 111; 115; 59], 39); ([38; 108; 116; 59], 60);
              ([38; 103; 116; 59], 62)].
Proof. vm_compute. reflexivity. Qed.

Lemma escape_eq (c : Z) :
  escape c = if c =? 38 then [38; 97; 109; 112; 59]
             else if c =? 34 then [38; 113; 117; 111; 116; 59]
             else if c =? 39 then [38; 97; 112; 111; 115; 59]
             else if c =? 60 then [38; 108; 116; 59]
             else if c =? 62 then [38; 103; 116; 59]
             else [c].
Proof.
  unfold escape.
  repeat match goal with
         | |- context [if ?b then _ else _] => destruct b; [vm_compute; reflexivity|]
         end.
  reflexivity.
Qed.

Lemma first_entity_length (s rest : list Z) (c : Z) :
  first_entity entities s = Some (c, rest) -> (length rest < length s)%nat.
Proof.
  rewrite entities_eq. cbn [first_entity].
  repeat match goal with
         | |- context [strip_prefix ?p s] =>
             let E := fresh "E" in
             destruct (strip_prefix p s) eqn:E;
             [apply strip_prefix_length in E; simpl in E;
              intros [= <- <-]; lia|]
         end.
  discriminate.
Qed.

Lemma unescape_fuel (n : nat) (s : list Z) :
  (length s <= n)%nat -> unescape_upto n s = unescape s.
Proof.
  unfold unescape. revert s.
  induction (lt_wf n) as [n _ IH]. intros s Hn.
  destruct s as [|c s].
  { destruct n; reflexivity. }
  simpl in Hn. destruct n as [|n]; [lia|].
  cbn [length unescape_upto].
  destruct (first_entity entities (c :: s)) as [[c' rest]|] eqn:E.
  - apply first_entity_length in E. simpl in E.
    rewrite (IH n) by lia. rewrite (IH (length s)) by lia.
    reflexivity.
  - rewrite (IH n) by lia. reflexivity.
Qed.

Lemma first_entity_escape (c : Z) (s : list Z) :
  first_entity entities (escape c ++ s)
  = if (c =? 38) || (c =? 34) || (c =? 39) || (c =? 60) || (c =? 62)
    then Some (c, s) else None.
Proof.
  rewrite escape_eq, entities_eq.
  destruct (Z.eqb_spec c 38) as [->|N38]; [reflexivity|].
  destruct (Z.eqb_spec c 34) as [->|N34]; [reflexivity|].
  destruct (Z.eqb_spec c 39) as [->|N39]; [reflexivity|].
  destruct (Z.eqb_spec c 60) as [->|N60]; [reflexivity|].
  destruct (Z.eqb_spec c 62) as [->|N62]; [reflexivity|].
  cbn [app first_entity strip_prefix].
  replace (38 =? c) with false by (symmetry; apply Z.eqb_neq; lia).
  reflexivity.
Qed.

Lemma escape_length (c : Z) : (1 <= length (escape c))%nat.
Proof.
  rewrite escape_eq.
  repeat match goal with
         | |- context [if ?b then _ else _] => destruct b
         end; simpl; lia.
Qed.

Lemma unescape_escape (c : Z) (s : list Z) :
  unescape (escape c ++ s) = c :: unescape s.
Proof.
  unfold unescape at 1.
  pose proof (escape_length c) as Hl.
  destruct (length (escape c ++ s)) as [|n] eqn:En;
    [rewrite length_app in En; lia|].
  assert (Hn : (length s <= n)%nat) by (rewrite length_app in En; lia).
  cbn [unescape_upto]. rewrite first_entity_escape.
  destruct ((c =? 38) || (c =? 34) || (c =? 39) || (c =? 60) || (c =? 62))
    eqn:Esp.
  - rewrite (unescape_fuel n s Hn). reflexivity.
  - rewrite escape_eq.
    repeat (apply orb_false_iff in Esp; destruct Esp as [Esp ?]).
    rewrite Esp. repeat match goal with E : (c =? _) = false |- _ =>
                          rewrite E; clear E end.
    cbn [app]. rewrite (unescape_fuel n s Hn). reflexivity.
Qed.

Lemma unescape_nil : unescape [] = [].
Proof. reflexivity. Qed.

Lemma unescape_flat_map (l : list Z) : unescape (flat_map escape l) = l.
Proof.
  induction l as [|c l IH]; [reflexivity|].
  cbn [flat_map]. rewrite unescape_escape, IH. reflexivity.
Qed.

Lemma escape_no_markup (c : Z) :
  c <> 0 -> Forall (fun d => isMarkup d = false) (escape c).
Proof.
  intros Hc. rewrite escape_eq.
  destruct (Z.eqb_spec c 38); [repeat constructor|].
  destruct (Z.eqb_spec c 34); [repeat constructor|].
  destruct (Z.eqb_spec c 39); [repeat constructor|].
  destruct (Z.eqb_spec c 60); [repeat constructor|].
  destruct (Z.eqb_spec c 62); [repeat constructor|].
  constructor; [|constructor]. unfold isMarkup.
  repeat (apply orb_false_iff; split); apply Z.eqb_neq; assumption.
Qed.

(** *** The characters that survive *)

Lemma singleSpaced_cons (a b : Z) (r : list Z) :
  singleSpaced (a :: b :: r)
  = negb (isSpace a && isSpace b) && singleSpaced (b :: r).
Proof. reflexivity. Qed.

Lemma survivors_spec (cs : list Z) (l : bool) (i : nat) :
  Forall (fun q => snd q <> 0 /\ (i <= fst q)%nat /\
                   cs !! (fst q - i)%nat = Some (snd q))
         (survivors l i cs) /\
  singleSpaced (map snd (survivors l i cs)) = true /\
  (l = true ->
   forall c rest, map snd (survivors l i cs) = c :: rest -> isSpace c = false) /\
  List.filter isInk (map snd (survivors l i cs)) = List.filter isInk cs.
Proof.
  revert l i. induction cs as [|c cs IH]; intros l i.
  { simpl. repeat split; try constructor. intros _ c rest E. discriminate E. }
  destruct (IH true (S i)) as (Ht1 & Ht2 & Ht3 & Ht4).
  destruct (IH false (S i)) as (Hf1 & Hf2 & _ & Hf4).
  destruct (IH l (S i)) as (Hl1 & Hl2 & Hl3 & Hl4).
  assert (Hshift : forall l',
            Forall (fun q => snd q <> 0 /\ (S i <= fst q)%nat /\
                             cs !! (fst q - S i)%nat = Some (snd q))
                   (survivors l' (S i) cs) ->
            Forall (fun q => snd q <> 0 /\ (i <= fst q)%nat /\
                             (c :: cs) !! (fst q - i)%nat = Some (snd q))
                   (survivors l' (S i) cs)).
  { intros l' HF. eapply Forall_impl; [exact HF|].
    intros [j d] (Hd & Hj & Hlook). simpl in *.
    split; [exact Hd|]. split; [lia|].
    replace (j - i)%nat with (S (j - S i)) by lia. exact Hlook. }
  assert (Hhere : (c :: cs) !! (i - i)%nat = Some c)
    by (rewrite Nat.sub_diag; reflexivity).
  cbn [survivors List.filter]. unfold isInk at 2.
  destruct (isSpace c) eqn:Esp.
  - assert (Hc0 : c <> 0).
    { intros ->. discriminate Esp. }
    destruct l.
    + cbn [negb andb]. split; [apply Hshift, Ht1|]. split; [exact Ht2|].
      split; [intros _; exact (Ht3 eq_refl)|exact Ht4].
    + cbn [negb andb map]. split.
      { constructor; [simpl; auto|apply Hshift, Ht1]. }
      split.
      { cbn [snd]. destruct (map snd (survivors true (S i) cs)) as [|b rest] eqn:Em;
          [reflexivity|].
        rewrite singleSpaced_cons, (Ht3 eq_refl b rest eq_refl), andb_false_r.
        cbn [negb andb]. exact Ht2. }
      split; [discriminate|].
      cbn [snd List.filter]. unfold isInk at 1. rewrite Esp. exact Ht4.
  - cbn [negb andb]. destruct (c =? 0) eqn:E0.
    + cbn [negb]. split; [apply Hshift, Hl1|]. split; [exact Hl2|].
      split; [exact Hl3|exact Hl4].
    + cbn [negb map snd]. split.
      { constructor; [|apply Hshift, Hf1]. simpl.
        split; [apply Z.eqb_neq, E0|auto]. }
      split.
      { destruct (map snd (survivors false (S i) cs)) as [|b rest] eqn:Em;
          [reflexivity|].
        rewrite singleSpaced_cons, Esp. cbn [negb andb]. exact Hf2. }
      split; [intros _ d rest [= <- _]; exact Esp|].
      cbn [List.filter]. unfold isInk at 1. rewrite Esp, E0. cbn [negb andb].
      rewrite Hf4. reflexivity.
Qed.

Lemma flat_map_escape (l : list (nat * Z)) :
  flat_map (fun q => escape (snd q)) l = flat_map escape (map snd l).
Proof.
  induction l as [|q l IH]; [reflexivity|]. simpl. rewrite IH. reflexivity.
Qed.

(** X15.  The constructor is given a text, its length in bytes and a
    paint.  When the paint's encoding is one of the four and the length is
    the one the assertions of that encoding ask for ([lengthsAgree]), and
    there are positions enough, the constructor succeeds, and the text it
    ends up with is the escaped form of the characters it kept of those the
    loop of the encoding decoded: an XML parser reading it back (the five
    predefined entities for their characters, everything else for itself)
    gets exactly those characters.  The text contains none of the
    characters less-than, greater-than, double quote, single quote and NUL,
    so it can stand in character data and in a quoted attribute value. *)
Theorem svg_text_reads_back (txt : Text) (n : Z) (paint : TextPaint)
    (offset : @SkPoint SkScalar) (s : Z) (p : option (list SkScalar)) :
  lengthsAgree txt n paint = true ->
  0 <= s <= 2 ->
  (0 < s -> exists a, p = Some a /\
                      s * Z.of_nat (length (unicharsOf txt n paint))
                      <= Z.of_nat (length a)) ->
  exists b,
    SVGTextBuilder_ctor add txt n paint offset s p = Ok b /\
    text b
    = flat_map escape (map snd (survivors true 0 (unicharsOf txt n paint))) /\
    unescape (text b) = map snd (survivors true 0 (unicharsOf txt n paint)) /\
    Forall (fun d => isMarkup d = false) (text b) /\
    (length (unescape (text b)) <= length (text b))%nat.
Proof.
  intros Hl Hs Ha.
  destruct (SVGTextBuilder_ctor_ok txt n paint offset s p Hl Hs Ha)
    as (b & px & py & Hc & Ht & _).
  rewrite flat_map_escape in Ht.
  exists b. split; [exact Hc|]. split; [exact Ht|].
  split; [rewrite Ht; apply unescape_flat_map|].
  destruct (survivors_spec (unicharsOf txt n paint) true 0) as (Hall & _).
  split.
  - rewrite Ht. apply Forall_flat_map. apply Forall_map.
    eapply Forall_impl; [exact Hall|]. intros q (Hq & _).
    apply escape_no_markup, Hq.
  - rewrite Ht, unescape_flat_map. clear.
    induction (map snd (survivors true 0 (unicharsOf txt n paint)))
      as [|c l IH]; [reflexivity|].
    cbn [flat_map]. rewrite length_app. pose proof (escape_length c).
    simpl. lia.
Qed.

(** X16.  Under the same conditions on encoding, length and positions:
    read back, the text has no NUL, does not start with a blank (space or
    tab) and has no two blanks in a row: every run of blanks of the decoded
    input, with the NULs inside it, is cut down to its first blank, and the
    blanks at the start are dropped.  Every other character of the input is
    kept, in order, and each kept character is the input character at the
    index recorded for it. *)
Theorem svg_text_whitespace (txt : Text) (n : Z) (paint : TextPaint)
    (offset : @SkPoint SkScalar) (s : Z) (p : option (list SkScalar)) :
  lengthsAgree txt n paint = true ->
  0 <= s <= 2 ->
  (0 < s -> exists a, p = Some a /\
                      s * Z.of_nat (length (unicharsOf txt n paint))
                      <= Z.of_nat (length a)) ->
  exists b,
    SVGTextBuilder_ctor add txt n paint offset s p = Ok b /\
    Forall (fun c => c <> 0) (unescape (text b)) /\
    (forall c rest, unescape (text b) = c :: rest -> isSpace c = false) /\
    singleSpaced (unescape (text b)) = true /\
    List.filter isInk (unescape (text b))
    = List.filter isInk (unicharsOf txt n paint) /\
    (forall j c, In (j, c) (survivors true 0 (unicharsOf txt n paint)) ->
                 unicharsOf txt n paint !! j = Some c) /\
    (Forall (fun c => isInk c = true) (unicharsOf txt n paint) ->
     unescape (text b) = unicharsOf txt n paint).
Proof.
  intros Hl Hs Ha.
  destruct (SVGTextBuilder_ctor_ok txt n paint offset s p Hl Hs Ha)
    as (b & px & py & Hc & Ht & _).
  rewrite flat_map_escape in Ht.
  remember (unicharsOf txt n paint) as cs eqn:Ecs in *. clear Ecs Ha.
  assert (Hu : unescape (text b) = map snd (survivors true 0 cs))
    by (rewrite Ht; apply unescape_flat_map).
  destruct (survivors_spec cs true 0) as (Hall & Hss & Hhd & Hink).
  exists b. split; [exact Hc|]. rewrite Hu.
  split.
  { apply Forall_map. eapply Forall_impl; [exact Hall|].
    intros q (Hq & _). exact Hq. }
  split; [exact (Hhd eq_refl)|]. split; [exact Hss|]. split; [exact Hink|].
  split.
  { intros j c Hin. rewrite Forall_forall in Hall.
    apply list_elem_of_In in Hin.
    destruct (Hall _ Hin) as (_ & _ & Hl'). simpl in Hl'.
    rewrite Nat.sub_0_r in Hl'. exact Hl'. }
  intros Hallink.
  assert (Hsub : forall l, Forall (fun c => isInk c = true) l ->
                           List.filter isInk l = l).
  { induction l as [|c l IH]; intros Hl0; [reflexivity|].
    inversion Hl0 as [|? ? Hc' Hl']; subst. simpl. rewrite Hc', (IH Hl').
    reflexivity. }
  assert (Hk : forall l i,
             Forall (fun q : nat * Z => isInk (snd q) = true)
                    (survivors l i cs)).
  { clear -Hallink. induction cs as [|c cs IH]; intros l i; [constructor|].
    inversion Hallink as [|? ? Hc Hcs]; subst. cbn [survivors].
    pose proof Hc as Hc'.
    unfold isInk in Hc. apply andb_true_iff in Hc. destruct Hc as [Hsp H0].
    apply negb_true_iff in Hsp, H0. rewrite Hsp, H0.
    constructor; [exact Hc'|]. apply IH, Hcs. }
  rewrite <- (Hsub cs Hallink) at 2. rewrite <- Hink.
  symmetry. apply Hsub. apply Forall_map. apply Hk.
Qed.

(** X17.  The constructor asserts on more than two scalars per position, on
    positions that are called for but missing, on a paint whose encoding is
    none of the four (line 164), and on a length in bytes that is not the
    one its encoding asks for: twice the count for glyph ids (line 134),
    four times the count for UTF-32 (line 157), the bytes the decoder has
    walked over for UTF-8 (line 146), an even number, half of which are the
    uint16_t the decoder has walked over, for UTF-16 (lines 153 and 154).
    With the length right and enough positions for the characters of the
    input it succeeds, and the position lists hold one entry for each
    character kept in the text, in order, computed from the position the
    caller gave for that character (at its index in the input), not from the
    slot the character ends up at in the text: positions of dropped blanks
    and NULs are skipped.  With one scalar per position Y is the offset's
    alone, with none both are. *)
Theorem svg_text_positions (txt : Text) (n : Z) (paint : TextPaint)
    (offset : @SkPoint SkScalar) (s : Z) (p : option (list SkScalar)) :
  (~ 0 <= s <= 2 ->
   SVGTextBuilder_ctor add txt n paint offset s p = Fault) /\
  (s <> 0 -> p = None ->
   SVGTextBuilder_ctor add txt n paint offset s p = Fault) /\
  (~ 0 <= getTextEncoding paint <= 3 ->
   SVGTextBuilder_ctor add txt n paint offset s p = Fault) /\
  (lengthsAgree txt n paint = false ->
   SVGTextBuilder_ctor add txt n paint offset s p = Fault) /\
  (getTextEncoding paint = kGlyphID_TextEncoding ->
   lengthsAgree txt n paint = (countText paint txt n * 2 =? n)) /\
  (getTextEncoding paint = kUTF32_TextEncoding ->
   lengthsAgree txt n paint = (countText paint txt n * 4 =? n)) /\
  (getTextEncoding paint = kUTF8_TextEncoding ->
   lengthsAgree txt n paint
   = (n =? snd (decodeNext (SkUTF8_NextUnichar txt)
                  (Z.to_nat (countText paint txt n)) 0))) /\
  (getTextEncoding paint = kUTF16_TextEncoding ->
   lengthsAgree txt n paint
   = ((0 =? Z.land n 1) &&
      (n / 2 =? snd (decodeNext (SkUTF16_NextUnichar txt)
                       (Z.to_nat (countText paint txt n)) 0)))) /\
  (lengthsAgree txt n paint = true ->
   0 <= s <= 2 ->
   (0 < s -> exists a, p = Some a /\
                       s * Z.of_nat (length (unicharsOf txt n paint))
                       <= Z.of_nat (length a)) ->
   exists b,
     SVGTextBuilder_ctor add txt n paint offset s p = Ok b /\
     (s = 0 -> posX b = [Pos_appendScalar (x offset)] /\
               posY b = [Pos_appendScalar (y offset)]) /\
     (s = 1 ->
      posY b = [Pos_appendScalar (y offset)] /\
      exists a, p = Some a /\
        Forall2 (fun q e => exists v,
                   a !! fst q = Some v /\ e = Pos_appendf (add (x offset) v))
                (survivors true 0 (unicharsOf txt n paint)) (posX b)) /\
     (s = 2 ->
      exists a, p = Some a /\
        Forall2 (fun q e => exists v,
                   a !! (2 * fst q)%nat = Some v /\
                   e = Pos_appendf (add (x offset) v))
                (survivors true 0 (unicharsOf txt n paint)) (posX b) /\
        Forall2 (fun q e => exists v,
                   a !! (2 * fst q + 1)%nat = Some v /\
                   e = Pos_appendf (add (y offset) v))
                (survivors true 0 (unicharsOf txt n paint)) (posY b)) /\
     (0 < s -> length (posX b) = length (unescape (text b))) /\
     (1 < s -> length (posY b) = length (unescape (text b)))).
Proof.
  assert (Hfault : lengthsAgree txt n paint = false ->
                   SVGTextBuilder_ctor add txt n paint offset s p = Fault).
  { intros Hl. unfold SVGTextBuilder_ctor.
    destruct ((0 <=? s) && (s <=? 2)); [|reflexivity].
    destruct ((s =? 0) || SkToBool p); [|reflexivity].
    run_t. rewrite (appendText_fault txt n paint _ Hl). reflexivity. }
  split; [|split; [|split; [|split; [|split; [|split; [|split; [|split]]]]]]].
  - intros Hs. unfold SVGTextBuilder_ctor.
    replace ((0 <=? s) && (s <=? 2)) with false; [reflexivity|].
    symmetry. apply andb_false_iff.
    destruct (Z.leb_spec 0 s); [|auto]. destruct (Z.leb_spec s 2); [lia|auto].
  - intros Hs ->. unfold SVGTextBuilder_ctor.
    destruct ((0 <=? s) && (s <=? 2)); [|reflexivity].
    replace (s =? 0) with false by (symmetry; apply Z.eqb_neq; exact Hs).
    reflexivity.
  - intros He. apply Hfault.
    destruct (lengthsAgree txt n paint) eqn:Hl; [|reflexivity].
    destruct He. apply (lengthsAgree_encoding txt n paint Hl).
  - exact Hfault.
  - intros He. unfold lengthsAgree. rewrite He. reflexivity.
  - intros He. unfold lengthsAgree. rewrite He. reflexivity.
  - intros He. unfold lengthsAgree. rewrite He. reflexivity.
  - intros He. unfold lengthsAgree. rewrite He. reflexivity.
  - intros Hl Hs Ha.
    destruct (SVGTextBuilder_ctor_ok txt n paint offset s p Hl Hs Ha)
      as (b & px & py & Hc & Ht & Hx & Hy & Hpx & Hpy).
    rewrite flat_map_escape in Ht.
    remember (unicharsOf txt n paint) as cs eqn:Ecs in *. clear Ecs.
    assert (Hu : unescape (text b) = map snd (survivors true 0 cs))
      by (rewrite Ht; apply unescape_flat_map).
    exists b. split; [exact Hc|].
    split; [|split; [|split; [|split]]].
    + intros ->. simpl in *. subst px py. split; assumption.
    + intros ->. simpl in *. rewrite app_nil_r in Hx. rewrite Hpy in Hy.
      split; [exact Hy|]. destruct Hpx as (a & Ea & HF).
      exists a. split; [exact Ea|]. rewrite Hx.
      eapply Forall2_impl; [exact HF|]. intros q e (v & Hv & He).
      exists v. split; [|exact He].
      replace (Z.to_nat (1 * Z.of_nat (fst q))) with (fst q) in Hv by lia.
      exact Hv.
    + intros ->. simpl in *. rewrite app_nil_r in Hx, Hy.
      destruct Hpx as (a & Ea & HFx). destruct Hpy as (a' & Ea' & HFy).
      assert (a' = a) by congruence. subst a'.
      exists a. split; [exact Ea|]. rewrite Hx, Hy. split.
      * eapply Forall2_impl; [exact HFx|]. intros q e (v & Hv & He).
        exists v. split; [|exact He].
        replace (Z.to_nat (2 * Z.of_nat (fst q))) with (2 * fst q)%nat in Hv
          by lia.
        exact Hv.
      * eapply Forall2_impl; [exact HFy|]. intros q e (v & Hv & He).
        exists v. split; [|exact He].
        replace (Z.to_nat (2 * Z.of_nat (fst q) + 1))
          with (2 * fst q + 1)%nat in Hv by lia.
        exact Hv.
    + intros H0. rewrite Hu, length_map.
      replace (0 <? s) with true in Hpx by (symmetry; apply Z.ltb_lt; lia).
      replace (s <? 1) with false in Hx by (symmetry; apply Z.ltb_ge; lia).
      rewrite app_nil_r in Hx. destruct Hpx as (a & _ & HF).
      rewrite Hx. symmetry. exact (Forall2_length _ _ _ HF).
    + intros H1. rewrite Hu, length_map.
      replace (1 <? s) with true in Hpy by (symmetry; apply Z.ltb_lt; lia).
      replace (s <? 2) with false in Hy by (symmetry; apply Z.ltb_ge; lia).
      rewrite app_nil_r in Hy. destruct Hpy as (a & _ & HF).
      rewrite Hy. symmetry. exact (Forall2_length _ _ _ HF).
Qed.

End TextBuilder.

(** Six bytes of UTF-8: blank, less-than, two blanks, NUL, a. *)
Lemma svg_text_reads_back_witness :
  exists b,
    SkSVGDevice.SVGTextBuilder_ctor (H := SkSVGDevice.exampleText) Z.add
      [32; 60; 32; 32; 0; 97] 6 SkSVGDevice.kUTF8_TextEncoding
      {| SkSVGDevice.x := 0; SkSVGDevice.y := 0 |} 0 None = Ok b /\
    SkSVGDevice.unescape (SkSVGDevice.text b) = [60; 32; 97].
Proof.
  destruct (svg_text_reads_back (H := SkSVGDevice.exampleText) Z.add
              [32; 60; 32; 32; 0; 97] 6 SkSVGDevice.kUTF8_TextEncoding
              {| SkSVGDevice.x := 0; SkSVGDevice.y := 0 |} 0 None)
    as (b & Hc & _ & Hu & _).
  - reflexivity.
  - lia.
  - intros H. lia.
  - exists b. split; [exact Hc|exact Hu].
Defined.

(** Ten bytes of UTF-16, one position each: tab, a, blank, tab, b. *)
Lemma svg_text_whitespace_witness :
  exists b,
    SkSVGDevice.SVGTextBuilder_ctor (H := SkSVGDevice.exampleText) Z.add
      [9; 97; 32; 9; 98] 10 SkSVGDevice.kUTF16_TextEncoding
      {| SkSVGDevice.x := 5; SkSVGDevice.y := 7 |} 1 (Some [1; 2; 3; 4; 5])
    = Ok b /\
    SkSVGDevice.singleSpaced (SkSVGDevice.unescape (SkSVGDevice.text b)) = true.
Proof.
  destruct (svg_text_whitespace (H := SkSVGDevice.exampleText) Z.add
              [9; 97; 32; 9; 98] 10 SkSVGDevice.kUTF16_TextEncoding
              {| SkSVGDevice.x := 5; SkSVGDevice.y := 7 |} 1
              (Some [1; 2; 3; 4; 5]))
    as (b & Hc & _ & _ & Hss & _).
  - reflexivity.
  - lia.
  - intros _. exists [1; 2; 3; 4; 5]. split; [reflexivity|].
    vm_compute. discriminate.
  - exists b. split; [exact Hc|exact Hss].
Defined.

(** The same ten bytes taken for UTF-32 are no whole number of characters:
    the assertion of line 157 fails.  Nine bytes of UTF-16 fail the
    alignment assertion of line 153, and an encoding of 4 is unknown. *)
Lemma svg_text_positions_witness :
  SkSVGDevice.SVGTextBuilder_ctor (H := SkSVGDevice.exampleText) Z.add
    [9; 97; 32; 9; 98] 10 SkSVGDevice.kUTF32_TextEncoding
    {| SkSVGDevice.x := 5; SkSVGDevice.y := 7 |} 0 None = Fault /\
  SkSVGDevice.SVGTextBuilder_ctor (H := SkSVGDevice.exampleText) Z.add
    [9; 97; 32; 9; 98] 9 SkSVGDevice.kUTF16_TextEncoding
    {| SkSVGDevice.x := 5; SkSVGDevice.y := 7 |} 0 None = Fault /\
  SkSVGDevice.SVGTextBuilder_ctor (H := SkSVGDevice.exampleText) Z.add
    [9; 97; 32; 9; 98] 5 4
    {| SkSVGDevice.x := 5; SkSVGDevice.y := 7 |} 0 None = Fault.
Proof.
  split; [|split].
  - destruct (svg_text_positions (H := SkSVGDevice.exampleText) Z.add
                [9; 97; 32; 9; 98] 10 SkSVGDevice.kUTF32_TextEncoding
                {| SkSVGDevice.x := 5; SkSVGDevice.y := 7 |} 0 None)
      as (_ & _ & _ & Hlen & _).
    apply Hlen. reflexivity.
  - destruct (svg_text_positions (H := SkSVGDevice.exampleText) Z.add
                [9; 97; 32; 9; 98] 9 SkSVGDevice.kUTF16_TextEncoding
                {| SkSVGDevice.x := 5; SkSVGDevice.y := 7 |} 0 None)
      as (_ & _ & _ & Hlen & _).
    apply Hlen. reflexivity.
  - destruct (svg_text_positions (H := SkSVGDevice.exampleText) Z.add
                [9; 97; 32; 9; 98] 5 4
                {| SkSVGDevice.x := 5; SkSVGDevice.y := 7 |} 0 None)
      as (_ & _ & Henc & _).
    apply Henc. simpl. lia.
Defined.

(** *** AutoElement::addPaint *)

Section Paint.
Import SkSVGDevice.
Context `{SkSVGDevice.Scalars}.

Ltac run_a :=
  repeat (unfold mbind, mret, Res_bind, Res_ret, SkASSERT; simpl).

Lemma three_values (v : Z) : 0 <= v <= 2 -> v = 0 \/ v = 1 \/ v = 2.
Proof. lia. Qed.

(** X18.  For a paint with a valid style, cap and join, [addPaint] writes
    no attribute twice.  It writes exactly one fill and one stroke: the
    paint server for what the style paints, none for the rest.  The opacity
    of the fill and of the stroke is written only for a paint that is not
    fully opaque.  A stroke always gets a width, 1 together with the
    non-scaling-stroke effect for a hairline; cap and join are written
    unless they have their default value, the miter limit only for a miter
    join; and clip-path is written iff the resources carry a clip. *)
Theorem addPaint_attributes (paint : SkPaint) (resources : Resources) :
  0 <= getStyle paint <= 2 ->
  0 <= getStrokeCap paint <= 2 -> 0 <= getStrokeJoin paint <= 2 ->
  let fills := negb (getStyle paint =? kStroke_Style) in
  let strokes := negb (getStyle paint =? kFill_Style) in
  let translucent := negb (SK_AlphaOPAQUE =? SkColorGetA (getColor paint)) in
  let hairline := Scalar_isZero (getStrokeWidth paint) in
  exists attrs,
    addPaint paint resources = Ok attrs /\
    NoDup (map attr_name attrs) /\
    valuesOf "fill" attrs
    = [VString (if fills then fPaintServer resources else "none")] /\
    valuesOf "stroke" attrs
    = [VString (if strokes then fPaintServer resources else "none")] /\
    valuesOf "fill-opacity" attrs
    = (if fills && translucent
       then [VScalar (svg_opacity (getColor paint))] else []) /\
    valuesOf "stroke-opacity" attrs
    = (if strokes && translucent
       then [VScalar (svg_opacity (getColor paint))] else []) /\
    valuesOf "stroke-width" attrs
    = (if strokes
       then [VScalar (if hairline then SK_Scalar1 else getStrokeWidth paint)]
       else []) /\
    valuesOf "vector-effect" attrs
    = (if strokes && hairline then [VString "non-scaling-stroke"] else []) /\
    valuesOf "stroke-linecap" attrs
    = (if strokes && negb (getStrokeCap paint =? kButt_Cap)
       then [VString (if getStrokeCap paint =? kRound_Cap
                      then "round" else "square")]
       else []) /\
    valuesOf "stroke-linejoin" attrs
    = (if strokes && negb (getStrokeJoin paint =? kMiter_Join)
       then [VString (if getStrokeJoin paint =? kRound_Join
                      then "round" else "bevel")]
       else []) /\
    valuesOf "stroke-miterlimit" attrs
    = (if strokes && (getStrokeJoin paint =? kMiter_Join)
       then [VScalar (getStrokeMiter paint)] else []) /\
    valuesOf "clip-path" attrs
    = (if isEmpty (fClip resources) then []
       else [VString (fClip resources)]).
Proof.
  destruct paint as [style color w cap join miter].
  destruct resources as [server clipId]. cbn [getStyle getStrokeCap getStrokeJoin
    getColor getStrokeWidth getStrokeMiter fPaintServer fClip].
  intros Hstyle Hcap Hjoin.
  apply three_values in Hstyle, Hcap, Hjoin.
  unfold addPaint. cbn [getStyle getStrokeCap getStrokeJoin
    getColor getStrokeWidth getStrokeMiter fPaintServer fClip].
  destruct (SK_AlphaOPAQUE =? SkColorGetA color);
    destruct (Scalar_isZero w);
    destruct clipId as [|ch clipId];
    destruct Hstyle as [-> | [-> | ->]];
    destruct Hcap as [-> | [-> | ->]];
    destruct Hjoin as [-> | [-> | ->]];
    (eexists; split; [reflexivity|]);
    (split; [apply (bool_decide_unpack _); vm_compute; reflexivity|]);
    repeat split; reflexivity.
Qed.

Lemma lookup_map_fault (m : list (option string)) (v : Z) :
  lookup_map m v = Fault <-> ~ 0 <= v < Z.of_nat (length m).
Proof.
  unfold lookup_map. split.
  - intros Hf Hr.
    destruct (lookup_lt_is_Some_2 m (Z.to_nat v)) as [e He]; [lia|].
    replace (0 <=? v) with true in Hf by (symmetry; apply Z.leb_le; lia).
    replace (v <? Z.of_nat (length m)) with true in Hf
      by (symmetry; apply Z.ltb_lt; lia).
    revert Hf. run_a. rewrite He. discriminate.
  - intros Hr. destruct (0 <=? v) eqn:E1; [|reflexivity].
    destruct (v <? Z.of_nat (length m)) eqn:E2; [|reflexivity].
    apply Z.leb_le in E1. apply Z.ltb_lt in E2. lia.
Qed.

Lemma Res_bind_fault {A B} (m : Res A) (f : A -> Res B) :
  (m ≫= f) = Fault <-> m = Fault \/ exists a, m = Ok a /\ f a = Fault.
Proof.
  destruct m as [a|]; cbv [mbind Res_bind]; split.
  - intros Hf. right. exists a. auto.
  - intros [Hf|(a' & [= <-] & Hf)]; [discriminate|exact Hf].
  - auto.
  - reflexivity.
Qed.

(** X19.  [addPaint] trips an assertion exactly when the style is none of
    the three enumerators, or when the style strokes and the cap or the join
    is outside its table.  A paint that only fills is never asked for its
    cap or join: invalid values there go unnoticed. *)
Theorem addPaint_faults (paint : SkPaint) (resources : Resources) :
  addPaint paint resources = Fault <->
  ~ 0 <= getStyle paint <= 2 \/
  (getStyle paint <> kFill_Style /\
   (~ 0 <= getStrokeCap paint <= 2 \/ ~ 0 <= getStrokeJoin paint <= 2)).
Proof.
  pose proof (lookup_map_fault cap_map (getStrokeCap paint)) as Hcap.
  pose proof (lookup_map_fault join_map (getStrokeJoin paint)) as Hjoin.
  replace (Z.of_nat (length cap_map)) with 3 in Hcap by reflexivity.
  replace (Z.of_nat (length join_map)) with 3 in Hjoin by reflexivity.
  unfold addPaint, svg_cap, svg_join.
  unfold kFill_Style, kStroke_Style, kStrokeAndFill_Style.
  rewrite Res_bind_fault.
  assert (Hstroke : forall (rest : option string -> option string
                                   -> Res (list Attribute)),
            (forall c j, rest c j <> Fault) ->
            ((c ← lookup_map cap_map (getStrokeCap paint);
              j ← lookup_map join_map (getStrokeJoin paint);
              rest c j) = Fault <->
             ~ 0 <= getStrokeCap paint <= 2 \/
             ~ 0 <= getStrokeJoin paint <= 2)).
  { intros rest Hrest. rewrite Res_bind_fault. split.
    - intros [Hf|(c & _ & Hf)]; [left; apply Hcap in Hf; lia|].
      apply Res_bind_fault in Hf. destruct Hf as [Hf|(j & _ & Hf)].
      + right. apply Hjoin in Hf. lia.
      + destruct (Hrest c j Hf).
    - intros [Hc|Hj]; [left; apply Hcap; lia|].
      destruct (lookup_map cap_map (getStrokeCap paint)) as [c|];
        [|left; reflexivity].
      right. exists c. split; [reflexivity|].
      apply Res_bind_fault. left. apply Hjoin. lia. }
  destruct (Z.eqb_spec (getStyle paint) 0) as [E0|N0];
    destruct (Z.eqb_spec (getStyle paint) 1) as [E1|N1];
    destruct (Z.eqb_spec (getStyle paint) 2) as [E2|N2];
    try (exfalso; lia); cbn [orb].
  - split.
    + intros [Hf|(fill & _ & Hf)]; [discriminate Hf|].
      apply Res_bind_fault in Hf.
      destruct Hf as [Hf|(stroke & _ & Hf)]; discriminate Hf.
    + intros [?|[? _]]; lia.
  - split.
    + intros [Hf|(fill & _ & Hf)]; [discriminate Hf|].
      apply Res_bind_fault in Hf.
      destruct Hf as [Hf|(stroke & _ & Hf)]; [|discriminate Hf].
      right. split; [lia|]. apply Hstroke in Hf; [exact Hf|discriminate].
    + intros [?|[_ Hbad]]; [lia|]. right. eexists. split; [reflexivity|].
      apply Res_bind_fault. left. apply Hstroke; [discriminate|exact Hbad].
  - split.
    + intros [Hf|(fill & _ & Hf)]; [discriminate Hf|].
      apply Res_bind_fault in Hf.
      destruct Hf as [Hf|(stroke & _ & Hf)]; [|discriminate Hf].
      right. split; [lia|]. apply Hstroke in Hf; [exact Hf|discriminate].
    + intros [?|[_ Hbad]]; [lia|]. right. eexists. split; [reflexivity|].
      apply Res_bind_fault. left. apply Hstroke; [discriminate|exact Hbad].
  - split; [intros _; left; lia|]. intros _. left. reflexivity.
Qed.

End Paint.

Lemma addPaint_attributes_witness :
  exists attrs,
    SkSVGDevice.addPaint SkSVGDevice.examplePaint
      (SkSVGDevice.Resources_ctor SkSVGDevice.examplePaint)
    = Ok attrs /\
    NoDup (map SkSVGDevice.attr_name attrs).
Proof.
  destruct (addPaint_attributes SkSVGDevice.examplePaint
              (SkSVGDevice.Resources_ctor SkSVGDevice.examplePaint))
    as (attrs & Ha & Hnd & _).
  - vm_compute. split; discriminate.
  - vm_compute. split; discriminate.
  - vm_compute. split; discriminate.
  - exists attrs. split; [exact Ha|exact Hnd].
Defined.

(** *** svg_color *)

Section Colors.
Import SkSVGDevice.

Lemma free_cons (d c : ascii) (s : string) :
  c <> d -> (forall s1 s2, s <> s1 +:+ String d s2) ->
  forall s1 s2, String c s <> s1 +:+ String d s2.
Proof.
  intros Hc Hs [|c1 s1] s2; simpl; intros [= -> E]; [congruence|].
  exact (Hs s1 s2 E).
Qed.

Lemma free_tail (d c : ascii) (s : string) :
  (forall s1 s2, String c s <> s1 +:+ String d s2) ->
  c <> d /\ forall s1 s2, s <> s1 +:+ String d s2.
Proof.
  intros H. split.
  - intros ->. exact (H EmptyString s eq_refl).
  - intros s1 s2 ->. exact (H (String c s1) s2 eq_refl).
Qed.

Lemma split_at (d : ascii) (a a' r r' : string) :
  (forall s1 s2, a <> s1 +:+ String d s2) ->
  (forall s1 s2, a' <> s1 +:+ String d s2) ->
  a +:+ String d r = a' +:+ String d r' -> a = a' /\ r = r'.
Proof.
  revert a'. induction a as [|c a IH]; intros [|c' a'] Ha Ha'; simpl.
  - intros [= ->]. auto.
  - intros [= <- E]. destruct (Ha' EmptyString a' eq_refl).
  - intros [= -> E]. destruct (Ha EmptyString a eq_refl).
  - intros [= <- E].
    destruct (free_tail d c a Ha) as [_ Ha0].
    destruct (free_tail d c a' Ha') as [_ Ha0'].
    destruct (IH a' Ha0 Ha0' E) as [-> ->]. auto.
Qed.

Lemma pretty_N_go_free (d : ascii) (x : N) (s : string) :
  (forall n, pretty_N_char n <> d) ->
  (forall s1 s2, s <> s1 +:+ String d s2) ->
  forall s1 s2, pretty_N_go x s <> s1 +:+ String d s2.
Proof.
  intros Hd. revert s. induction (N.lt_wf_0 x) as [x _ IH]. intros s Hs.
  destruct (decide (x = 0)%N) as [->|Hx].
  - rewrite pretty_N_go_0. exact Hs.
  - rewrite pretty_N_go_step by lia. apply IH.
    + apply N.div_lt; lia.
    + apply free_cons; [apply Hd|exact Hs].
Qed.

Lemma pretty_Z_free (d : ascii) (z : Z) :
  (forall n, pretty_N_char n <> d) -> d <> "-"%char ->
  forall s1 s2, pretty z <> s1 +:+ String d s2.
Proof.
  intros Hd Hm.
  assert (Hnil : forall s1 s2, EmptyString <> s1 +:+ String d s2)
    by (intros [|? ?] ?; discriminate).
  assert (Hzero : forall s1 s2, String "0" EmptyString <> s1 +:+ String d s2).
  { apply free_cons; [|exact Hnil]. exact (Hd 0%N). }
  assert (Hpos : forall p s1 s2, pretty (N.pos p) <> s1 +:+ String d s2).
  { intros p. unfold pretty, pretty_N.
    destruct (decide (N.pos p = 0)%N); [discriminate|].
    apply pretty_N_go_free; assumption. }
  destruct z as [|p|p]; unfold pretty, pretty_Z.
  - exact Hzero.
  - apply Hpos.
  - apply free_cons; [congruence|apply Hpos].
Qed.

Lemma digit_not_comma (n : N) : pretty_N_char n <> ","%char.
Proof. unfold pretty_N_char. repeat case_match; discriminate. Qed.

Lemma digit_not_paren (n : N) : pretty_N_char n <> ")"%char.
Proof. unfold pretty_N_char. repeat case_match; discriminate. Qed.

(** X20.  Two colours get the same string from [svg_color] exactly when
    they have the same red, green and blue components: alpha plays no part,
    and no two different opaque colours are written alike. *)
Theorem svg_color_names_the_rgb (c1 c2 : Z) :
  svg_color c1 = svg_color c2 <->
  SkColorGetR c1 = SkColorGetR c2 /\
  SkColorGetG c1 = SkColorGetG c2 /\
  SkColorGetB c1 = SkColorGetB c2.
Proof.
  unfold svg_color. split.
  - intros E. apply (inj (String.app _)) in E.
    apply (split_at ","%char) in E;
      [|apply pretty_Z_free; [apply digit_not_comma|discriminate]..].
    destruct E as [ER E]. apply (inj pretty) in ER.
    apply (split_at ","%char) in E;
      [|apply pretty_Z_free; [apply digit_not_comma|discriminate]..].
    destruct E as [EG E]. apply (inj pretty) in EG.
    apply (split_at ")"%char) in E;
      [|apply pretty_Z_free; [apply digit_not_paren|discriminate]..].
    destruct E as [EB _]. apply (inj pretty) in EB.
    auto.
  - intros (-> & -> & ->). reflexivity.
Qed.

End Colors.
